(** * X-Plane OBJ importer: the stateful command builder

    A shallow embedding of [io_xplane2blender/importer/xplane_imp_cmd_builder.py]:
    the intermediate data classes, [ImpCommandBuilder.build_cmd] with its
    nested helper [begin_new_frame], [IntermediateDatablock.build_mesh],
    [IntermediateAnimation.apply_animation] and
    [ImpCommandBuilder.finalize_intermediate_blocks].

    Conventions.
    - Python exceptions are values of [exn]; a stateful method is a function
      from the builder to a [result] paired with the builder as it stands
      when the method returns or raises (mutations done before a [raise]
      stay visible).
    - Objects that the source shares by reference ([IntermediateAnimation],
      held both by a stack entry and by a datablock's [animations_to_apply])
      live in a store [anim_heap]; references are addresses into it.
    - The two deques grow at their right end in the source; here the right
      end is the head of the list ([append] is cons, [[-1]] is [head]).
    - Floats are an abstract type [num] with the operations the source
      uses on them; the Blender host is reached through [Host]. *)

From stdpp Require Import gmap strings list pretty.
From Stdlib Require Import ZArith.

(** ** Scalars, vectors and call arguments *)

Class Scalar := {
  num : Type;
  num_eq_dec :: EqDecision num;
  num_zero : num;
  num_add : num → num → num;
  num_mul : num → num → num;
  num_abs : num → num;
}.

(** What the source asks of its environment: [hash_tag s] stands for
    [hex(hash(s))[2:6]] (Python salts string hashes per process), and
    [mesh_validate vs fs] for the boolean that [me.validate(verbose=True)]
    returns on the mesh built from the vertices [vs] and the faces [fs].
    Blender's [Mesh.validate] returns [True] when it found invalid geometry
    (and corrected or removed it): [true] is the case in which the source
    logs "Mesh was not valid", [false] the case in which the host has no
    objection. *)
Class Host `{Scalar} := {
  hash_tag : string → string;
  mesh_validate : list (num * num * num) → list (list nat) → bool;
}.

Inductive exn :=
  | IndexError
  | KeyError
  | AttributeError
  | TypeError
  | AssertionError (msg : string)
  | BadArguments      (* the call breaks build_cmd's contract on [args] *)
  | DanglingReference (* an address outside the store; never built, see [wf_builder] *).

Inductive result (A : Type) :=
  | Done (a : A)
  | Fail (e : exn).
Arguments Done {A} a.
Arguments Fail {A} e.

#[global] Instance result_ret : MRet result := λ A a, Done a.
#[global] Instance result_bind : MBind result := λ A B f r,
  match r with Done a => f a | Fail e => Fail e end.
#[global] Instance result_fmap : FMap result := λ A B f r,
  match r with Done a => Done (f a) | Fail e => Fail e end.

(** Python sequence indexing [l[i]] and slicing [l[start:stop]]. *)
Definition py_index {A} (l : list A) (i : Z) : result A :=
  let n := Z.of_nat (length l) in
  let j := (if decide (i < 0) then i + n else i)%Z in
  if decide (0 ≤ j < n)%Z
  then match l !! Z.to_nat j with Some a => Done a | None => Fail IndexError end
  else Fail IndexError.

Definition py_clamp (n i : Z) : Z :=
  (if decide (i < 0) then Z.max (i + n) 0 else Z.min i n)%Z.

Definition py_slice {A} (l : list A) (start stop : Z) : list A :=
  let n := Z.of_nat (length l) in
  let lo := py_clamp n start in
  let hi := py_clamp n stop in
  take (Z.to_nat (hi - lo)) (drop (Z.to_nat lo) l).

(** [l[i]] for an index that is never negative (a loop counter). *)
Definition nat_index {A} (l : list A) (i : nat) : result A :=
  match l !! i with Some a => Done a | None => Fail IndexError end.

(** [f"{n:03}"]. *)
Definition pad3 (n : nat) : string :=
  let s := pretty n in
  match String.length s with
  | 0 => "000" +:+ s
  | 1 => "00" +:+ s
  | 2 => "0" +:+ s
  | _ => s
  end.

Section Model.
Context `{Host}.

Record Vector := mkVector { vec_x : num; vec_y : num; vec_z : num }.

#[global] Instance Vector_eq_dec : EqDecision Vector.
Proof. solve_decision. Defined.

(** [Vector((0, 0, 0))], [axis * d], [tot += v], [Vector(map(abs, axis))]. *)
Definition vzero : Vector := mkVector num_zero num_zero num_zero.
Definition vscale (axis : Vector) (d : num) : Vector :=
  mkVector (num_mul (vec_x axis) d) (num_mul (vec_y axis) d) (num_mul (vec_z axis) d).
Definition vadd (a b : Vector) : Vector :=
  mkVector (num_add (vec_x a) (vec_x b)) (num_add (vec_y a) (vec_y b))
           (num_add (vec_z a) (vec_z b)).
Definition vabs (axis : Vector) : Vector :=
  mkVector (num_abs (vec_x axis)) (num_abs (vec_y axis)) (num_abs (vec_z axis)).

(** One element of [*args]. *)
Inductive pyval :=
  | PFloat (x : num)
  | PInt (i : Z)
  | PStr (s : string)
  | PVec (v : Vector).

(** ** The data classes *)

(** Modelled from the spec: the value of [xplane_constants.ANIM_TYPE_TRANSFORM],
    whose module is not part of the sources at hand; the spec names the kinds
    transform, show and hide. *)
Definition ANIM_TYPE_TRANSFORM : string := "transform".

Record IntermediateDataref := mkDataref {
  anim_type : string;
  loop : num;
  path : string;
  show_hide_v1 : num;
  show_hide_v2 : num;
  values : list num;
}.

Definition new_dataref : IntermediateDataref :=
  mkDataref ANIM_TYPE_TRANSFORM num_zero "" num_zero num_zero [].

(** [rotations] is a [defaultdict(list)] keyed by frozen vectors. Python
    dicts iterate in insertion order and [recompose_rotation] adds floats in
    that order, so the map is an association list with unique keys. *)
Record IntermediateAnimation := mkAnimation {
  locations : list Vector;
  rotations : list (Vector * list num);
  xp_dataref : IntermediateDataref;
}.

Definition new_animation : IntermediateAnimation :=
  mkAnimation [] [] new_dataref.

(** [rotations[axis].append(d)]. *)
Fixpoint rotations_append (axis : Vector) (d : num)
    (rots : list (Vector * list num)) : list (Vector * list num) :=
  match rots with
  | [] => [(axis, [d])]
  | (k, ds) :: rest =>
      if decide (k = axis) then (k, ds ++ [d]) :: rest
      else (k, ds) :: rotations_append axis d rest
  end.

(** [DatablockInfo.datablock_type] is one of the strings "EMPTY" and "MESH". *)
Inductive datablock_kind := EMPTY | MESH.

#[global] Instance datablock_kind_eq_dec : EqDecision datablock_kind.
Proof. solve_decision. Defined.

Record ParentInfo := mkParentInfo { parent : string }.

Record DatablockInfo := mkDatablockInfo {
  datablock_type : datablock_kind;
  name : string;
  parent_info : option ParentInfo;
}.

Record IntermediateDatablock := mkDatablock {
  datablock_info : DatablockInfo;
  start_idx : option Z;
  count : option Z;
  animations_to_apply : list nat;   (* addresses into [anim_heap] *)
}.

(** The eight floats of a vertex; the fields [x], [y], ..., [t] of the source
    carry the prefix [vt_] here. *)
Record VT := mkVT {
  vt_x : num; vt_y : num; vt_z : num;
  vt_nx : num; vt_ny : num; vt_nz : num;
  vt_s : num; vt_t : num;
}.

Record VTTable := mkVTTable {
  vertices : list VT;
  idxes : list Z;
}.

Record _AnimIntermediateStackEntry := mkEntry {
  animation : nat;                (* address into [anim_heap] *)
  intermediate_datablock : nat;   (* position in [_blocks] *)
}.

Record ImpCommandBuilder := mkBuilder {
  root_collection : string;       (* the collection's name *)
  vt_table : VTTable;
  _blocks : list IntermediateDatablock;
  _last_axis : option Vector;
  _anim_intermediate_stack : list _AnimIntermediateStackEntry;
  _anim_count : list nat;
  anim_heap : list IntermediateAnimation;
}.

Definition root_intermediate_datablock : IntermediateDatablock :=
  mkDatablock (mkDatablockInfo EMPTY "INTER_ROOT" None) None None [].

(** [ImpCommandBuilder.__init__], given [pathlib.Path(filepath).stem]. *)
Definition new_builder (stem : string) : ImpCommandBuilder :=
  mkBuilder stem (mkVTTable [] []) [root_intermediate_datablock] None [] [] [].

(** ** Methods as state transformers *)

Definition M (A : Type) : Type :=
  ImpCommandBuilder → result A * ImpCommandBuilder.

#[global] Instance M_ret : MRet M := λ A a b, (Done a, b).
#[global] Instance M_bind : MBind M := λ A B f m b,
  match m b with
  | (Done a, b') => f a b'
  | (Fail e, b') => (Fail e, b')
  end.

Definition raise {A} (e : exn) : M A := λ b, (Fail e, b).
Definition get : M ImpCommandBuilder := λ b, (Done b, b).
Definition modify (f : ImpCommandBuilder → ImpCommandBuilder) : M unit :=
  λ b, (Done tt, f b).

Definition set_vt_table (f : VTTable → VTTable) (b : ImpCommandBuilder) :=
  mkBuilder (root_collection b) (f (vt_table b)) (_blocks b) (_last_axis b)
    (_anim_intermediate_stack b) (_anim_count b) (anim_heap b).
Definition set_blocks f (b : ImpCommandBuilder) :=
  mkBuilder (root_collection b) (vt_table b) (f (_blocks b)) (_last_axis b)
    (_anim_intermediate_stack b) (_anim_count b) (anim_heap b).
Definition set_last_axis (a : option Vector) (b : ImpCommandBuilder) :=
  mkBuilder (root_collection b) (vt_table b) (_blocks b) a
    (_anim_intermediate_stack b) (_anim_count b) (anim_heap b).
Definition set_stack f (b : ImpCommandBuilder) :=
  mkBuilder (root_collection b) (vt_table b) (_blocks b) (_last_axis b)
    (f (_anim_intermediate_stack b)) (_anim_count b) (anim_heap b).
Definition set_anim_count f (b : ImpCommandBuilder) :=
  mkBuilder (root_collection b) (vt_table b) (_blocks b) (_last_axis b)
    (_anim_intermediate_stack b) (f (_anim_count b)) (anim_heap b).
Definition set_heap f (b : ImpCommandBuilder) :=
  mkBuilder (root_collection b) (vt_table b) (_blocks b) (_last_axis b)
    (_anim_intermediate_stack b) (_anim_count b) (f (anim_heap b)).

(** The properties [_top_animation] and [_top_intermediate_datablock]:
    [None] when the stack is empty. *)
Definition _top_animation (b : ImpCommandBuilder) : option nat :=
  animation <$> head (_anim_intermediate_stack b).
Definition _top_intermediate_datablock (b : ImpCommandBuilder) : option nat :=
  intermediate_datablock <$> head (_anim_intermediate_stack b).

Definition count_kind (k : datablock_kind) (bs : list IntermediateDatablock) : nat :=
  length (filter (λ blk, datablock_type (datablock_info blk) = k) bs).

Definition _next_empty_name (b : ImpCommandBuilder) : string :=
  "ImpEmpty." +:+ pad3 (count_kind EMPTY (_blocks b)) +:+ "_"
    +:+ hash_tag (root_collection b).
Definition _next_object_name (b : ImpCommandBuilder) : string :=
  "ImpMesh." +:+ pad3 (count_kind MESH (_blocks b)) +:+ "_"
    +:+ hash_tag (root_collection b).

(** [.datablock_info.name] of the block a stack entry refers to. *)
Definition block_name (i : nat) : M string := λ b,
  match _blocks b !! i with
  | Some blk => (Done (name (datablock_info blk)), b)
  | None => (Fail DanglingReference, b)
  end.

(** An attribute access or mutation through [self._top_animation]: on an
    empty stack the property is [None] and the access raises. *)
Definition top_animation_object : M IntermediateAnimation := λ b,
  match _top_animation b with
  | None => (Fail AttributeError, b)
  | Some addr =>
      match anim_heap b !! addr with
      | Some a => (Done a, b)
      | None => (Fail DanglingReference, b)
      end
  end.

Definition update_top_animation (f : IntermediateAnimation → IntermediateAnimation)
    : M unit := λ b,
  match _top_animation b with
  | None => (Fail AttributeError, b)
  | Some addr =>
      match anim_heap b !! addr with
      | Some a => (Done tt, set_heap (λ h, <[addr := f a]> h) b)
      | None => (Fail DanglingReference, b)
      end
  end.

Definition update_dataref (f : IntermediateDataref → IntermediateDataref)
    (a : IntermediateAnimation) : IntermediateAnimation :=
  mkAnimation (locations a) (rotations a) (f (xp_dataref a)).
Definition update_locations (f : list Vector → list Vector)
    (a : IntermediateAnimation) : IntermediateAnimation :=
  mkAnimation (f (locations a)) (rotations a) (xp_dataref a).
Definition update_rotations f (a : IntermediateAnimation) : IntermediateAnimation :=
  mkAnimation (locations a) (f (rotations a)) (xp_dataref a).

Definition with_values (f : list num → list num) (d : IntermediateDataref) :=
  mkDataref (anim_type d) (loop d) (path d) (show_hide_v1 d) (show_hide_v2 d)
    (f (values d)).
Definition with_path (p : string) (d : IntermediateDataref) :=
  mkDataref (anim_type d) (loop d) p (show_hide_v1 d) (show_hide_v2 d) (values d).
Definition with_loop (l : num) (d : IntermediateDataref) :=
  mkDataref (anim_type d) l (path d) (show_hide_v1 d) (show_hide_v2 d) (values d).
Definition with_anim_type (k : string) (d : IntermediateDataref) :=
  mkDataref k (loop d) (path d) (show_hide_v1 d) (show_hide_v2 d) (values d).
Definition with_show_hide_v1 (v : num) (d : IntermediateDataref) :=
  mkDataref (anim_type d) (loop d) (path d) v (show_hide_v2 d) (values d).
Definition with_show_hide_v2 (v : num) (d : IntermediateDataref) :=
  mkDataref (anim_type d) (loop d) (path d) (show_hide_v1 d) v (values d).

Definition attach_animation (addr : nat) (blk : IntermediateDatablock) :=
  mkDatablock (datablock_info blk) (start_idx blk) (count blk)
    (animations_to_apply blk ++ [addr]).

(** The nested function [begin_new_frame] of [build_cmd]. *)
Definition begin_new_frame : M unit :=
  b ← get;
  parent_name ← match _top_intermediate_datablock b with
                | None => mret (name (datablock_info root_intermediate_datablock))
                | Some i => block_name i
                end;
  let empt := mkDatablock
                (mkDatablockInfo EMPTY (_next_empty_name b)
                   (Some (mkParentInfo parent_name)))
                None None [] in
  let empt_pos := length (_blocks b) in
  let addr := length (anim_heap b) in
  modify (set_blocks (λ bs, bs ++ [empt]));;
  modify (set_heap (λ h, h ++ [new_animation]));;
  modify (set_stack (λ st, mkEntry addr empt_pos :: st));;
  b' ← get;
  match _anim_count b' with
  | [] => raise IndexError
  | c :: cs => modify (set_anim_count (λ _, S c :: cs))
  end;;
  b'' ← get;
  match _top_animation b'' with
  | None => raise AttributeError
  | Some top => modify (set_blocks (alter (attach_animation top) empt_pos))
  end.

(** [for i in range(n): self._anim_intermediate_stack.pop()]. *)
Fixpoint pop_frames (n : nat) : M unit :=
  match n with
  | 0 => mret tt
  | S n' =>
      b ← get;
      match _anim_intermediate_stack b with
      | [] => raise IndexError
      | _ :: st => modify (set_stack (λ _, st));; pop_frames n'
      end
  end.

Definition args_ints (args : list pyval) : result (list Z) :=
  mapM (λ a, match a with PInt i => Done i | _ => Fail BadArguments end) args.

(** ** [ImpCommandBuilder.build_cmd]

    The docstring's contract is that [args] holds every argument, in order
    and correctly typed; each branch reads its arguments before it touches
    the builder, and a call that breaks the contract is answered with
    [BadArguments] on the untouched builder. Each branch of the [if]/[elif]
    chain is a definition of its own, named after its directive. *)

Definition on_VT (args : list pyval) : M unit :=
  match args with
  | [PFloat x; PFloat y; PFloat z; PFloat nx; PFloat ny; PFloat nz;
     PFloat s; PFloat t] =>
      modify (set_vt_table (λ tb,
        mkVTTable (vertices tb ++ [mkVT x y z nx ny nz s t]) (idxes tb)))
  | _ => raise BadArguments
  end.

Definition on_IDX (args : list pyval) : M unit :=
  match args with
  | PInt i :: _ =>
      modify (set_vt_table (λ tb, mkVTTable (vertices tb) (idxes tb ++ [i])))
  | _ => raise BadArguments
  end.

Definition on_IDX10 (args : list pyval) : M unit :=
  match args_ints args with
  | Done ixs =>
      modify (set_vt_table (λ tb, mkVTTable (vertices tb) (idxes tb ++ ixs)))
  | Fail e => raise e
  end.

Definition on_TRIS (args : list pyval) (name_hint : string) : M unit :=
  match args with
  | PInt start :: PInt cnt :: _ =>
      b ← get;
      parent_name ← match _anim_intermediate_stack b with
                    | [] => mret (name (datablock_info root_intermediate_datablock))
                    | e :: _ => block_name (intermediate_datablock e)
                    end;
      let nm := if decide (name_hint = "") then _next_object_name b
                else name_hint in
      modify (set_blocks (λ bs, bs ++
        [mkDatablock (mkDatablockInfo MESH nm (Some (mkParentInfo parent_name)))
           (Some start) (Some cnt) []]))
  | _ => raise BadArguments
  end.

Definition on_ANIM_begin : M unit :=
  modify (set_anim_count (λ cs, 0 :: cs)).

Definition on_ANIM_end : M unit :=
  b ← get;
  match _anim_count b with
  | [] => raise IndexError
  | n :: cs => modify (set_anim_count (λ _, cs));; pop_frames n
  end.

Definition on_ANIM_trans_begin (args : list pyval) : M unit :=
  match args with
  | PStr dataref_path :: _ =>
      begin_new_frame;;
      update_top_animation (update_dataref (λ _,
        mkDataref ANIM_TYPE_TRANSFORM num_zero dataref_path num_zero num_zero []))
  | _ => raise BadArguments
  end.

Definition on_ANIM_trans_key (args : list pyval) : M unit :=
  match args with
  | PFloat value :: PVec location :: _ =>
      update_top_animation (update_locations (λ ls, ls ++ [location]));;
      update_top_animation (update_dataref (with_values (λ vs, vs ++ [value])))
  | _ => raise BadArguments
  end.

(** [directive] is "ANIM_hide" or "ANIM_show" here, and
    [directive.replace("ANIM_", "")] is what follows its first five
    characters. *)
Definition on_ANIM_hide_show (directive : string) (args : list pyval) : M unit :=
  match args with
  | PFloat v1 :: PFloat v2 :: PStr dataref_path :: _ =>
      begin_new_frame;;
      update_top_animation (update_dataref (with_anim_type
        (String.substring 5 (String.length directive - 5) directive)));;
      update_top_animation (update_dataref (with_path dataref_path));;
      update_top_animation (update_dataref (with_show_hide_v1 v1));;
      update_top_animation (update_dataref (with_show_hide_v2 v2))
  | _ => raise BadArguments
  end.

Definition on_ANIM_rotate_begin (args : list pyval) : M unit :=
  match args with
  | PVec axis :: PStr dataref_path :: _ =>
      modify (set_last_axis (Some (vabs axis)));;
      begin_new_frame;;
      update_top_animation (update_dataref (λ _,
        mkDataref ANIM_TYPE_TRANSFORM num_zero dataref_path num_zero num_zero []))
  | _ => raise BadArguments
  end.

Definition on_ANIM_rotate_key (args : list pyval) : M unit :=
  match args with
  | PFloat value :: PFloat degrees :: _ =>
      _ ← top_animation_object;
      b ← get;
      match _last_axis b with
      | None => raise AttributeError
      | Some axis =>
          update_top_animation (update_rotations (rotations_append axis degrees));;
          update_top_animation (update_dataref (with_values (λ vs, vs ++ [value])))
      end
  | _ => raise BadArguments
  end.

Definition on_ANIM_rotate_end : M unit :=
  modify (set_last_axis None).

Definition on_ANIM_keyframe_loop (args : list pyval) : M unit :=
  match args with
  | PFloat lp :: _ => update_top_animation (update_dataref (with_loop lp))
  | _ => raise BadArguments
  end.

Definition on_ANIM_trans (args : list pyval) : M unit :=
  match args with
  | PVec xyz1 :: PVec xyz2 :: PFloat v1 :: PFloat v2 :: PStr pth :: _ =>
      begin_new_frame;;
      update_top_animation (update_locations (λ ls, ls ++ [xyz1]));;
      update_top_animation (update_locations (λ ls, ls ++ [xyz2]));;
      update_top_animation (update_dataref (with_values (λ vs, vs ++ [v1; v2])));;
      update_top_animation (update_dataref (with_path pth))
  | _ => raise BadArguments
  end.

Definition on_ANIM_rotate (args : list pyval) : M unit :=
  match args with
  | PVec dxyz :: PFloat r1 :: PFloat r2 :: PFloat v1 :: PFloat v2 :: PStr pth :: _ =>
      begin_new_frame;;
      update_top_animation (update_rotations (rotations_append dxyz r1));;
      update_top_animation (update_rotations (rotations_append dxyz r2));;
      update_top_animation (update_dataref (with_values (λ vs, vs ++ [v1; v2])));;
      update_top_animation (update_dataref (with_path pth))
  | _ => raise BadArguments
  end.

Definition build_cmd (directive : string) (args : list pyval)
    (name_hint : string) : M unit :=
  if decide (directive = "VT") then on_VT args
  else if decide (directive = "IDX") then on_IDX args
  else if decide (directive = "IDX10") then on_IDX10 args
  else if decide (directive = "TRIS") then on_TRIS args name_hint
  else if decide (directive = "ANIM_begin") then on_ANIM_begin
  else if decide (directive = "ANIM_end") then on_ANIM_end
  else if decide (directive = "ANIM_trans_begin") then on_ANIM_trans_begin args
  else if decide (directive = "ANIM_trans_key") then on_ANIM_trans_key args
  else if decide (directive = "ANIM_trans_end") then mret tt
  else if decide (directive ∈ ["ANIM_hide"; "ANIM_show"])
       then on_ANIM_hide_show directive args
  else if decide (directive = "ANIM_rotate_begin") then on_ANIM_rotate_begin args
  else if decide (directive = "ANIM_rotate_key") then on_ANIM_rotate_key args
  else if decide (directive = "ANIM_rotate_end") then on_ANIM_rotate_end
  else if decide (directive = "ANIM_keyframe_loop") then on_ANIM_keyframe_loop args
  else if decide (directive = "ANIM_trans") then on_ANIM_trans args
  else if decide (directive = "ANIM_rotate") then on_ANIM_rotate args
  else raise (AssertionError (directive +:+ " is not supported yet")).

(** One call of [build_cmd] as the importer issues it. *)
Record call := mkCall {
  call_directive : string;
  call_args : list pyval;
  call_name_hint : string;
}.

(** Feeding a directive stream to the builder; the first exception ends the
    import. *)
Fixpoint build_cmds (stream : list call) : M unit :=
  match stream with
  | [] => mret tt
  | c :: rest =>
      build_cmd (call_directive c) (call_args c) (call_name_hint c);;
      build_cmds rest
  end.

(** ** Keyframes *)

(** Modelled from the spec: [test_creation_helpers.KeyframeInfo] is not part
    of the sources at hand. A record carries the sample index, the driver
    path and kind, the driver value, an optional location, an optional
    rotation and, for the other kinds, the two thresholds; a field the caller
    does not pass is [None]. *)
Record KeyframeInfo := mkKeyframeInfo {
  idx : nat;
  dataref_path : string;
  dataref_value : option num;
  dataref_show_hide_v1 : option num;
  dataref_show_hide_v2 : option num;
  dataref_anim_type : string;
  location : option Vector;
  rotation : option Vector;
}.

(** The loop of [recompose_rotation], started from [tot]. *)
Fixpoint recompose_from (tot : Vector) (rots : list (Vector * list num))
    (value_idx : nat) : result Vector :=
  match rots with
  | [] => Done tot
  | (axis, degrees) :: rest =>
      d ← nat_index degrees value_idx;
      recompose_from (vadd tot (vscale axis d)) rest value_idx
  end.

Definition recompose_rotation (a : IntermediateAnimation) (value_idx : nat)
    : result Vector :=
  recompose_from vzero (rotations a) value_idx.

(** The [for value_idx, value in enumerate(...)] loop of [apply_animation],
    entered at [value_idx] with [current_frame]. *)
Fixpoint transform_keyframes (a : IntermediateAnimation)
    (value_idx current_frame : nat) (vals : list num)
    : result (list KeyframeInfo) :=
  match vals with
  | [] => Done []
  | value :: rest =>
      loc ← match locations a with
            | [] => Done None
            | _ => Some <$> nat_index (locations a) value_idx
            end;
      rot ← match rotations a with
            | [] => Done None
            | _ => Some <$> recompose_rotation a value_idx
            end;
      kfs ← transform_keyframes a (S value_idx) (S current_frame) rest;
      Done (mkKeyframeInfo current_frame (path (xp_dataref a)) (Some value)
              None None (anim_type (xp_dataref a)) loc rot :: kfs)
  end.

(** [IntermediateAnimation.apply_animation]: the list it hands to
    [set_animation_data], or the exception it raises before that. *)
Definition apply_animation (a : IntermediateAnimation) : result (list KeyframeInfo) :=
  if decide (anim_type (xp_dataref a) = ANIM_TYPE_TRANSFORM) then
    transform_keyframes a 0 1 (values (xp_dataref a))
  else
    Done [mkKeyframeInfo 1 (path (xp_dataref a)) None
            (Some (show_hide_v1 (xp_dataref a))) (Some (show_hide_v2 (xp_dataref a)))
            (anim_type (xp_dataref a)) None None].

(** ** Meshes *)

Record Mesh := mkMesh {
  me_vertices : list (num * num * num);
  me_faces : list (list nat);
  me_normals : gmap nat (num * num * num);   (* me.vertices[i].normal = ... *)
  me_uvs : gmap nat (num * num);             (* uv_layer.data[i].uv = ... *)
}.

(** What the host holds for one object after creation. *)
Record BlObject := mkObject {
  ob_info : DatablockInfo;
  ob_data : option Mesh;
  ob_material : option string;
  ob_keyframes : list (list KeyframeInfo);   (* one list per set_animation_data *)
}.

(** [chunk(it, size)]: tuples of [size] items until the iterator is dry,
    the last one possibly shorter. [fuel] bounds the number of tuples. *)
Fixpoint chunk_fuel {A} (fuel size : nat) (it : list A) : list (list A) :=
  match fuel with
  | 0 => []
  | S fuel' =>
      match take size it with
      | [] => []
      | c => c :: chunk_fuel fuel' size (drop size it)
      end
  end.
Definition chunk {A} (it : list A) (size : nat) : list (list A) :=
  chunk_fuel (length it) size it.

(** One turn of the deduplication loop of [build_mesh]. *)
Definition dedup_step (tb : VTTable) (acc : gmap Z nat * list VT) (mesh_idx : Z)
    : result (gmap Z nat * list VT) :=
  match acc.1 !! mesh_idx with
  | Some _ => Done acc
  | None =>
      v ← py_index (vertices tb) mesh_idx;
      Done (<[mesh_idx := size acc.1]> acc.1, acc.2 ++ [v])
  end.

Fixpoint dedup_loop (tb : VTTable) (acc : gmap Z nat * list VT)
    (mesh_idxes : list Z) : result (gmap Z nat * list VT) :=
  match mesh_idxes with
  | [] => Done acc
  | mesh_idx :: rest =>
      acc' ← dedup_step tb acc mesh_idx;
      dedup_loop tb acc' rest
  end.

Definition remap (idx_mapping : gmap Z nat) (i : Z) : result nat :=
  match idx_mapping !! i with Some k => Done k | None => Fail KeyError end.

(** The branch of [build_mesh] taken when [me.validate] answers false. *)
Definition vertex_overrides (verts : list VT) (faces : list (list nat))
    : result (gmap nat (num * num * num) * gmap nat (num * num)) :=
  ps ← mapM (λ i, v ← nat_index verts i; Done (i, v))
            (elements (list_to_set (mjoin faces) : gset nat));
  Done (list_to_map ((λ p, (p.1, (vt_nx p.2, vt_ny p.2, vt_nz p.2))) <$> ps),
        list_to_map ((λ p, (p.1, (vt_s p.2, vt_t p.2))) <$> ps)).

(** [IntermediateDatablock.build_mesh]: the object and what was logged. *)
Definition build_mesh (blk : IntermediateDatablock) (tb : VTTable)
    : result (BlObject * list string) :=
  match start_idx blk, count blk with
  | Some start, Some cnt =>
      let mesh_idxes := py_slice (idxes tb) start (start + cnt) in
      acc ← dedup_loop tb (∅, []) mesh_idxes;
      faces ← mapM (λ face, reverse <$> mapM (remap acc.1) face) (chunk mesh_idxes 3);
      let coords := (λ v, (vt_x v, vt_y v, vt_z v)) <$> acc.2 in
      if negb (mesh_validate coords faces) then
        ov ← vertex_overrides acc.2 faces;
        Done (mkObject (datablock_info blk) (Some (mkMesh coords faces ov.1 ov.2))
                (Some "Material") [], [])
      else
        Done (mkObject (datablock_info blk) (Some (mkMesh coords faces ∅ ∅))
                (Some "Material") [],
              ["Mesh was not valid, check console for more"])
  | _, _ => Fail TypeError
  end.

(** ** Finalization *)

Record Scene := mkScene {
  objects : list BlObject;
  log : list string;          (* logger.error *)
  frame_current : option nat; (* bpy.context.scene.frame_current, once set *)
}.

Definition add_keyframes (kfs : list KeyframeInfo) (ob : BlObject) : BlObject :=
  mkObject (ob_info ob) (ob_data ob) (ob_material ob) (ob_keyframes ob ++ [kfs]).

(** [for animation in intermediate_block.animations_to_apply]. *)
Fixpoint apply_animations (heap : list IntermediateAnimation) (addrs : list nat)
    (ob : BlObject) : result unit * BlObject :=
  match addrs with
  | [] => (Done tt, ob)
  | addr :: rest =>
      match heap !! addr with
      | None => (Fail DanglingReference, ob)
      | Some a =>
          match apply_animation a with
          | Done kfs => apply_animations heap rest (add_keyframes kfs ob)
          | Fail e => (Fail e, ob)
          end
      end
  end.

Definition clear_root_parent (info : DatablockInfo) : result DatablockInfo :=
  match parent_info info with
  | None => Fail AttributeError
  | Some p =>
      if decide (parent p = "INTER_ROOT")
      then Done (mkDatablockInfo (datablock_type info) (name info) None)
      else Done info
  end.

(** The body of the loop of [finalize_intermediate_blocks]. *)
Definition finalize_block (b : ImpCommandBuilder) (blk : IntermediateDatablock)
    (sc : Scene) : result unit * Scene :=
  match clear_root_parent (datablock_info blk) with
  | Fail e => (Fail e, sc)
  | Done db_info =>
      let made :=
        match datablock_type db_info with
        | EMPTY => Done (mkObject db_info None None [], [])
        | MESH =>
            build_mesh (mkDatablock db_info (start_idx blk) (count blk)
                          (animations_to_apply blk)) (vt_table b)
        end in
      match made with
      | Fail e => (Fail e, sc)
      | Done (ob, msgs) =>
          let '(r, ob') := apply_animations (anim_heap b) (animations_to_apply blk) ob in
          (r, mkScene (objects sc ++ [ob']) (log sc ++ msgs) (frame_current sc))
      end
  end.

Fixpoint finalize_loop (b : ImpCommandBuilder) (blks : list IntermediateDatablock)
    (sc : Scene) : result unit * Scene :=
  match blks with
  | [] => (Done tt, sc)
  | blk :: rest =>
      match finalize_block b blk sc with
      | (Done _, sc') => finalize_loop b rest sc'
      | (Fail e, sc') => (Fail e, sc')
      end
  end.

(** [ImpCommandBuilder.finalize_intermediate_blocks]: the returned set, or
    the exception that escapes, with the scene as the host then holds it. *)
Definition finalize_intermediate_blocks (b : ImpCommandBuilder)
    : result (gset string) * Scene :=
  match finalize_loop b (drop 1 (_blocks b)) (mkScene [] [] None) with
  | (Done _, sc) => (Done {["FINISHED"]}, mkScene (objects sc) (log sc) (Some 1))
  | (Fail e, sc) => (Fail e, sc)
  end.

End Model.

(** * Vocabulary of the statements

    The predicates, measures and closed forms the theorems below are stated
    with. *)

Section Vocabulary.
Context `{Host}.

Implicit Types (b : ImpCommandBuilder) (a : IntermediateAnimation).
Implicit Types (blk : IntermediateDatablock) (stream body : list call).

(** ** Directives *)

(** The names [build_cmd] compares [directive] with. *)
Definition known_directives : list string :=
  ["VT"; "IDX"; "IDX10"; "TRIS"; "ANIM_begin"; "ANIM_end"; "ANIM_trans_begin";
   "ANIM_trans_key"; "ANIM_trans_end"; "ANIM_hide"; "ANIM_show";
   "ANIM_rotate_begin"; "ANIM_rotate_key"; "ANIM_rotate_end";
   "ANIM_keyframe_loop"; "ANIM_trans"; "ANIM_rotate"].

(** ** Keyframes *)

(** What the loop of [apply_animation] asks of sample [i]: a location, if
    there are locations at all, and a degree value on every axis. *)
Definition location_at a (i : nat) : option Vector :=
  match locations a with [] => None | _ => locations a !! i end.

(** The sum, over the axes of the rotation map in their order, of the axis
    scaled by its [i]-th degree value. *)
Definition rotation_sum (rots : list (Vector * list num)) (i : nat) : Vector :=
  foldl (λ tot p, vadd tot (vscale p.1 (default num_zero (p.2 !! i)))) vzero rots.

Definition rotation_at a (i : nat) : option Vector :=
  match rotations a with [] => None | _ => Some (rotation_sum (rotations a) i) end.

Definition transform_keyframe a (i : nat) (value : num) : KeyframeInfo :=
  mkKeyframeInfo (S i) (path (xp_dataref a)) (Some value) None None
    (anim_type (xp_dataref a)) (location_at a i) (rotation_at a i).

(** A populated list is too short for [n] samples. *)
Definition short_of a (n : nat) : Prop :=
  (locations a ≠ [] ∧ length (locations a) < n)
  ∨ Exists (λ p, length p.2 < n) (rotations a).

#[global] Instance short_of_dec a n : Decision (short_of a n).
Proof. unfold short_of. apply _. Defined.

(** ** The builder after [begin_new_frame] *)

(** The name [begin_new_frame] and the TRIS branch record as the parent. *)
Definition parent_name_of b : result string :=
  match _top_intermediate_datablock b with
  | None => Done "INTER_ROOT"
  | Some i =>
      match _blocks b !! i with
      | Some blk => Done (name (datablock_info blk))
      | None => Fail DanglingReference
      end
  end.

Definition new_empty b (parent_name : string) (anims : list nat) :=
  mkDatablock (mkDatablockInfo EMPTY (_next_empty_name b)
                 (Some (mkParentInfo parent_name))) None None anims.

(** The builder once [begin_new_frame] has appended its node, allocated its
    animation and pushed its context. *)
Definition pushed b (parent_name : string) (anims : list nat) (counts : list nat) :=
  mkBuilder (root_collection b) (vt_table b)
    (_blocks b ++ [new_empty b parent_name anims]) (_last_axis b)
    (mkEntry (length (anim_heap b)) (length (_blocks b)) :: _anim_intermediate_stack b)
    counts (anim_heap b ++ [new_animation]).

(** ** Relations and exceptions of a computation *)

(** [m] maintains the relation [R] between the builder it receives and the
    builder it leaves, however it ends. *)
Definition preserves (R : relation ImpCommandBuilder) {A} (m : M A) : Prop :=
  ∀ b, R b (m b).2.

(** The directives whose branch calls [begin_new_frame]. *)
Definition frame_directives : list string :=
  ["ANIM_trans_begin"; "ANIM_hide"; "ANIM_show"; "ANIM_rotate_begin";
   "ANIM_trans"; "ANIM_rotate"].

(** A property of the builder, read as the relation "if it held before, it
    holds after". *)
Definition keeps (P : ImpCommandBuilder → Prop) : relation ImpCommandBuilder :=
  λ b b', P b → P b'.

(** The exceptions of a call on a known directive: a missing open count or
    context ([IndexError], [AttributeError]), arguments that break the
    contract, or a reference that dangles (which [wf_builder] rules out). *)
Definition stream_error (e : exn) : Prop :=
  e = IndexError ∨ e = AttributeError ∨ e = BadArguments ∨ e = DanglingReference.

Definition raises_only (P : exn → Prop) {A} (m : M A) : Prop :=
  ∀ b e, (m b).1 = Fail e → P e.

(** ** Invariants of the builder *)

(** Every address held by the stack or by a node lies in the store, and
    every node position held by the stack lies in the node list. *)
Definition wf_builder b : Prop :=
  Forall (λ e, animation e < length (anim_heap b)
               ∧ intermediate_datablock e < length (_blocks b))
         (_anim_intermediate_stack b)
  ∧ Forall (λ blk, Forall (λ addr, addr < length (anim_heap b))
                          (animations_to_apply blk))
           (_blocks b).

Definition node_ok blk : Prop :=
  length (animations_to_apply blk) ≤ 1
  ∧ (datablock_type (datablock_info blk) = MESH → animations_to_apply blk = []).

(** The root sentinel sits unchanged at position 0, and no node carries
    more than one animation, a mesh none. *)
Definition single_animation b : Prop :=
  _blocks b !! 0 = Some root_intermediate_datablock
  ∧ Forall node_ok (_blocks b).

(** ** Brackets *)

(** The open counts, the context stack and the size of the animation store
    are as before. *)
Definition same_frames : relation ImpCommandBuilder := λ b b',
  _anim_count b' = _anim_count b
  ∧ _anim_intermediate_stack b' = _anim_intermediate_stack b
  ∧ length (anim_heap b') = length (anim_heap b).

(** One context was pushed, one animation allocated, and the innermost open
    count went up by one. *)
Definition opened b b' : Prop :=
  ∃ c cs e,
    _anim_count b = c :: cs
    ∧ _anim_count b' = S c :: cs
    ∧ _anim_intermediate_stack b' = e :: _anim_intermediate_stack b
    ∧ length (anim_heap b') = S (length (anim_heap b)).

Definition is_begin (c : call) : bool := bool_decide (call_directive c = "ANIM_begin").
Definition is_end (c : call) : bool := bool_decide (call_directive c = "ANIM_end").

(** The call reaches a branch that invokes [begin_new_frame]. *)
Definition opens_frame (c : call) : bool :=
  bool_decide (call_directive c ∈ frame_directives).

(** The bracket depth after [body], entered at [depth]; [None] when an
    [ANIM_end] closes a bracket that [body] did not open. *)
Fixpoint nesting (depth : nat) body : option nat :=
  match body with
  | [] => Some depth
  | c :: rest =>
      if is_begin c then nesting (S depth) rest
      else if is_end c then
        match depth with 0 => None | S d => nesting d rest end
      else nesting depth rest
  end.

(** The calls of [body] that invoke [begin_new_frame]: all of them, and
    those outside every bracket that [body] itself opens. *)
Definition frames_opened body : nat := length (filter (λ c, opens_frame c) body).

Fixpoint frames_owned (depth : nat) body : nat :=
  match body with
  | [] => 0
  | c :: rest =>
      if is_begin c then frames_owned (S depth) rest
      else if is_end c then frames_owned (pred depth) rest
      else (if opens_frame c && bool_decide (depth = 0) then 1 else 0)
           + frames_owned depth rest
  end.

(** The builder after a [begin_new_frame] that returned, with [a] as the
    present content of the animation it allocated. *)
Definition framed b (parent_name : string) (c : nat) (cs : list nat) a :=
  mkBuilder (root_collection b) (vt_table b)
    (_blocks b ++ [new_empty b parent_name [length (anim_heap b)]]) (_last_axis b)
    (mkEntry (length (anim_heap b)) (length (_blocks b)) :: _anim_intermediate_stack b)
    (S c :: cs) (anim_heap b ++ [a]).

(** ** Rotation keys *)

Definition rotate_key (axis : Vector) a (k : num * num) : IntermediateAnimation :=
  update_dataref (with_values (λ vs, vs ++ [k.1]))
    (update_rotations (rotations_append axis k.2) a).

Definition rotate_key_calls (keys : list (num * num)) : list call :=
  (λ k, mkCall "ANIM_rotate_key" [PFloat k.1; PFloat k.2] "") <$> keys.

(** ** Mesh compaction *)

(** The indices of a slice in the order in which they are first seen. *)
Fixpoint first_seen (l : list Z) : list Z :=
  match l with
  | [] => []
  | x :: rest => x :: filter (λ y, y ≠ x) (first_seen rest)
  end.

Definition extend (u l : list Z) : list Z :=
  u ++ filter (λ i, i ∉ u) (first_seen l).

(** The dictionary [idx_mapping] once the indices [u] have been seen. *)
Definition index_map (u : list Z) : gmap Z nat :=
  list_to_map (zip u (seq 0 (length u))).

(** [i] is an offset that Python accepts for a sequence of [n] items. *)
Definition valid_index (n : nat) (i : Z) : Prop :=
  (- Z.of_nat n ≤ i < Z.of_nat n)%Z.

(** [vs] are the table's vertices at the offsets [u], one by one. *)
Definition vertices_at (tb : VTTable) (vs : list VT) (u : list Z) : Prop :=
  Forall2 (λ v i, py_index (vertices tb) i = Done v) vs u.

Definition invalid_mesh_message : string :=
  "Mesh was not valid, check console for more".

Definition coords_of (v : VT) : num * num * num := (vt_x v, vt_y v, vt_z v).

(** ** Finalization *)

(** What [build_cmd] guarantees about the nodes after the root sentinel: a
    parent is recorded, and a mesh has its slice. *)
Definition node_shape blk : Prop :=
  is_Some (parent_info (datablock_info blk))
  ∧ (datablock_type (datablock_info blk) = MESH →
     is_Some (start_idx blk) ∧ is_Some (count blk)).

Definition blocks_shaped (bs : list IntermediateDatablock) : Prop :=
  ∃ root rest, bs = root :: rest ∧ Forall node_shape rest.

Definition nodes_shaped b : Prop := blocks_shaped (_blocks b).

(** The index slices of the mesh nodes refer to vertices of the table, and
    no transform animation has a populated list that is too short. *)
Definition finalizable b : Prop :=
  Forall (λ blk, ∀ start cnt,
            start_idx blk = Some start → count blk = Some cnt →
            Forall (valid_index (length (vertices (vt_table b))))
                   (py_slice (idxes (vt_table b)) start (start + cnt)))
         (_blocks b)
  ∧ Forall (λ a, anim_type (xp_dataref a) = ANIM_TYPE_TRANSFORM →
                 ¬ short_of a (length (values (xp_dataref a))))
           (anim_heap b).

Definition show_call (v1 v2 : num) (pth : string) : call :=
  mkCall "ANIM_show" [PFloat v1; PFloat v2; PStr pth] "".
Definition hide_call (v1 v2 : num) (pth : string) : call :=
  mkCall "ANIM_hide" [PFloat v1; PFloat v2; PStr pth] "".
Definition begin_call : call := mkCall "ANIM_begin" [] "".
Definition end_call : call := mkCall "ANIM_end" [] "".
Definition trans_begin_call (pth : string) : call :=
  mkCall "ANIM_trans_begin" [PStr pth] "".
Definition trans_key_call (value : num) (location : Vector) : call :=
  mkCall "ANIM_trans_key" [PFloat value; PVec location] "".
Definition trans_end_call : call := mkCall "ANIM_trans_end" [] "".

(** * Further vocabulary

    What the properties of the second part are stated with. *)
(** ** Geometry directives *)

Definition idx_call (i : Z) : call := mkCall "IDX" [PInt i] "".

(** The directives whose branch touches the vertex and index table. *)
Definition table_directives : list string := ["VT"; "IDX"; "IDX10"].

(** The table of [b'] is the table of [b] with entries added at the end. *)
Definition table_grows : relation ImpCommandBuilder := λ b b',
  vertices (vt_table b) `prefix_of` vertices (vt_table b')
  ∧ idxes (vt_table b) `prefix_of` idxes (vt_table b').

(** The node list of [b'] is the node list of [b] with nodes added at the
    end. *)
Definition nodes_grow : relation ImpCommandBuilder := λ b b',
  _blocks b `prefix_of` _blocks b'.

(** ** Node names *)

Definition node_name blk : string := name (datablock_info blk).
Definition node_kind blk : datablock_kind := datablock_type (datablock_info blk).

(** The names of the nodes of one kind, in list order. *)
Definition names_of_kind (k : datablock_kind) (bs : list IntermediateDatablock)
    : list string :=
  node_name <$> filter (λ blk, datablock_type (datablock_info blk) = k) bs.

(** The names [_next_empty_name] and [_next_object_name] hand out when [k]
    nodes of the kind are in the list. *)
Definition empty_name (stem : string) (k : nat) : string :=
  "ImpEmpty." +:+ pad3 k +:+ "_" +:+ hash_tag stem.
Definition mesh_name (stem : string) (k : nat) : string :=
  "ImpMesh." +:+ pad3 k +:+ "_" +:+ hash_tag stem.

(** The root collection is [stem], and the nodes of each kind carry the
    names handed out for their kind, in order. *)
Definition numbered (stem : string) b : Prop :=
  root_collection b = stem
  ∧ names_of_kind EMPTY (_blocks b)
    = "INTER_ROOT" :: (empty_name stem <$> seq 1 (count_kind EMPTY (_blocks b) - 1)).

Definition meshes_numbered (stem : string) b : Prop :=
  root_collection b = stem
  ∧ names_of_kind MESH (_blocks b)
    = mesh_name stem <$> seq 0 (count_kind MESH (_blocks b)).

(** ** The hierarchy *)

(** The node [blk] at position [i] names as its parent an empty-kind node
    that stands earlier in the list. *)
Definition parent_resolves (bs : list IntermediateDatablock) (i : nat) blk : Prop :=
  ∃ p j pblk,
    parent_info (datablock_info blk) = Some p
    ∧ j < i ∧ bs !! j = Some pblk
    ∧ name (datablock_info pblk) = parent p
    ∧ datablock_type (datablock_info pblk) = EMPTY.

(** The contexts of the stack refer to empty-kind nodes. *)
Definition contexts_on_empties (bs : list IntermediateDatablock)
    (st : list _AnimIntermediateStackEntry) : Prop :=
  Forall (λ e, ∃ pblk, bs !! intermediate_datablock e = Some pblk
                       ∧ datablock_type (datablock_info pblk) = EMPTY) st.

Definition rooted b : Prop :=
  _blocks b !! 0 = Some root_intermediate_datablock
  ∧ contexts_on_empties (_blocks b) (_anim_intermediate_stack b)
  ∧ ∀ i blk, _blocks b !! i = Some blk → 0 < i → parent_resolves (_blocks b) i blk.

(** ** What the directives do to an animation *)

(** The dataref [ANIM_trans_begin] and [ANIM_rotate_begin] install. *)
Definition fresh_dataref (pth : string) : IntermediateDataref :=
  mkDataref ANIM_TYPE_TRANSFORM num_zero pth num_zero num_zero [].

(** The effect of one [ANIM_trans_key] on the open animation. *)
Definition trans_key a (k : num * Vector) : IntermediateAnimation :=
  update_dataref (with_values (λ vs, vs ++ [k.1]))
    (update_locations (λ ls, ls ++ [k.2]) a).

(** The degree values recorded over all axes. *)
Definition degrees_recorded a : nat :=
  sum_list_with (λ p, length p.2) (rotations a).

(** One driver value per recorded location or degree, and no axis without
    a degree. *)
Definition one_value_per_key a : Prop :=
  length (values (xp_dataref a)) = length (locations a) + degrees_recorded a
  ∧ Forall (λ p, p.2 ≠ []) (rotations a).

(** Keys of both families, or degree values on more than one axis. *)
Definition mixed_keys a : Prop :=
  (locations a ≠ [] ∧ rotations a ≠ []) ∨ 2 ≤ length (rotations a).

#[global] Instance mixed_keys_dec a : Decision (mixed_keys a).
Proof. unfold mixed_keys. apply _. Defined.

#[global] Instance valid_index_dec n i : Decision (valid_index n i).
Proof. unfold valid_index. apply _. Defined.

(** ** Calls as the importer issues them *)

(** One call of [build_cmd]. *)
Definition run (c : call) : M unit :=
  build_cmd (call_directive c) (call_args c) (call_name_hint c).

(** The calls, with arguments as the docstring asks, of the six directives
    whose branch calls [begin_new_frame]. *)
Inductive FrameCall :=
  | CallTransBegin (pth : string)
  | CallHide (v1 v2 : num) (pth : string)
  | CallShow (v1 v2 : num) (pth : string)
  | CallRotateBegin (axis : Vector) (pth : string)
  | CallTrans (xyz1 xyz2 : Vector) (v1 v2 : num) (pth : string)
  | CallRotate (dxyz : Vector) (r1 r2 v1 v2 : num) (pth : string).

Definition frame_call (f : FrameCall) : call :=
  match f with
  | CallTransBegin pth => mkCall "ANIM_trans_begin" [PStr pth] ""
  | CallHide v1 v2 pth => mkCall "ANIM_hide" [PFloat v1; PFloat v2; PStr pth] ""
  | CallShow v1 v2 pth => mkCall "ANIM_show" [PFloat v1; PFloat v2; PStr pth] ""
  | CallRotateBegin axis pth => mkCall "ANIM_rotate_begin" [PVec axis; PStr pth] ""
  | CallTrans xyz1 xyz2 v1 v2 pth =>
      mkCall "ANIM_trans" [PVec xyz1; PVec xyz2; PFloat v1; PFloat v2; PStr pth] ""
  | CallRotate dxyz r1 r2 v1 v2 pth =>
      mkCall "ANIM_rotate"
        [PVec dxyz; PFloat r1; PFloat r2; PFloat v1; PFloat v2; PStr pth] ""
  end.

(** The animation such a call leaves on top of the context stack. *)
Definition frame_animation (f : FrameCall) : IntermediateAnimation :=
  match f with
  | CallTransBegin pth | CallRotateBegin _ pth =>
      mkAnimation [] [] (fresh_dataref pth)
  | CallHide v1 v2 pth => mkAnimation [] [] (mkDataref "hide" num_zero pth v1 v2 [])
  | CallShow v1 v2 pth => mkAnimation [] [] (mkDataref "show" num_zero pth v1 v2 [])
  | CallTrans xyz1 xyz2 v1 v2 pth =>
      mkAnimation [xyz1; xyz2] []
        (mkDataref ANIM_TYPE_TRANSFORM num_zero pth num_zero num_zero [v1; v2])
  | CallRotate dxyz r1 r2 v1 v2 pth =>
      mkAnimation [] [(dxyz, [r1; r2])]
        (mkDataref ANIM_TYPE_TRANSFORM num_zero pth num_zero num_zero [v1; v2])
  end.

(** The axis the builder remembers once the call has been made. *)
Definition axis_after (f : FrameCall) b : option Vector :=
  match f with
  | CallRotateBegin axis _ => Some (vabs axis)
  | _ => _last_axis b
  end.

(** The calls of the three directives that write to the open animation. *)
Inductive KeyCall :=
  | CallTransKey (value : num) (location : Vector)
  | CallRotateKey (value degrees : num)
  | CallKeyframeLoop (lp : num).

Definition key_call (k : KeyCall) : call :=
  match k with
  | CallTransKey value location =>
      mkCall "ANIM_trans_key" [PFloat value; PVec location] ""
  | CallRotateKey value degrees =>
      mkCall "ANIM_rotate_key" [PFloat value; PFloat degrees] ""
  | CallKeyframeLoop lp => mkCall "ANIM_keyframe_loop" [PFloat lp] ""
  end.

Definition key_directives : list string :=
  ["ANIM_trans_key"; "ANIM_rotate_key"; "ANIM_keyframe_loop"].

Definition trans_key_calls (keys : list (num * Vector)) : list call :=
  (λ k, trans_key_call k.1 k.2) <$> keys.

Definition rotate_end_call : call := mkCall "ANIM_rotate_end" [] "".

(** Everything but the animation on top of the context stack is as
    before. *)
Definition top_animation_only : relation ImpCommandBuilder := λ b b',
  root_collection b' = root_collection b ∧ vt_table b' = vt_table b
  ∧ _blocks b' = _blocks b ∧ _last_axis b' = _last_axis b
  ∧ _anim_intermediate_stack b' = _anim_intermediate_stack b
  ∧ _anim_count b' = _anim_count b
  ∧ length (anim_heap b') = length (anim_heap b)
  ∧ ∀ addr, _top_animation b ≠ Some addr → anim_heap b' !! addr = anim_heap b !! addr.

(** ** Tracks *)

(** The keyframe a translation key, and a rotation key on one axis, end up
    as, at position [i] of their track. *)
Definition trans_keyframe (pth : string) (i : nat) (k : num * Vector) : KeyframeInfo :=
  mkKeyframeInfo (S i) pth (Some k.1) None None ANIM_TYPE_TRANSFORM (Some k.2) None.

Definition rotate_keyframe (pth : string) (axis : Vector) (i : nat) (k : num * num)
    : KeyframeInfo :=
  mkKeyframeInfo (S i) pth (Some k.1) None None ANIM_TYPE_TRANSFORM None
    (Some (vadd vzero (vscale axis k.2))).

(** The contexts on the stack are as many as the open counts add up to. *)
Definition contexts_counted b : Prop :=
  length (_anim_intermediate_stack b) = sum_list (_anim_count b).

(** ** Objects *)

(** The object the finalizer makes of a node: the node's info with a parent
    "INTER_ROOT" cleared, one keyframe list per pending animation, in
    order, and data and material by kind. *)
Definition made_from (heap : list IntermediateAnimation) blk (ob : BlObject) : Prop :=
  clear_root_parent (datablock_info blk) = Done (ob_info ob)
  ∧ Forall2 (λ addr kfs, ∃ a, heap !! addr = Some a ∧ apply_animation a = Done kfs)
            (animations_to_apply blk) (ob_keyframes ob)
  ∧ match datablock_type (datablock_info blk) with
    | EMPTY => ob_data ob = None ∧ ob_material ob = None
    | MESH => is_Some (ob_data ob) ∧ ob_material ob = Some "Material"
    end.

(** Every mesh-kind node has a slice of offsets into the vertex list. *)
Definition slices_valid b : Prop :=
  ∀ blk start cnt,
    blk ∈ _blocks b → datablock_type (datablock_info blk) = MESH →
    start_idx blk = Some start → count blk = Some cnt →
    Forall (valid_index (length (vertices (vt_table b))))
           (py_slice (idxes (vt_table b)) start (start + cnt)).

(** What [finalize_intermediate_blocks] needs of one node. *)
Definition node_finalizable b blk : Prop :=
  (datablock_type (datablock_info blk) = MESH →
   ∀ start cnt, start_idx blk = Some start → count blk = Some cnt →
     Forall (valid_index (length (vertices (vt_table b))))
            (py_slice (idxes (vt_table b)) start (start + cnt)))
  ∧ ∀ addr a,
      addr ∈ animations_to_apply blk → anim_heap b !! addr = Some a →
      anim_type (xp_dataref a) = ANIM_TYPE_TRANSFORM → ¬ mixed_keys a.

(** No pending transform animation has keys of both families or degree
    values on two axes. *)
Definition tracks_unmixed b : Prop :=
  ∀ blk addr a,
    blk ∈ _blocks b → addr ∈ animations_to_apply blk → anim_heap b !! addr = Some a →
    anim_type (xp_dataref a) = ANIM_TYPE_TRANSFORM → ¬ mixed_keys a.

End Vocabulary.

(** * Sample data

    Integers stand in for the floats of the directive arguments. Two hosts
    are used: one whose validation never finds fault, and one that reports
    every mesh with a degenerate face (an index repeated within a face) as
    invalid. *)

Definition ZScalar : Scalar :=
  {| num := Z; num_zero := 0%Z; num_add := Z.add; num_mul := Z.mul;
     num_abs := Z.abs |}.

Definition lenient_host : @Host ZScalar :=
  {| hash_tag := λ _, "beef"; mesh_validate := λ _ _, false |}.

Definition strict_host : @Host ZScalar :=
  {| hash_tag := λ _, "beef";
     mesh_validate := λ _ fs, bool_decide (Exists (λ f, ¬ NoDup f) fs) |}.

Section Samples.
#[local] Existing Instance ZScalar.
#[local] Existing Instance strict_host.

Definition plain_call (directive : string) (args : list pyval) : call :=
  mkCall directive args "".

Definition vec (x y z : Z) : Vector := mkVector x y z.

(** A bracket whose body holds a nested bracket. *)
Definition nested_body : list call :=
  [plain_call "ANIM_trans_begin" [PStr "sim/a"];
   plain_call "ANIM_begin" [];
   plain_call "ANIM_trans_begin" [PStr "sim/b"];
   plain_call "ANIM_end" [];
   plain_call "ANIM_trans_begin" [PStr "sim/c"]].

Definition after_nested_body : ImpCommandBuilder :=
  (build_cmds (plain_call "ANIM_begin" [] :: nested_body) (new_builder "obj")).2.

(** One translation track with three keys, inside a bracket. *)
Definition trans_stream : list call :=
  [plain_call "ANIM_begin" [];
   plain_call "ANIM_trans_begin" [PStr "sim/y"];
   plain_call "ANIM_trans_key" [PFloat 0%Z; PVec (vec 0 0 0)];
   plain_call "ANIM_trans_key" [PFloat 5%Z; PVec (vec 0 0 1)];
   plain_call "ANIM_trans_key" [PFloat 9%Z; PVec (vec 0 0 2)];
   plain_call "ANIM_trans_end" [];
   plain_call "ANIM_end" []].

Definition trans_animation : IntermediateAnimation :=
  mkAnimation [vec 0 0 0; vec 0 0 1; vec 0 0 2] []
    (mkDataref "transform" 0%Z "sim/y" 0%Z 0%Z [0; 5; 9]%Z).

(** A rotation track that also receives a translation key: accepted by
    [build_cmd], and both lists hold one entry against two driver values. *)
Definition mixed_stream : list call :=
  [plain_call "ANIM_begin" [];
   plain_call "ANIM_rotate_begin" [PVec (vec 0 1 0); PStr "sim/r"];
   plain_call "ANIM_trans_key" [PFloat 0%Z; PVec (vec 0 0 1)];
   plain_call "ANIM_rotate_key" [PFloat 1%Z; PFloat 90%Z]].

Definition mixed_animation : IntermediateAnimation :=
  mkAnimation [vec 0 0 1] [(vec 0 1 0, [90%Z])]
    (mkDataref "transform" 0%Z "sim/r" 0%Z 0%Z [0; 1]%Z).

(** A complete rotation track, closed by [ANIM_rotate_end] and [ANIM_end],
    with a translation key between its two rotation keys: three driver
    values against one location and two degree values. *)
Definition stray_key_stream : list call :=
  [plain_call "ANIM_begin" [];
   plain_call "ANIM_rotate_begin" [PVec (vec 0 1 0); PStr "sim/door"];
   plain_call "ANIM_rotate_key" [PFloat 0%Z; PFloat 0%Z];
   plain_call "ANIM_trans_key" [PFloat 1%Z; PVec (vec 0 0 1)];
   plain_call "ANIM_rotate_key" [PFloat 2%Z; PFloat 90%Z];
   plain_call "ANIM_rotate_end" [];
   plain_call "ANIM_end" []].

Definition stray_key_animation : IntermediateAnimation :=
  mkAnimation [vec 0 0 1] [(vec 0 1 0, [0; 90]%Z)]
    (mkDataref "transform" 0%Z "sim/door" 0%Z 0%Z [0; 1; 2]%Z).

Definition vt_n (n : Z) : VT :=
  mkVT n (2 * n)%Z (3 * n)%Z 0%Z 0%Z 1%Z n (n + 1)%Z.

(** Eight distinct vertices and the index run 2, 2, 5, 2, 5, 7. *)
Definition sample_table : VTTable :=
  mkVTTable (vt_n <$> [0; 1; 2; 3; 4; 5; 6; 7]%Z) [2; 2; 5; 2; 5; 7]%Z.

Definition sample_mesh_node : IntermediateDatablock :=
  mkDatablock (mkDatablockInfo MESH "ImpMesh.000_beef" None) (Some 0%Z) (Some 6%Z) [].

Definition vt_call (n : Z) : call :=
  plain_call "VT" [PFloat n; PFloat (2 * n)%Z; PFloat (3 * n)%Z; PFloat 0%Z;
                   PFloat 0%Z; PFloat 1%Z; PFloat n; PFloat (n + 1)%Z].

Definition mesh_stream : list call :=
  (vt_call <$> [0; 1; 2; 3; 4; 5; 6; 7]%Z)
  ++ [plain_call "IDX10" (PInt <$> [2; 2; 5; 2; 5; 7]%Z);
      plain_call "TRIS" [PInt 0%Z; PInt 6%Z]].

Definition show_animation : IntermediateAnimation :=
  mkAnimation [] [] (mkDataref "show" 0%Z "sim/x" 0%Z 1%Z []).

Definition open_bracket : ImpCommandBuilder :=
  (build_cmds [begin_call] (new_builder "obj")).2.

(** A bracket with one open translation frame. *)
Definition open_frame : ImpCommandBuilder :=
  (build_cmds [begin_call; trans_begin_call "sim/y"] (new_builder "obj")).2.

(** Geometry, then a mesh under the root, a frame with a mesh in it, a
    nested bracket with a rotation frame and its mesh. *)
Definition hierarchy_stream : list call :=
  mesh_stream
  ++ [plain_call "ANIM_begin" [];
      plain_call "ANIM_trans_begin" [PStr "sim/a"];
      plain_call "ANIM_trans_key" [PFloat 0%Z; PVec (vec 0 0 0)];
      plain_call "ANIM_trans_key" [PFloat 1%Z; PVec (vec 0 0 4)];
      plain_call "ANIM_trans_end" [];
      plain_call "TRIS" [PInt 0%Z; PInt 3%Z];
      plain_call "ANIM_begin" [];
      plain_call "ANIM_rotate_begin" [PVec (vec 0 (-1) 0); PStr "sim/r"];
      plain_call "ANIM_rotate_key" [PFloat 0%Z; PFloat 0%Z];
      plain_call "ANIM_rotate_key" [PFloat 1%Z; PFloat 90%Z];
      plain_call "ANIM_rotate_end" [];
      plain_call "TRIS" [PInt 3%Z; PInt 3%Z];
      plain_call "ANIM_end" [];
      plain_call "ANIM_end" []].

Definition hierarchy : ImpCommandBuilder :=
  (build_cmds hierarchy_stream (new_builder "obj")).2.

(** A slice of five indices: one triangle and two indices left over. *)
Definition ragged_mesh_node : IntermediateDatablock :=
  mkDatablock (mkDatablockInfo MESH "ImpMesh.000_beef" None) (Some 0%Z) (Some 5%Z) [].

(** A slice that starts beyond the end of the index list. *)
Definition far_mesh_node : IntermediateDatablock :=
  mkDatablock (mkDatablockInfo MESH "ImpMesh.000_beef" None) (Some 9%Z) (Some 3%Z) [].

(** A slice that refers to a vertex the table does not hold. *)
Definition short_table : VTTable :=
  mkVTTable (vt_n <$> [0; 1; 2]%Z) [0; 1; 5]%Z.

Definition three_mesh_node : IntermediateDatablock :=
  mkDatablock (mkDatablockInfo MESH "ImpMesh.000_beef" None) (Some 0%Z) (Some 3%Z) [].

End Samples.

(** * Properties *)

Section Properties.
Context `{Host}.

Implicit Types (b : ImpCommandBuilder) (a : IntermediateAnimation).
Implicit Types (blk : IntermediateDatablock) (stream body : list call).

(** Running the monad by unfolding its combinators. *)
Ltac unfold_M :=
  unfold mbind, M_bind, mret, M_ret, get, modify, raise in *.

(** ** Unsupported directives *)

(** C9. A directive whose name is none of the known ones makes [build_cmd]
    raise the assertion error "<directive> is not supported yet", whatever
    the arguments, and the builder (node list, vertex and index table,
    context stack, open counts, remembered axis, animation store) is exactly
    the one the call received. *)
Theorem build_cmd_unsupported directive args name_hint b :
  directive ∉ known_directives →
  build_cmd directive args name_hint b
  = (Fail (AssertionError (directive +:+ " is not supported yet")), b).
Proof.
  intros Hnot. unfold build_cmd.
  assert (Hin : ∀ P : Prop, directive ∈ known_directives → P) by done.
  unfold known_directives in Hin. repeat setoid_rewrite elem_of_cons in Hin.
  repeat match goal with
  | |- context [decide (directive = ?s)] =>
      destruct (decide (directive = s)) as [Hd|_]; [apply Hin; tauto |]
  | |- context [decide (directive ∈ ?l)] =>
      destruct (decide (directive ∈ l)) as [Hd|_];
        [rewrite !elem_of_cons in Hd; apply Hin; tauto |]
  end.
  done.
Qed.

(** ** Keyframe generation *)

Lemma nat_index_lt {A} (l : list A) i :
  i < length l → ∃ x, l !! i = Some x ∧ nat_index l i = Done x.
Proof.
  intros Hi. destruct (lookup_lt_is_Some_2 l i Hi) as [x Hx].
  exists x. unfold nat_index. by rewrite Hx.
Qed.

Lemma nat_index_ge {A} (l : list A) i :
  length l ≤ i → nat_index l i = Fail IndexError.
Proof. intros Hi. unfold nat_index. by rewrite lookup_ge_None_2. Qed.

Lemma nat_index_error {A} (l : list A) i e : nat_index l i = Fail e → e = IndexError.
Proof. unfold nat_index. destruct (l !! i); congruence. Qed.

Lemma recompose_from_done rots i tot :
  Forall (λ p, i < length p.2) rots →
  recompose_from tot rots i
  = Done (foldl (λ t p, vadd t (vscale p.1 (default num_zero (p.2 !! i)))) tot rots).
Proof.
  intros Hall. revert tot.
  induction Hall as [|[axis degrees] rest Hhd _ IH]; intros tot; [done|].
  simpl in *. destruct (nat_index_lt degrees i Hhd) as (d & Hd & ->).
  simpl. rewrite Hd. apply IH.
Qed.

Lemma recompose_from_fail rots i tot :
  Exists (λ p, length p.2 ≤ i) rots →
  recompose_from tot rots i = Fail IndexError.
Proof.
  intros Hex. revert tot.
  induction Hex as [[axis degrees] rest Hhd|[axis degrees] rest _ IH]; intros tot; simpl in *.
  - by rewrite nat_index_ge.
  - destruct (nat_index degrees i) eqn:En; simpl; [apply IH | ].
    apply nat_index_error in En. by subst.
Qed.

(** The loop succeeds when no populated list runs out, and then builds the
    keyframes of the samples in order. *)
Lemma transform_keyframes_done a vals k :
  ¬ short_of a (k + length vals) →
  transform_keyframes a k (S k) vals
  = Done (imap (λ j, transform_keyframe a (k + j)) vals).
Proof.
  revert k. induction vals as [|value rest IH]; intros k Hlong; [done|].
  simpl in Hlong. cbn [transform_keyframes].
  assert (Hloc : match locations a with
                 | [] => Done None
                 | _ => Some <$> nat_index (locations a) k
                 end = Done (location_at a k)).
  { unfold location_at. destruct (locations a) as [|l ls] eqn:El; [done|].
    rewrite <- El in *.
    destruct (nat_index_lt (locations a) k) as (x & Hx & ->).
    - destruct (decide (k < length (locations a))); [done|].
      exfalso. apply Hlong. left. split; [by rewrite El | lia].
    - by rewrite Hx. }
  assert (Hrot : match rotations a with
                 | [] => Done None
                 | _ => Some <$> recompose_rotation a k
                 end = Done (rotation_at a k)).
  { unfold rotation_at, recompose_rotation, rotation_sum.
    destruct (rotations a) as [|r rs] eqn:Er; [done|]. rewrite <- Er in *.
    rewrite recompose_from_done; [done|].
    apply Forall_forall. intros p Hp.
    destruct (decide (k < length p.2)); [done|].
    exfalso. apply Hlong. right. apply Exists_exists. exists p. split; [done | lia]. }
  rewrite Hloc, Hrot. simpl.
  rewrite IH.
  - simpl. f_equal. f_equal.
    + unfold transform_keyframe. by rewrite Nat.add_0_r.
    + apply imap_ext. intros j x _. simpl. f_equal. lia.
  - intros Hs. apply Hlong. by replace (k + S (length rest)) with (S k + length rest) by lia.
Qed.

(** It raises [IndexError], and nothing else, as soon as one runs out. *)
Lemma transform_keyframes_fail a vals k f :
  short_of a (k + length vals) → ¬ short_of a k →
  transform_keyframes a k f vals = Fail IndexError.
Proof.
  revert k f. induction vals as [|value rest IH]; intros k f Hshort Hk.
  { simpl in Hshort. by rewrite Nat.add_0_r in Hshort. }
  cbn [transform_keyframes].
  destruct (decide (short_of a (S k))) as [Hs|Hs].
  - (* sample [k] itself is missing somewhere *)
    destruct Hs as [[Hne Hlen]|Hex].
    + destruct (locations a) as [|l ls] eqn:El; [done|]. rewrite <- El in *.
      rewrite nat_index_ge; [done | lia].
    + destruct (match locations a with
                | [] => Done None
                | _ => Some <$> nat_index (locations a) k
                end) as [loc|e] eqn:Eloc.
      * simpl. destruct (rotations a) as [|r rs] eqn:Er; [by inversion Hex|].
        rewrite <- Er in *. unfold recompose_rotation.
        rewrite recompose_from_fail; [done|].
        eapply Exists_impl; [exact Hex|]. simpl. intros; lia.
      * simpl. destruct (locations a); [done|].
        destruct (nat_index _ k) eqn:En; [done|].
        simpl in Eloc. apply nat_index_error in En. congruence.
  - assert (Hdone := transform_keyframes_done a [value] k).
    simpl in Hdone. rewrite Nat.add_1_r in Hdone. specialize (Hdone Hs).
    destruct (match locations a with
              | [] => Done None
              | _ => Some <$> nat_index (locations a) k
              end) as [loc|e]; [|done].
    simpl in *.
    destruct (match rotations a with
              | [] => Done None
              | _ => Some <$> recompose_rotation a k
              end) as [rot|e]; [|done].
    simpl. rewrite IH; [done | | done].
    by replace (S k + length rest) with (k + S (length rest)) by lia.
Qed.

Lemma short_of_0 a : ¬ short_of a 0.
Proof.
  intros [[_ ?]|Hex]; [lia|].
  apply Exists_exists in Hex as (p & _ & ?). lia.
Qed.

Lemma not_short_of a n :
  (locations a = [] ∨ n ≤ length (locations a)) →
  Forall (λ p, n ≤ length p.2) (rotations a) →
  ¬ short_of a n.
Proof.
  intros Hloc Hrot [[Hne Hlt]|Hex].
  - destruct Hloc; [done | lia].
  - apply Exists_exists in Hex as (p & Hp & Hlt).
    rewrite Forall_forall in Hrot. specialize (Hrot p Hp). lia.
Qed.

(** C2. A transform-kind animation whose dataref holds [N] driver values,
    and whose populated lists hold an entry for each of these samples (the
    locations, when there are any, and the degree list of every axis of the
    rotation map), makes [apply_animation] hand over exactly [N] keyframes,
    with sample indices 1, 2, ..., [N] in this order. The keyframe of
    sample [i] carries the [i]-th driver value, the [i]-th location when the
    locations list is non-empty (no location otherwise), and, when the
    rotation map is non-empty, the sum over its axes of the axis scaled by
    its [i]-th degree value (no rotation otherwise). In particular
    [ANIM_trans_begin], three [ANIM_trans_key] calls and [ANIM_trans_end]
    inside an [ANIM_begin]/[ANIM_end] pair, followed by finalization, yield
    one object with exactly the three keyframes of indices 1, 2, 3, in that
    order, each with its value and location. When instead a populated list
    is shorter than the value sequence, [apply_animation] raises
    [IndexError] and hands over no keyframe at all. *)
Theorem transform_keyframes_per_sample :
  (∀ a (N : nat),
     anim_type (xp_dataref a) = ANIM_TYPE_TRANSFORM →
     length (values (xp_dataref a)) = N →
     (locations a = [] ∨ N ≤ length (locations a)) →
     Forall (λ p, N ≤ length p.2) (rotations a) →
     ∃ kfs,
       apply_animation a = Done kfs
       ∧ length kfs = N
       ∧ idx <$> kfs = seq 1 N
       ∧ ∀ i value, values (xp_dataref a) !! i = Some value →
           kfs !! i
           = Some (mkKeyframeInfo (S i) (path (xp_dataref a)) (Some value) None None
                     ANIM_TYPE_TRANSFORM
                     (match locations a with [] => None | _ => locations a !! i end)
                     (match rotations a with
                      | [] => None
                      | _ => Some (rotation_sum (rotations a) i)
                      end))
             ∧ (locations a ≠ [] → is_Some (locations a !! i))
             ∧ Forall (λ p, is_Some (p.2 !! i)) (rotations a))
  ∧ (∀ stem pth v1 v2 v3 l1 l2 l3,
       let run :=
         build_cmds [begin_call; trans_begin_call pth; trans_key_call v1 l1;
                     trans_key_call v2 l2; trans_key_call v3 l3;
                     trans_end_call; end_call] (new_builder stem) in
       run.1 = Done tt
       ∧ (finalize_intermediate_blocks run.2).1 = Done {["FINISHED"]}
       ∧ ∃ info,
           objects (finalize_intermediate_blocks run.2).2
           = [mkObject info None None
                [[mkKeyframeInfo 1 pth (Some v1) None None ANIM_TYPE_TRANSFORM
                    (Some l1) None;
                  mkKeyframeInfo 2 pth (Some v2) None None ANIM_TYPE_TRANSFORM
                    (Some l2) None;
                  mkKeyframeInfo 3 pth (Some v3) None None ANIM_TYPE_TRANSFORM
                    (Some l3) None]]])
  ∧ (∀ a,
       anim_type (xp_dataref a) = ANIM_TYPE_TRANSFORM →
       (locations a ≠ [] ∧ length (locations a) < length (values (xp_dataref a)))
       ∨ (∃ axis degrees, (axis, degrees) ∈ rotations a
                          ∧ length degrees < length (values (xp_dataref a))) →
       apply_animation a = Fail IndexError).
Proof.
  split.
  2: { split.
       - intros stem pth v1 v2 v3 l1 l2 l3 run.
         split; [vm_compute; reflexivity|]. split; [vm_compute; reflexivity|].
         eexists. vm_compute. reflexivity.
       - intros a Hkind Hshort.
         assert (Hs : short_of a (length (values (xp_dataref a)))).
         { destruct Hshort as [?|(axis & degrees & ? & ?)]; [by left|right].
           apply Exists_exists. by exists (axis, degrees). }
         unfold apply_animation. rewrite decide_True by done.
         by rewrite (transform_keyframes_fail a _ 0 1); [|done | apply short_of_0]. }
  intros a N Hkind HN Hloc Hrot.
  exists (imap (λ j, transform_keyframe a j) (values (xp_dataref a))).
  split; [|split; [|split]].
  - unfold apply_animation. rewrite decide_True by done.
    rewrite (transform_keyframes_done a _ 0); [done|].
    simpl. rewrite HN. by apply not_short_of.
  - by rewrite length_imap.
  - rewrite <- HN. generalize (values (xp_dataref a)) as vals.
    intros vals. unfold transform_keyframe.
    change (λ j value, mkKeyframeInfo (S j) (path (xp_dataref a)) (Some value) None None
              (anim_type (xp_dataref a)) (location_at a j) (rotation_at a j))
      with (λ j value, mkKeyframeInfo (S (0 + j)) (path (xp_dataref a)) (Some value) None None
              (anim_type (xp_dataref a)) (location_at a (0 + j)) (rotation_at a (0 + j))).
    generalize 0 as k. induction vals as [|v vs IH]; intros k; [done|].
    simpl. rewrite Nat.add_0_r. f_equal.
    rewrite <- (IH (S k)). f_equal. apply imap_ext. intros j x _. simpl.
    by replace (k + S j) with (S (k + j)) by lia.
  - intros i value Hi.
    assert (i < N) by (rewrite <- HN; by eapply lookup_lt_Some).
    split; [|split].
    + rewrite list_lookup_imap, Hi. simpl.
      unfold transform_keyframe, location_at, rotation_at. by rewrite Hkind.
    + intros Hne. apply lookup_lt_is_Some_2. destruct Hloc; [done | lia].
    + eapply Forall_impl; [exact Hrot|]. simpl. intros p Hp.
      apply lookup_lt_is_Some_2. lia.
Qed.

(** ** The builder's primitives in closed form *)

Lemma pop_frames_eq n b :
  pop_frames n b
  = if decide (n ≤ length (_anim_intermediate_stack b))
    then (Done tt, set_stack (drop n) b)
    else (Fail IndexError, set_stack (λ _, []) b).
Proof.
  revert b. induction n as [|n IH]; intros b.
  - destruct b. rewrite decide_True by (simpl; lia). done.
  - destruct b as [rc vt bs la st cs hp]. cbn [pop_frames]. unfold_M.
    destruct st as [|e st]; cbn [_anim_intermediate_stack].
    + destruct (decide (S n ≤ length [])) as [Hle|_]; [simpl in Hle; lia | done].
    + rewrite IH. unfold set_stack. cbn [_anim_intermediate_stack length].
      destruct (decide (n ≤ length st)), (decide (S n ≤ S (length st)));
        (done || lia).
Qed.

Lemma begin_new_frame_eq b :
  begin_new_frame b
  = match parent_name_of b with
    | Fail e => (Fail e, b)
    | Done pn =>
        match _anim_count b with
        | [] => (Fail IndexError, pushed b pn [] [])
        | c :: cs => (Done tt, pushed b pn [length (anim_heap b)] (S c :: cs))
        end
    end.
Proof.
  destruct b as [rc vt bs la st cs hp].
  unfold begin_new_frame, parent_name_of, block_name, pushed,
    _top_intermediate_datablock, _top_animation.
  unfold_M. simpl.
  destruct st as [|e st]; simpl.
  - destruct cs as [|c cs]; simpl; [done|].
    unfold set_blocks. simpl. do 2 f_equal.
    replace (length bs) with (length bs + 0) at 1 by lia.
    by rewrite alter_app_r.
  - destruct (bs !! intermediate_datablock e) as [blk|]; simpl; [|done].
    destruct cs as [|c cs]; simpl; [done|].
    unfold set_blocks. simpl. do 2 f_equal.
    replace (length bs) with (length bs + 0) at 1 by lia.
    by rewrite alter_app_r.
Qed.

(** An update through [_top_animation] touches the store only, at the
    address on top of the stack. *)
Lemma update_top_animation_eq f b :
  update_top_animation f b
  = match _anim_intermediate_stack b with
    | [] => (Fail AttributeError, b)
    | e :: _ =>
        match anim_heap b !! animation e with
        | Some a => (Done tt, set_heap (λ h, <[animation e := f a]> h) b)
        | None => (Fail DanglingReference, b)
        end
    end.
Proof.
  unfold update_top_animation, _top_animation.
  by destruct (_anim_intermediate_stack b).
Qed.

(** ** Relations that every step of a computation maintains *)

Section Preserves.
Variable R : relation ImpCommandBuilder.
Context `{!PreOrder R}.

Lemma preserves_ret {A} (x : A) : preserves R (mret x).
Proof. intros b. reflexivity. Qed.

Lemma preserves_raise {A} e : preserves R (raise e : M A).
Proof. intros b. reflexivity. Qed.

Lemma preserves_get : preserves R get.
Proof. intros b. reflexivity. Qed.

Lemma preserves_modify f : (∀ b, R b (f b)) → preserves R (modify f).
Proof. intros Hf b. apply Hf. Qed.

Lemma preserves_bind {A B} (m : M A) (f : A → M B) :
  preserves R m → (∀ x, preserves R (f x)) → preserves R (m ≫= f).
Proof.
  intros Hm Hf b. unfold mbind, M_bind.
  specialize (Hm b). destruct (m b) as [[x|e] b1]; simpl in *; [|done].
  etrans; [exact Hm | apply Hf].
Qed.

Lemma preserves_pop_frames n :
  (∀ b g, R b (set_stack (λ st, drop (g st) st) b)) → preserves R (pop_frames n).
Proof.
  intros Hdrop b. rewrite pop_frames_eq. case_decide; simpl.
  - apply (Hdrop b (λ _, n)).
  - replace (set_stack (λ _, []) b)
      with (set_stack (λ st, drop (length st) st) b); [apply (Hdrop b length)|].
    unfold set_stack. by rewrite drop_all.
Qed.

Lemma preserves_update_top_animation f :
  (∀ b addr g, addr < length (anim_heap b) →
     R b (set_heap (λ h, <[addr := g]> h) b)) →
  preserves R (update_top_animation f).
Proof.
  intros Hset b. rewrite update_top_animation_eq.
  destruct (_anim_intermediate_stack b) as [|e st]; [reflexivity|].
  destruct (anim_heap b !! animation e) as [a|] eqn:Ea; [|reflexivity].
  simpl. apply Hset. by eapply lookup_lt_Some.
Qed.

Lemma preserves_top_animation_object : preserves R top_animation_object.
Proof.
  intros b. unfold top_animation_object.
  destruct (_top_animation b); [|reflexivity].
  destruct (anim_heap b !! _); reflexivity.
Qed.

Lemma preserves_block_name i : preserves R (block_name i).
Proof. intros b. unfold block_name. destruct (_blocks b !! i); reflexivity. Qed.

Lemma preserves_begin_new_frame :
  (∀ b pn, parent_name_of b = Done pn → _anim_count b = [] →
     R b (pushed b pn [] [])) →
  (∀ b pn c cs, parent_name_of b = Done pn → _anim_count b = c :: cs →
     R b (pushed b pn [length (anim_heap b)] (S c :: cs))) →
  preserves R begin_new_frame.
Proof.
  intros Hfail Hdone b. rewrite begin_new_frame_eq.
  destruct (parent_name_of b) as [pn|e] eqn:Epn; [|reflexivity].
  destruct (_anim_count b) as [|c cs] eqn:Ec; simpl; eauto.
Qed.

Ltac preserves_step :=
  lazymatch goal with
  | |- preserves _ begin_new_frame => fail
  | |- preserves _ (pop_frames _) => fail
  | |- preserves _ (modify _) => fail
  | |- preserves _ (match ?x with _ => _ end) => destruct x
  | |- preserves _ (_ ≫= _) => apply preserves_bind; [|intros ?]
  | |- _ =>
      first
        [ apply preserves_ret | apply preserves_raise | apply preserves_get
        | apply preserves_top_animation_object | apply preserves_block_name
        | apply preserves_update_top_animation; assumption ]
  end.

(** A relation that each elementary mutation of a branch maintains is
    maintained by the whole call, however it ends. *)
Lemma preserves_build_cmd directive args name_hint :
  (∀ b f, R b (set_vt_table f b)) →
  (∀ b ax, R b (set_last_axis ax b)) →
  (∀ b addr g, addr < length (anim_heap b) →
     R b (set_heap (λ h, <[addr := g]> h) b)) →
  (directive = "TRIS" → ∀ b nm pn start cnt,
     R b (set_blocks (λ bs, bs ++
            [mkDatablock (mkDatablockInfo MESH nm (Some (mkParentInfo pn)))
               (Some start) (Some cnt) []]) b)) →
  (directive = "ANIM_begin" → ∀ b, R b (set_anim_count (λ cs, 0 :: cs) b)) →
  (directive = "ANIM_end" →
     (∀ b cs, R b (set_anim_count (λ _, cs) b))
     ∧ (∀ b g, R b (set_stack (λ st, drop (g st) st) b))) →
  (directive ∈ frame_directives → preserves R begin_new_frame) →
  preserves R (build_cmd directive args name_hint).
Proof.
  intros Hvt Haxis Hheap Htris Hbegin Hend Hframe.
  assert (Hin : ∀ d, directive = d → d ∈ frame_directives → preserves R begin_new_frame).
  { intros d <-. exact Hframe. }
  unfold build_cmd.
  repeat match goal with
  | |- context [decide (directive = ?s)] =>
      destruct (decide (directive = s))
  | |- context [decide (directive ∈ ?l)] =>
      destruct (decide (directive ∈ l))
  end.
  all: unfold on_VT, on_IDX, on_IDX10, on_TRIS, on_ANIM_begin, on_ANIM_end,
    on_ANIM_trans_begin, on_ANIM_trans_key, on_ANIM_hide_show,
    on_ANIM_rotate_begin, on_ANIM_rotate_key, on_ANIM_rotate_end,
    on_ANIM_keyframe_loop, on_ANIM_trans, on_ANIM_rotate.
  all: repeat preserves_step.
  all: try (apply preserves_modify; intros;
            first [apply Hvt | apply Haxis | by apply Htris | by apply Hbegin
                  | by apply Hend]).
  all: try (apply preserves_pop_frames; by apply Hend).
  all: try (eapply Hin; [done|]; unfold frame_directives;
            rewrite !elem_of_cons; tauto).
  all: apply Hframe; unfold frame_directives;
    match goal with Hd : _ ∈ [_; _] |- _ => rewrite !elem_of_cons in Hd end;
    rewrite !elem_of_cons; tauto.
Qed.

End Preserves.

Lemma preserves_build_cmds (R : relation ImpCommandBuilder) `{!PreOrder R} stream :
  (∀ c, c ∈ stream →
     preserves R (build_cmd (call_directive c) (call_args c) (call_name_hint c))) →
  preserves R (build_cmds stream).
Proof.
  induction stream as [|c rest IH]; intros Hall; simpl.
  - by apply preserves_ret.
  - apply preserves_bind; [done | apply Hall; left | intros _; apply IH].
    intros c' Hc'. apply Hall. by right.
Qed.

#[local] Instance keeps_preorder P : PreOrder (keeps P).
Proof. split; unfold keeps; [intros b; tauto | intros b1 b2 b3; tauto]. Qed.

(** ** What a call can raise *)

Lemma raises_only_ret P {A} (x : A) : raises_only P (mret x).
Proof. by intros b e. Qed.

Lemma raises_only_get P : raises_only P get.
Proof. by intros b e. Qed.

Lemma raises_only_modify P f : raises_only P (modify f).
Proof. by intros b e. Qed.

Lemma raises_only_raise (P : exn → Prop) {A} e : P e → raises_only P (raise e : M A).
Proof. by intros He b e' [= <-]. Qed.

Lemma raises_only_bind P {A B} (m : M A) (f : A → M B) :
  raises_only P m → (∀ x, raises_only P (f x)) → raises_only P (m ≫= f).
Proof.
  intros Hm Hf b e. unfold mbind, M_bind.
  specialize (Hm b). destruct (m b) as [[x|e'] b1]; simpl in *.
  - apply Hf.
  - intros [= <-]. by apply Hm.
Qed.

Lemma raises_only_block_name i : raises_only stream_error (block_name i).
Proof.
  intros b e. unfold block_name, stream_error.
  destruct (_blocks b !! i); simpl; [done | intros [= <-]; tauto].
Qed.

Lemma raises_only_top_animation_object : raises_only stream_error top_animation_object.
Proof.
  intros b e. unfold top_animation_object, stream_error.
  destruct (_top_animation b); simpl; [|intros [= <-]; tauto].
  destruct (anim_heap b !! _); simpl; [done | intros [= <-]; tauto].
Qed.

Lemma raises_only_update_top_animation f :
  raises_only stream_error (update_top_animation f).
Proof.
  intros b e. rewrite update_top_animation_eq. unfold stream_error.
  destruct (_anim_intermediate_stack b); simpl; [intros [= <-]; tauto|].
  destruct (anim_heap b !! _); simpl; [done | intros [= <-]; tauto].
Qed.

Lemma raises_only_pop_frames n : raises_only stream_error (pop_frames n).
Proof.
  intros b e. rewrite pop_frames_eq. unfold stream_error.
  case_decide; simpl; [done | intros [= <-]; tauto].
Qed.

Lemma raises_only_begin_new_frame : raises_only stream_error begin_new_frame.
Proof.
  intros b e. rewrite begin_new_frame_eq. unfold stream_error, parent_name_of.
  destruct (_top_intermediate_datablock b) as [i|]; simpl.
  - destruct (_blocks b !! i); simpl; [|intros [= <-]; tauto].
    destruct (_anim_count b); simpl; [intros [= <-]; tauto | done].
  - destruct (_anim_count b); simpl; [intros [= <-]; tauto | done].
Qed.

Lemma args_ints_error args e : args_ints args = Fail e → e = BadArguments.
Proof.
  unfold args_ints. revert e.
  induction args as [|arg rest IH]; intros e; [done|].
  cbn [mapM]. destruct arg; simpl; try congruence.
  destruct (mapM _ rest) as [ixs|e']; simpl; [done|].
  intros [= <-]. by apply IH.
Qed.

Ltac raises_only_step :=
  lazymatch goal with
  | |- raises_only _ begin_new_frame => apply raises_only_begin_new_frame
  | |- raises_only _ (pop_frames _) => apply raises_only_pop_frames
  | |- raises_only _ (modify _) => apply raises_only_modify
  | |- raises_only _ (match args_ints ?a with _ => _ end) =>
      let E := fresh in
      destruct (args_ints a) as [?|?] eqn:E;
        [|apply args_ints_error in E; subst]
  | |- raises_only _ (match ?x with _ => _ end) => destruct x
  | |- raises_only _ (_ ≫= _) => apply raises_only_bind; [|intros ?]
  | |- _ =>
      first
        [ apply raises_only_ret | apply raises_only_get
        | apply raises_only_top_animation_object | apply raises_only_block_name
        | apply raises_only_update_top_animation
        | apply raises_only_raise; unfold stream_error; tauto ]
  end.

(** A known directive never ends in the assertion of the last branch. *)
Lemma build_cmd_known directive args name_hint :
  directive ∈ known_directives →
  raises_only stream_error (build_cmd directive args name_hint).
Proof.
  intros Hknown. unfold build_cmd.
  repeat match goal with
  | |- context [decide (directive = ?s)] =>
      destruct (decide (directive = s))
  | |- context [decide (directive ∈ ?l)] =>
      destruct (decide (directive ∈ l))
  end.
  all: unfold on_VT, on_IDX, on_IDX10, on_TRIS, on_ANIM_begin, on_ANIM_end,
    on_ANIM_trans_begin, on_ANIM_trans_key, on_ANIM_hide_show,
    on_ANIM_rotate_begin, on_ANIM_rotate_key, on_ANIM_rotate_end,
    on_ANIM_keyframe_loop, on_ANIM_trans, on_ANIM_rotate.
  all: repeat raises_only_step.
  exfalso. unfold known_directives in Hknown.
  rewrite !elem_of_cons, elem_of_nil in Hknown.
  match goal with Hn : ¬ (_ ∈ [_; _]) |- _ => rewrite !not_elem_of_cons in Hn end.
  intuition congruence.
Qed.

(** ** No reference dangles *)

Lemma wf_new_builder stem : wf_builder (new_builder stem).
Proof. split; simpl; repeat constructor. Qed.

Lemma wf_pushed b pn anims counts :
  wf_builder b →
  Forall (λ addr, addr < S (length (anim_heap b))) anims →
  wf_builder (pushed b pn anims counts).
Proof.
  intros [Hst Hbl] Hanims. split; simpl.
  - rewrite !length_app. simpl. constructor; [simpl; lia|].
    eapply Forall_impl; [exact Hst|]. simpl. lia.
  - rewrite length_app. simpl. apply Forall_app. split.
    + eapply Forall_impl; [exact Hbl|]. simpl. intros blk Hblk.
      eapply Forall_impl; [exact Hblk|]. simpl. lia.
    + repeat constructor. simpl.
      eapply Forall_impl; [exact Hanims|]. simpl. lia.
Qed.

Lemma build_cmd_keeps_wf directive args name_hint :
  preserves (keeps wf_builder) (build_cmd directive args name_hint).
Proof.
  apply preserves_build_cmd; try apply _; unfold keeps.
  - by intros [] f.
  - by intros [] ax.
  - intros [] addr g Hlt [Hst Hbl]. split; simpl in *.
    + by rewrite length_insert.
    + eapply Forall_impl; [exact Hbl|]. simpl. intros blk Hblk.
      by rewrite length_insert.
  - intros _ [] nm pn start cnt [Hst Hbl]. split; simpl in *.
    + rewrite length_app. simpl.
      eapply Forall_impl; [exact Hst|]. simpl. lia.
    + apply Forall_app. split; [done | repeat constructor].
  - by intros _ [].
  - intros _. split; [by intros [] | ].
    intros [rc vt bs la st cs hp] g [Hst Hbl]. split; simpl in *; [|done].
    rewrite <- (take_drop (g st)) in Hst.
    by apply Forall_app in Hst as [_ ?].
  - intros _. apply preserves_begin_new_frame; [apply _ | |]; unfold keeps.
    + intros b pn _ _ Hwf. apply wf_pushed; [done | constructor].
    + intros b pn c cs _ _ Hwf. apply wf_pushed; [done | repeat constructor].
Qed.

(** The builder of any directive stream is free of dangling references,
    also when the stream ends in an exception. *)
Lemma build_cmds_wf stem stream :
  wf_builder (build_cmds stream (new_builder stem)).2.
Proof.
  apply (preserves_build_cmds (keeps wf_builder)); [|apply wf_new_builder].
  intros c _. apply build_cmd_keeps_wf.
Qed.

(** ** At most one pending animation per node *)

Lemma single_animation_new stem : single_animation (new_builder stem).
Proof. split; [done|]. repeat constructor; simpl; lia. Qed.

Lemma single_animation_append (bs : list IntermediateDatablock) blk :
  node_ok blk →
  bs !! 0 = Some root_intermediate_datablock ∧ Forall node_ok bs →
  (bs ++ [blk]) !! 0 = Some root_intermediate_datablock
  ∧ Forall node_ok (bs ++ [blk]).
Proof.
  intros Hblk [Hroot Hall]. split.
  - by apply lookup_app_l_Some.
  - apply Forall_app. split; [done | by constructor].
Qed.

Lemma build_cmd_keeps_single directive args name_hint :
  preserves (keeps single_animation) (build_cmd directive args name_hint).
Proof.
  apply preserves_build_cmd; try apply _; unfold keeps, single_animation.
  - by intros [] f.
  - by intros [] ax.
  - by intros [] addr g _.
  - intros _ [] nm pn start cnt Hinv. simpl in *.
    apply single_animation_append; [|done]. split; simpl; [lia | done].
  - by intros _ [].
  - intros _. split; by intros [].
  - intros _. apply preserves_begin_new_frame; [apply _ | |]; unfold keeps.
    + intros b pn _ _ Hinv. simpl.
      apply single_animation_append; [|done]. split; simpl; [lia | done].
    + intros b pn c cs _ _ Hinv. simpl.
      apply single_animation_append; [|done]. split; simpl; [lia | done].
Qed.

(** C10. Whatever directives have been processed, and also when the last one
    raised, every node of the flat list carries at most one pending
    animation, a mesh-kind node carries none, and the root sentinel at
    position 0 is untouched (it carries none). A call of [begin_new_frame]
    that returns has appended one empty-kind node whose pending animations
    are exactly the one fresh animation now on top of the context stack; and
    it does return whenever an [ANIM_begin] bracket is open. *)
Theorem one_pending_animation_per_node :
  (∀ stem stream,
     let b := (build_cmds stream (new_builder stem)).2 in
     _blocks b !! 0 = Some root_intermediate_datablock
     ∧ ∀ blk, blk ∈ _blocks b →
         length (animations_to_apply blk) ≤ 1
         ∧ (datablock_type (datablock_info blk) = MESH →
            animations_to_apply blk = []))
  ∧ (∀ b b', begin_new_frame b = (Done tt, b') →
       ∃ empt addr,
         _blocks b' = _blocks b ++ [empt]
         ∧ datablock_type (datablock_info empt) = EMPTY
         ∧ animations_to_apply empt = [addr]
         ∧ _top_animation b' = Some addr
         ∧ anim_heap b = take addr (anim_heap b')
         ∧ anim_heap b' !! addr = Some new_animation)
  ∧ (∀ b, wf_builder b → _anim_count b ≠ [] → (begin_new_frame b).1 = Done tt).
Proof.
  split; [|split].
  - intros stem stream b.
    assert (Hb : single_animation b).
    { apply (preserves_build_cmds (keeps single_animation));
        [|apply single_animation_new].
      intros c _. apply build_cmd_keeps_single. }
    destruct Hb as [Hroot Hall]. split; [done|].
    intros blk Hblk. rewrite Forall_forall in Hall. by apply Hall.
  - intros b b'. rewrite begin_new_frame_eq.
    destruct (parent_name_of b) as [pn|]; [|done].
    destruct (_anim_count b) as [|c cs]; [done|].
    intros [= <-]. eexists _, _. simpl.
    repeat split; try done.
    + by rewrite take_app_length.
    + by rewrite lookup_app_r, Nat.sub_diag.
  - intros b [Hst _] Hopen. rewrite begin_new_frame_eq.
    assert (∃ pn, parent_name_of b = Done pn) as [pn ->].
    { unfold parent_name_of, _top_intermediate_datablock.
      destruct Hst as [|e st [_ He] _]; simpl; [by eexists|].
      destruct (lookup_lt_is_Some_2 _ _ He) as [blk ->]. by eexists. }
    by destruct (_anim_count b).
Qed.

(** ** Brackets and the context stack *)

#[local] Instance same_frames_preorder : PreOrder same_frames.
Proof.
  split.
  - by intros b.
  - intros b1 b2 b3 (? & ? & ?) (? & ? & ?). unfold same_frames.
    repeat split; congruence.
Qed.

Lemma plain_same_frames directive args name_hint :
  directive ≠ "ANIM_begin" → directive ≠ "ANIM_end" →
  directive ∉ frame_directives →
  preserves same_frames (build_cmd directive args name_hint).
Proof.
  intros Hb He Hf. apply preserves_build_cmd; try apply _; try done.
  intros [] addr g _. unfold same_frames. simpl. by rewrite length_insert.
Qed.

Lemma update_same_frames f : preserves same_frames (update_top_animation f).
Proof.
  apply preserves_update_top_animation; [apply _|].
  intros [] addr g _. unfold same_frames. simpl. by rewrite length_insert.
Qed.

Lemma frame_then (post : M unit) b b' :
  preserves same_frames post →
  (begin_new_frame ≫= λ _, post) b = (Done tt, b') →
  opened b b'.
Proof.
  intros Hpost. unfold mbind, M_bind. rewrite begin_new_frame_eq.
  destruct (parent_name_of b) as [pn|]; [|done].
  destruct (_anim_count b) as [|c cs] eqn:Ec; [done|].
  intros Hrun. specialize (Hpost (pushed b pn [length (anim_heap b)] (S c :: cs))).
  rewrite Hrun in Hpost. destruct Hpost as (Hc & Hs & Hh). simpl in *.
  exists c, cs, (mkEntry (length (anim_heap b)) (length (_blocks b))).
  rewrite Hh, length_app. simpl. repeat split; [done.. | lia].
Qed.

Ltac bad_args H :=
  repeat (case_match; try (by inversion H)).

Lemma opener_opened directive args name_hint b b' :
  directive ∈ frame_directives →
  build_cmd directive args name_hint b = (Done tt, b') →
  opened b b'.
Proof.
  unfold frame_directives. rewrite !elem_of_cons, elem_of_nil.
  intros [->|[->|[->|[->|[->|[->|[]]]]]]] Hrun.
  - change (on_ANIM_trans_begin args b = (Done tt, b')) in Hrun.
    unfold on_ANIM_trans_begin in Hrun. bad_args Hrun.
    eapply frame_then; [|exact Hrun]. apply update_same_frames.
  - change (on_ANIM_hide_show "ANIM_hide" args b = (Done tt, b')) in Hrun.
    unfold on_ANIM_hide_show in Hrun. bad_args Hrun.
    eapply frame_then; [|exact Hrun].
    repeat (apply preserves_bind; [apply _ | | intros _]); apply update_same_frames.
  - change (on_ANIM_hide_show "ANIM_show" args b = (Done tt, b')) in Hrun.
    unfold on_ANIM_hide_show in Hrun. bad_args Hrun.
    eapply frame_then; [|exact Hrun].
    repeat (apply preserves_bind; [apply _ | | intros _]); apply update_same_frames.
  - change (on_ANIM_rotate_begin args b = (Done tt, b')) in Hrun.
    unfold on_ANIM_rotate_begin in Hrun. bad_args Hrun. subst.
    match type of Hrun with
    | (modify ?f ≫= λ _, ?m) b = _ => change (m (f b) = (Done tt, b')) in Hrun
    end.
    eapply frame_then in Hrun; [|apply update_same_frames].
    by destruct b.
  - change (on_ANIM_trans args b = (Done tt, b')) in Hrun.
    unfold on_ANIM_trans in Hrun. bad_args Hrun.
    eapply frame_then; [|exact Hrun].
    repeat (apply preserves_bind; [apply _ | | intros _]); apply update_same_frames.
  - change (on_ANIM_rotate args b = (Done tt, b')) in Hrun.
    unfold on_ANIM_rotate in Hrun. bad_args Hrun.
    eapply frame_then; [|exact Hrun].
    repeat (apply preserves_bind; [apply _ | | intros _]); apply update_same_frames.
Qed.

Lemma anim_begin_run args name_hint b :
  build_cmd "ANIM_begin" args name_hint b
  = (Done tt, set_anim_count (λ cs, 0 :: cs) b).
Proof. reflexivity. Qed.

Lemma anim_end_run args name_hint b :
  build_cmd "ANIM_end" args name_hint b
  = match _anim_count b with
    | [] => (Fail IndexError, b)
    | n :: cs =>
        if decide (n ≤ length (_anim_intermediate_stack b))
        then (Done tt, set_stack (drop n) (set_anim_count (λ _, cs) b))
        else (Fail IndexError, set_stack (λ _, []) (set_anim_count (λ _, cs) b))
    end.
Proof.
  change (build_cmd "ANIM_end" args name_hint b) with (on_ANIM_end b).
  unfold on_ANIM_end. unfold_M.
  destruct (_anim_count b) as [|n cs]; [done|]. simpl.
  rewrite pop_frames_eq. by destruct b.
Qed.

Lemma build_cmds_cons_done c rest b b' :
  build_cmds (c :: rest) b = (Done tt, b') →
  ∃ b1, build_cmd (call_directive c) (call_args c) (call_name_hint c) b = (Done tt, b1)
        ∧ build_cmds rest b1 = (Done tt, b').
Proof.
  simpl. unfold mbind, M_bind.
  destruct (build_cmd _ _ _ b) as [[[]|e] b1]; [|done]. by exists b1.
Qed.

(** [frames_opened] counts invocations: each call of [begin_new_frame]
    that a successful run makes allocates one animation, and nothing else
    allocates any. *)
Lemma frames_opened_allocations body : ∀ b b',
  build_cmds body b = (Done tt, b') →
  length (anim_heap b') = length (anim_heap b) + frames_opened body.
Proof.
  unfold frames_opened.
  induction body as [|c rest IH]; intros b b' Hrun.
  { injection Hrun as <-. simpl. lia. }
  apply build_cmds_cons_done in Hrun as (b1 & Hstep & Hrest).
  rewrite (IH _ _ Hrest), filter_cons.
  destruct (decide (opens_frame c)) as [Ho|Ho].
  - apply bool_decide_unpack in Ho.
    apply opener_opened in Hstep as (? & ? & ? & _ & _ & _ & ->); [|done].
    simpl. lia.
  - assert (call_directive c ∉ frame_directives) as Hn.
    { intros Hin. apply Ho. by apply bool_decide_pack. }
    clear Ho. rename Hn into Ho.
    destruct (decide (call_directive c = "ANIM_begin")) as [Eb|Eb].
    { rewrite Eb, anim_begin_run in Hstep. injection Hstep as <-. by destruct b. }
    destruct (decide (call_directive c = "ANIM_end")) as [Ee|Ee].
    { rewrite Ee, anim_end_run in Hstep.
      destruct (_anim_count b); [done|]. case_decide; [|done].
      injection Hstep as <-. by destruct b. }
    pose proof (plain_same_frames _ (call_args c) (call_name_hint c) Eb Ee Ho b)
      as (_ & _ & Hh).
    rewrite Hstep in Hh. simpl in Hh. lia.
Qed.

(** While [body] runs inside a bracket whose open count started at [c0]:
    [cs] are the open counts of the brackets nested in it, innermost first,
    and the contexts pushed since the bracket was opened are as many as
    these counts add up to. *)
Lemma run_body body : ∀ b b' depth depth' cs c0 base fr st0,
  nesting depth body = Some depth' →
  build_cmds body b = (Done tt, b') →
  _anim_count b = cs ++ c0 :: base → length cs = depth →
  _anim_intermediate_stack b = fr ++ st0 → length fr = c0 + sum_list cs →
  ∃ cs' fr',
    _anim_count b' = cs' ++ (c0 + frames_owned depth body) :: base
    ∧ length cs' = depth'
    ∧ _anim_intermediate_stack b' = fr' ++ st0
    ∧ length fr' = c0 + frames_owned depth body + sum_list cs'.
Proof.
  induction body as [|c rest IH];
    intros b b' depth depth' cs c0 base fr st0 Hnest Hrun Hcount Hdepth Hstack Hfr.
  { simpl in *. injection Hrun as <-. injection Hnest as <-.
    exists cs, fr. rewrite Nat.add_0_r. done. }
  apply build_cmds_cons_done in Hrun as (b1 & Hstep & Hrest).
  cbn [nesting frames_owned] in *.
  unfold is_begin, is_end, opens_frame in *.
  destruct (bool_decide (call_directive c = "ANIM_begin")) eqn:Eb.
  { (* ANIM_begin *)
    apply bool_decide_eq_true in Eb. rewrite Eb, anim_begin_run in Hstep.
    injection Hstep as <-.
    eapply (IH _ _ _ _ (0 :: cs)) in Hrest; [exact Hrest | exact Hnest | ..].
    - destruct b. simpl in *. by rewrite Hcount.
    - simpl. by rewrite Hdepth.
    - destruct b. exact Hstack.
    - simpl. lia. }
  destruct (bool_decide (call_directive c = "ANIM_end")) eqn:Ee.
  { (* ANIM_end *)
    apply bool_decide_eq_true in Ee. rewrite Ee, anim_end_run in Hstep.
    destruct depth as [|d]; [done|].
    destruct cs as [|n cs]; [done|]. simpl in Hdepth, Hfr.
    rewrite Hcount in Hstep. simpl in Hstep.
    destruct (decide (n ≤ _)) as [Hle|]; [|done].
    injection Hstep as <-.
    eapply (IH _ _ _ _ cs c0 base (drop n fr)) in Hrest;
      [exact Hrest | exact Hnest | ..].
    - by destruct b.
    - lia.
    - destruct b. simpl in *. rewrite Hstack, drop_app_le by lia. done.
    - rewrite length_drop. lia. }
  apply bool_decide_eq_false in Eb, Ee.
  destruct (bool_decide (call_directive c ∈ frame_directives)) eqn:Eo.
  - (* a directive that opens a frame *)
    apply bool_decide_eq_true in Eo.
    eapply opener_opened in Hstep as (n & ns & e & Hc & Hc1 & Hs1 & _); [|done].
    destruct cs as [|m cs]; simpl in *.
    + subst depth. rewrite Hcount in Hc. injection Hc as <- <-.
      eapply (IH _ _ _ _ [] (S c0) base (e :: fr)) in Hrest;
        [ | exact Hnest | exact Hc1 | done | by rewrite Hs1, Hstack | simpl; lia ].
      destruct Hrest as (cs' & fr' & ? & ? & ? & ?).
      exists cs', fr'. rewrite bool_decide_eq_true_2 by done. simpl.
      replace (c0 + S (frames_owned 0 rest)) with (S c0 + frames_owned 0 rest) by lia.
      done.
    + rewrite Hcount in Hc. injection Hc as <- <-.
      eapply (IH _ _ _ _ (S m :: cs) c0 base (e :: fr)) in Hrest;
        [ | exact Hnest | exact Hc1 | simpl; lia | by rewrite Hs1, Hstack
          | simpl; lia ].
      destruct Hrest as (cs' & fr' & ? & ? & ? & ?).
      exists cs', fr'. rewrite bool_decide_eq_false_2 by lia. done.
  - (* any other directive *)
    apply bool_decide_eq_false in Eo.
    pose proof (plain_same_frames _ (call_args c) (call_name_hint c) Eb Ee Eo b)
      as (Hc1 & Hs1 & _).
    rewrite Hstep in Hc1, Hs1. simpl in Hc1, Hs1.
    eapply (IH _ _ _ _ cs c0 base fr) in Hrest;
      [ exact Hrest | exact Hnest | congruence | done | congruence | done ].
Qed.

(** C1, as the code has it. Let a directive stream be processed without an
    exception up to the end of the body of an [ANIM_begin]/[ANIM_end] pair
    whose body is itself balanced. Then the matching [ANIM_end] succeeds;
    the value it pops is the number of [begin_new_frame] invocations made in
    the body outside the brackets nested in it (the invocations inside a
    nested bracket are counted by that bracket's own [ANIM_end]); and
    afterwards the context stack, hence its depth, and the open counts are
    those found immediately before the [ANIM_begin]. *)
Theorem bracket_balance b b1 body args_begin hint_begin args_end hint_end :
  nesting 0 body = Some 0 →
  build_cmds (mkCall "ANIM_begin" args_begin hint_begin :: body) b = (Done tt, b1) →
  ∃ b2,
    build_cmd "ANIM_end" args_end hint_end b1 = (Done tt, b2)
    ∧ _anim_count b1 = frames_owned 0 body :: _anim_count b
    ∧ _anim_count b2 = _anim_count b
    ∧ length (_anim_intermediate_stack b1)
      = frames_owned 0 body + length (_anim_intermediate_stack b)
    ∧ _anim_intermediate_stack b2 = _anim_intermediate_stack b
    ∧ length (_anim_intermediate_stack b2) = length (_anim_intermediate_stack b).
Proof.
  intros Hnest Hrun.
  apply build_cmds_cons_done in Hrun as (b0 & Hbegin & Hbody). simpl in Hbegin.
  rewrite anim_begin_run in Hbegin. injection Hbegin as <-.
  eapply (run_body body _ _ 0 0 [] 0 (_anim_count b) [] (_anim_intermediate_stack b))
    in Hbody; [ | exact Hnest | by destruct b | done | by destruct b | done ].
  destruct Hbody as (cs' & fr' & Hc & Hlen & Hs & Hfr).
  destruct cs'; [|done]. simpl in *. rewrite Nat.add_0_r in Hfr.
  rewrite anim_end_run, Hc, Hs, length_app.
  rewrite decide_True by lia.
  eexists. split; [done|]. destruct b1. simpl in *.
  subst. rewrite Hfr, drop_app_length' by done. done.
Qed.

(** When the body opens no bracket of its own, every invocation counts. *)
Lemma frames_owned_flat body :
  Forall (λ c, is_begin c = false ∧ is_end c = false) body →
  frames_owned 0 body = frames_opened body.
Proof.
  unfold frames_opened. induction 1 as [|c rest [Hb He] _ IH]; [done|].
  cbn [frames_owned]. rewrite Hb, He, filter_cons, IH.
  destruct (opens_frame c) eqn:Eo; simpl.
  - by destruct (decide (true)).
  - by destruct (decide (false)).
Qed.

(** ** Rotation axes *)

Lemma wf_parent_name b : wf_builder b → ∃ pn, parent_name_of b = Done pn.
Proof.
  intros [Hst _]. unfold parent_name_of, _top_intermediate_datablock.
  destruct Hst as [|e st [_ He] _]; simpl; [by eexists|].
  destruct (lookup_lt_is_Some_2 _ _ He) as [blk ->]. by eexists.
Qed.

Lemma begin_new_frame_done b pn c cs :
  parent_name_of b = Done pn → _anim_count b = c :: cs →
  begin_new_frame b = (Done tt, framed b pn c cs new_animation).
Proof. intros Hpn Hc. by rewrite begin_new_frame_eq, Hpn, Hc. Qed.

Lemma update_framed f b pn c cs a :
  update_top_animation f (framed b pn c cs a) = (Done tt, framed b pn c cs (f a)).
Proof.
  rewrite update_top_animation_eq. simpl.
  rewrite lookup_app_r, Nat.sub_diag by done. simpl.
  unfold set_heap, framed. simpl. do 2 f_equal.
  replace (length (anim_heap b)) with (length (anim_heap b) + 0) at 1 by lia.
  by rewrite insert_app_r.
Qed.

Lemma top_framed b pn c cs a :
  top_animation_object (framed b pn c cs a) = (Done a, framed b pn c cs a).
Proof.
  unfold top_animation_object, _top_animation. simpl.
  by rewrite lookup_app_r, Nat.sub_diag.
Qed.

Lemma rotate_keys_framed keys : ∀ b pn c cs a axis,
  _last_axis b = Some axis →
  build_cmds (rotate_key_calls keys) (framed b pn c cs a)
  = (Done tt, framed b pn c cs (foldl (rotate_key axis) a keys)).
Proof.
  induction keys as [|k keys IH]; intros b pn c cs a axis Hax; [done|].
  cbn [rotate_key_calls fmap list_fmap build_cmds call_directive call_args
       call_name_hint].
  change (build_cmd "ANIM_rotate_key" [PFloat k.1; PFloat k.2] "")
    with (on_ANIM_rotate_key [PFloat k.1; PFloat k.2]).
  unfold on_ANIM_rotate_key. unfold mbind at 1 2 3, M_bind at 1 2 3.
  rewrite top_framed. unfold get. cbn [_last_axis framed]. rewrite Hax.
  unfold mbind at 1, M_bind at 1. rewrite update_framed, update_framed.
  apply IH. done.
Qed.

Lemma rotate_keys_bucket axis keys : ∀ a ds,
  rotations a = [(axis, ds)] →
  rotations (foldl (rotate_key axis) a keys) = [(axis, ds ++ keys.*2)]
  ∧ values (xp_dataref (foldl (rotate_key axis) a keys))
    = values (xp_dataref a) ++ keys.*1
  ∧ locations (foldl (rotate_key axis) a keys) = locations a.
Proof.
  induction keys as [|k keys IH]; intros a ds Ha; simpl.
  - by rewrite !app_nil_r.
  - destruct (IH (rotate_key axis a k) (ds ++ [k.2])) as (-> & -> & ->).
    + simpl. rewrite Ha. simpl. by rewrite decide_True.
    + simpl. by rewrite <- !app_assoc.
Qed.

(** C7. Inside an open bracket, [ANIM_rotate_begin] remembers its axis with
    the absolute value taken component by component, and the degree samples
    of the [ANIM_rotate_key] calls that follow all land, in order, in the one
    bucket of the open animation keyed by that absolute-valued vector. The
    static [ANIM_rotate] puts its two degree samples in the bucket keyed by
    the axis exactly as given, signs included. *)
Theorem rotation_axis_buckets b :
  wf_builder b → _anim_count b ≠ [] →
  (∀ axis pth hint,
     ∃ b0,
       build_cmd "ANIM_rotate_begin" [PVec axis; PStr pth] hint b = (Done tt, b0)
       ∧ _last_axis b0 = Some (vabs axis)
       ∧ ∀ k keys,
           ∃ b' a,
             build_cmds (rotate_key_calls (k :: keys)) b0 = (Done tt, b')
             ∧ _last_axis b' = Some (vabs axis)
             ∧ top_animation_object b' = (Done a, b')
             ∧ rotations a = [(vabs axis, (k :: keys).*2)])
  ∧ (∀ dxyz r1 r2 v1 v2 pth hint,
       ∃ b' a,
         build_cmd "ANIM_rotate"
           [PVec dxyz; PFloat r1; PFloat r2; PFloat v1; PFloat v2; PStr pth] hint b
         = (Done tt, b')
         ∧ top_animation_object b' = (Done a, b')
         ∧ rotations a = [(dxyz, [r1; r2])]).
Proof.
  intros Hwf Hopen.
  destruct (wf_parent_name b Hwf) as [pn Hpn].
  destruct (_anim_count b) as [|c cs] eqn:Hc; [done|]. clear Hopen.
  split.
  - intros axis pth hint.
    change (build_cmd "ANIM_rotate_begin" [PVec axis; PStr pth] hint)
      with (on_ANIM_rotate_begin [PVec axis; PStr pth]).
    set (b1 := set_last_axis (Some (vabs axis)) b).
    assert (Hb1 : begin_new_frame b1 = (Done tt, framed b1 pn c cs new_animation)).
    { apply begin_new_frame_done; [exact Hpn | exact Hc]. }
    unfold on_ANIM_rotate_begin. unfold mbind, M_bind, modify. fold b1.
    rewrite Hb1, update_framed.
    eexists. split; [done|]. split; [done|].
    intros k keys. eexists _, _.
    rewrite (rotate_keys_framed _ _ _ _ _ _ (vabs axis)) by done.
    split; [done|]. split; [done|]. split; [apply top_framed|].
    cbn [foldl].
    match goal with
    | |- rotations (foldl _ ?a0 _) = _ =>
        destruct (rotate_keys_bucket (vabs axis) keys a0 [k.2]) as (-> & _); done
    end.
  - intros dxyz r1 r2 v1 v2 pth hint.
    change (build_cmd "ANIM_rotate"
              [PVec dxyz; PFloat r1; PFloat r2; PFloat v1; PFloat v2; PStr pth] hint)
      with (on_ANIM_rotate
              [PVec dxyz; PFloat r1; PFloat r2; PFloat v1; PFloat v2; PStr pth]).
    unfold on_ANIM_rotate. unfold mbind, M_bind.
    rewrite (begin_new_frame_done b pn c cs) by done.
    rewrite !update_framed.
    eexists _, _. split; [done|]. split; [apply top_framed|].
    simpl. by rewrite decide_True.
Qed.

(** ** Building a mesh *)

Lemma elem_of_first_seen l i : i ∈ first_seen l ↔ i ∈ l.
Proof.
  induction l as [|x rest IH]; [done|]. simpl.
  rewrite !elem_of_cons, list_elem_of_filter, IH.
  destruct (decide (i = x)); tauto.
Qed.

Lemma NoDup_first_seen l : NoDup (first_seen l).
Proof.
  induction l as [|x rest IH]; simpl; constructor.
  - rewrite list_elem_of_filter. by intros [? _].
  - by apply NoDup_filter.
Qed.

(** What is first seen in a prefix of the slice stays where it is when the
    rest of the slice is read. *)
Lemma first_seen_app l1 l2 :
  first_seen (l1 ++ l2) = first_seen l1 ++ filter (λ i, i ∉ l1) (first_seen l2).
Proof.
  induction l1 as [|x l1 IH]; simpl.
  - symmetry. rewrite (list_filter_iff _ (λ _, True)).
    + induction (first_seen l2) as [|y r IHr]; [done|].
      by rewrite filter_cons_True, IHr.
    + intros i. rewrite elem_of_nil. tauto.
  - f_equal. rewrite IH, filter_app, list_filter_filter. f_equal.
    apply list_filter_iff. intros i. rewrite not_elem_of_cons. tauto.
Qed.

Lemma extend_nil l : extend [] l = first_seen l.
Proof. exact (eq_sym (first_seen_app [] l)). Qed.

Lemma extend_seen u x rest : x ∈ u → extend u (x :: rest) = extend u rest.
Proof.
  intros Hx. unfold extend. simpl. f_equal.
  rewrite filter_cons_False by tauto.
  apply list_filter_filter_l. intros i Hi ->. done.
Qed.

Lemma extend_fresh u x rest : extend u (x :: rest) = extend (u ++ [x]) rest
                              ∨ x ∈ u.
Proof.
  destruct (decide (x ∈ u)) as [|Hx]; [by right | left].
  unfold extend. simpl. rewrite filter_cons_True by done.
  rewrite <- app_assoc. simpl. do 2 f_equal.
  rewrite list_filter_filter. apply list_filter_iff.
  intros i. rewrite not_elem_of_app, list_elem_of_singleton. tauto.
Qed.

Lemma NoDup_extend u l : NoDup u → NoDup (extend u l).
Proof.
  intros Hu. apply NoDup_app. split; [done|]. split.
  - intros i Hi. rewrite list_elem_of_filter. tauto.
  - apply NoDup_filter, NoDup_first_seen.
Qed.

Lemma index_map_fst (u : list Z) : (zip u (seq 0 (length u))).*1 = u.
Proof. apply fst_zip. by rewrite length_seq. Qed.

Lemma index_map_None u x : index_map u !! x = None ↔ x ∉ u.
Proof.
  unfold index_map. rewrite <- not_elem_of_list_to_map.
  by rewrite index_map_fst.
Qed.

Lemma index_map_size u : NoDup u → size (index_map u) = length u.
Proof.
  intros Hu. unfold index_map. rewrite map_size_list_to_map.
  - rewrite length_zip_with, length_seq. lia.
  - by rewrite index_map_fst.
Qed.

Lemma index_map_snoc u x :
  NoDup u → x ∉ u →
  <[x := size (index_map u)]> (index_map u) = index_map (u ++ [x]).
Proof.
  intros Hu Hx. rewrite index_map_size by done. unfold index_map.
  rewrite length_app. simpl. rewrite Nat.add_1_r, seq_S. simpl.
  rewrite zip_with_app by (by rewrite length_seq). simpl.
  rewrite list_to_map_snoc; [done|]. by rewrite index_map_fst.
Qed.

Lemma index_map_lookup u i k :
  NoDup u → index_map u !! i = Some k ↔ u !! k = Some i.
Proof.
  intros Hu. unfold index_map.
  rewrite <- elem_of_list_to_map by (by rewrite index_map_fst).
  rewrite elem_of_lookup_zip_with. split.
  - intros (j & x & y & [= -> ->] & Hx & Hy).
    apply lookup_seq in Hy as [-> _]. done.
  - intros Hk. exists k, i, k. split; [done|]. split; [done|].
    apply lookup_seq. split; [done|]. by eapply lookup_lt_Some.
Qed.

Lemma py_index_valid {A} (l : list A) i :
  valid_index (length l) i → ∃ x, py_index l i = Done x.
Proof.
  unfold valid_index, py_index. intros Hi.
  set (j := (if decide (i < 0)%Z then (i + Z.of_nat (length l))%Z else i)).
  assert (0 ≤ j < Z.of_nat (length l))%Z as Hj by (unfold j; case_decide; lia).
  rewrite decide_True by done.
  destruct (lookup_lt_is_Some_2 l (Z.to_nat j)) as [x ->]; [lia|]. by exists x.
Qed.

Lemma dedup_loop_extend tb l : ∀ u vs,
  NoDup u → vertices_at tb vs u →
  Forall (valid_index (length (vertices tb))) l →
  ∃ vs', dedup_loop tb (index_map u, vs) l = Done (index_map (extend u l), vs')
         ∧ vertices_at tb vs' (extend u l).
Proof.
  induction l as [|x rest IH]; intros u vs Hu Hvs Hvalid.
  { exists vs. unfold extend. simpl. by rewrite app_nil_r. }
  apply Forall_cons in Hvalid as [Hx Hrest].
  cbn [dedup_loop]. unfold dedup_step. cbn [fst snd].
  destruct (index_map u !! x) as [k|] eqn:Ek.
  - assert (x ∈ u).
    { destruct (decide (x ∈ u)) as [|Hn]; [done|].
      apply index_map_None in Hn. congruence. }
    rewrite extend_seen by done. by apply IH.
  - apply index_map_None in Ek.
    destruct (py_index_valid _ _ Hx) as [v Hv]. rewrite Hv. simpl.
    rewrite index_map_snoc by done.
    destruct (extend_fresh u x rest) as [->|]; [|done].
    apply IH; [ | | done].
    + apply NoDup_app. split; [done|]. split; [|apply NoDup_singleton].
      intros i Hi ->%list_elem_of_singleton. done.
    + apply Forall2_app; [done|]. by constructor.
Qed.

Lemma mapM_result {A B} (f : A → result B) l k :
  Forall2 (λ x y, f x = Done y) l k → mapM f l = Done k.
Proof.
  induction 1 as [|x y l k Hxy _ IH]; [done|].
  simpl. rewrite Hxy. simpl. by rewrite IH.
Qed.

Lemma remap_all uniq (ch : list Z) :
  NoDup uniq → (∀ i, i ∈ ch → i ∈ uniq) →
  ∃ ks, mapM (remap (index_map uniq)) ch = Done ks
        ∧ Forall2 (λ k i, uniq !! k = Some i) ks ch.
Proof.
  intros Hu. induction ch as [|i ch IH]; intros Hin.
  { by exists []. }
  destruct IH as (ks & Hks & Hall).
  { intros j Hj. apply Hin. by right. }
  destruct (proj1 (list_elem_of_lookup uniq i)) as [k Hk]; [apply Hin; by left|].
  exists (k :: ks). split; [|by constructor].
  assert (Hr : remap (index_map uniq) i = Done k).
  { unfold remap. by rewrite (proj2 (index_map_lookup uniq i k Hu) Hk). }
  cbn [mapM]. rewrite Hr. simpl. by rewrite Hks.
Qed.

Lemma chunk_fuel_elem {A} (size fuel : nat) : ∀ it : list A,
  Forall (λ ch, ∀ x, x ∈ ch → x ∈ it) (chunk_fuel fuel size it).
Proof.
  induction fuel as [|fuel IH]; intros it; [constructor|].
  simpl. destruct (take size it) as [|y c] eqn:Et; [constructor|].
  constructor.
  - intros x Hx. rewrite <- Et in Hx. by eapply subseteq_take.
  - eapply Forall_impl; [apply IH|]. simpl. intros ch Hch x Hx.
    by eapply subseteq_drop, Hch.
Qed.

Lemma faces_remapped uniq (chunks : list (list Z)) :
  NoDup uniq → Forall (λ ch, ∀ i, i ∈ ch → i ∈ uniq) chunks →
  ∃ faces,
    mapM (λ face, reverse <$> mapM (remap (index_map uniq)) face) chunks = Done faces
    ∧ Forall2 (λ face ch, Forall2 (λ k i, uniq !! k = Some i) (reverse face) ch)
              faces chunks.
Proof.
  intros Hu. induction 1 as [|ch chunks Hch _ (faces & Hfaces & Hall)].
  { by exists []. }
  destruct (remap_all uniq ch Hu Hch) as (ks & Hks & Hpos).
  exists (reverse ks :: faces). split.
  - simpl. rewrite Hks. simpl. by rewrite Hfaces.
  - constructor; [|done]. by rewrite reverse_involutive.
Qed.

Lemma override_pairs (verts : list VT) (els : list nat) :
  (∀ i, i ∈ els → i < length verts) →
  ∃ ps, mapM (λ i, v ← nat_index verts i; Done (i, v)) els = Done ps
        ∧ ps.*1 = els
        ∧ ∀ p, p ∈ ps → verts !! p.1 = Some p.2.
Proof.
  induction els as [|i els IH]; intros Hlt.
  { exists []. split; [done|]. split; [done|]. by intros p ?%elem_of_nil. }
  destruct IH as (ps & Hps & Hfst & Hlook).
  { intros j Hj. apply Hlt. by right. }
  destruct (nat_index_lt verts i) as (v & Hv & Hi); [apply Hlt; by left|].
  exists ((i, v) :: ps). split; [|split].
  - cbn [mapM]. rewrite Hi. simpl. by rewrite Hps.
  - by rewrite fmap_cons, Hfst.
  - intros p [->|Hp]%elem_of_cons; [done | by apply Hlook].
Qed.

Lemma vertex_overrides_done (verts : list VT) (faces : list (list nat)) :
  (∀ i, i ∈ mjoin faces → i < length verts) →
  ∃ normals uvs,
    vertex_overrides verts faces = Done (normals, uvs)
    ∧ dom normals = list_to_set (mjoin faces)
    ∧ dom uvs = list_to_set (mjoin faces)
    ∧ (∀ i n, normals !! i = Some n →
         ∃ v, verts !! i = Some v ∧ n = (vt_nx v, vt_ny v, vt_nz v))
    ∧ (∀ i st, uvs !! i = Some st →
         ∃ v, verts !! i = Some v ∧ st = (vt_s v, vt_t v)).
Proof.
  intros Hlt.
  destruct (override_pairs verts (elements (list_to_set (mjoin faces) : gset nat)))
    as (ps & Hps & Hfst & Hlook).
  { intros i Hi%elem_of_elements%elem_of_list_to_set. by apply Hlt. }
  eexists _, _. unfold vertex_overrides. rewrite Hps. simpl.
  split; [done|].
  split; [|split; [|split]].
  - rewrite dom_list_to_map_L, <- list_fmap_compose.
    change (list_to_set ps.*1 = list_to_set (mjoin faces) :> gset nat).
    by rewrite Hfst, list_to_set_elements_L.
  - rewrite dom_list_to_map_L, <- list_fmap_compose.
    change (list_to_set ps.*1 = list_to_set (mjoin faces) :> gset nat).
    by rewrite Hfst, list_to_set_elements_L.
  - intros i n Hn%elem_of_list_to_map_2.
    apply list_elem_of_fmap in Hn as (p & [= -> ->] & Hp).
    exists p.2. split; [by apply Hlook | done].
  - intros i st Hst%elem_of_list_to_map_2.
    apply list_elem_of_fmap in Hst as (p & [= -> ->] & Hp).
    exists p.2. split; [by apply Hlook | done].
Qed.

(** What [build_mesh] does on a slice whose indices are all in range. *)
Lemma build_mesh_core blk tb start cnt :
  start_idx blk = Some start → count blk = Some cnt →
  let slice := py_slice (idxes tb) start (start + cnt) in
  Forall (valid_index (length (vertices tb))) slice →
  ∃ vs faces normals uvs,
    vertices_at tb vs (first_seen slice)
    ∧ Forall2 (λ face ch,
         Forall2 (λ k i, first_seen slice !! k = Some i) (reverse face) ch)
         faces (chunk slice 3)
    ∧ dom normals = list_to_set (mjoin faces)
    ∧ dom uvs = list_to_set (mjoin faces)
    ∧ (∀ i n, normals !! i = Some n →
         ∃ v, vs !! i = Some v ∧ n = (vt_nx v, vt_ny v, vt_nz v))
    ∧ (∀ i st, uvs !! i = Some st →
         ∃ v, vs !! i = Some v ∧ st = (vt_s v, vt_t v))
    ∧ build_mesh blk tb
      = Done (if mesh_validate (coords_of <$> vs) faces
              then (mkObject (datablock_info blk)
                      (Some (mkMesh (coords_of <$> vs) faces ∅ ∅))
                      (Some "Material") [],
                    [invalid_mesh_message])
              else (mkObject (datablock_info blk)
                      (Some (mkMesh (coords_of <$> vs) faces normals uvs))
                      (Some "Material") [],
                    [])).
Proof.
  intros Hstart Hcnt slice Hvalid.
  destruct (dedup_loop_extend tb slice [] []) as (vs & Hloop & Hvs);
    [constructor | constructor | done |].
  rewrite extend_nil in Hloop, Hvs.
  destruct (faces_remapped (first_seen slice) (chunk slice 3))
    as (faces & Hfaces & Hrel); [apply NoDup_first_seen | |].
  { eapply Forall_impl; [apply chunk_fuel_elem|]. simpl.
    intros ch Hch i Hi. apply elem_of_first_seen. by apply Hch. }
  assert (Hbound : ∀ i, i ∈ mjoin faces → i < length vs).
  { intros k (face & Hk & Hface)%list_elem_of_join.
    apply list_elem_of_lookup in Hface as [j Hj].
    destruct (Forall2_lookup_l _ _ _ _ _ Hrel Hj) as (ch & _ & Hpos).
    assert (k ∈ reverse face) as Hk' by (by apply elem_of_reverse).
    apply list_elem_of_lookup in Hk' as [q Hq].
    destruct (Forall2_lookup_l _ _ _ _ _ Hpos Hq) as (i & _ & Hi).
    rewrite (Forall2_length _ _ _ Hvs). by eapply lookup_lt_Some. }
  destruct (vertex_overrides_done vs faces Hbound)
    as (normals & uvs & Hov & Hdn & Hdu & Hn & Hu).
  exists vs, faces, normals, uvs.
  repeat (split; [done|]).
  unfold build_mesh. rewrite Hstart, Hcnt. fold slice.
  change (dedup_loop tb (∅, []) slice) with (dedup_loop tb (index_map [], []) slice).
  rewrite Hloop. cbn [mbind result_bind fst snd]. rewrite Hfaces.
  cbn [mbind result_bind]. fold coords_of.
  destruct (mesh_validate (coords_of <$> vs) faces); cbn [negb]; [done|].
  by rewrite Hov.
Qed.

Lemma py_index_invalid {A} (l : list A) i :
  ¬ valid_index (length l) i → py_index l i = Fail IndexError.
Proof.
  unfold valid_index, py_index. intros Hi.
  rewrite decide_False; [done|]. case_decide; lia.
Qed.

(** An index outside the table stops the deduplication loop, and with it
    [build_mesh]. *)
Lemma dedup_loop_index_error tb l : ∀ u vs,
  NoDup u → Forall (valid_index (length (vertices tb))) u →
  Exists (λ i, ¬ valid_index (length (vertices tb)) i) l →
  dedup_loop tb (index_map u, vs) l = Fail IndexError.
Proof.
  induction l as [|x rest IH]; intros u vs Hnd Hu Hbad; [by inversion Hbad|].
  cbn [dedup_loop]. unfold dedup_step. cbn [fst snd].
  destruct (index_map u !! x) as [k|] eqn:Ek.
  - assert (x ∈ u).
    { destruct (decide (x ∈ u)) as [|Hn]; [done|].
      apply index_map_None in Hn. congruence. }
    simpl. apply IH; [done | done |].
    apply Exists_cons in Hbad as [Hx|]; [|done].
    rewrite Forall_forall in Hu. destruct Hx. by apply Hu.
  - destruct (decide (valid_index (length (vertices tb)) x)) as [Hx|Hx].
    + destruct (py_index_valid _ _ Hx) as [v ->]. simpl.
      apply index_map_None in Ek.
      rewrite index_map_snoc by done. apply IH.
      * apply NoDup_app. split; [done|]. split; [|apply NoDup_singleton].
        intros i Hi ->%list_elem_of_singleton. done.
      * apply Forall_app. split; [done | by constructor].
      * apply Exists_cons in Hbad as [|]; done.
    + by rewrite py_index_invalid.
Qed.

Lemma build_mesh_index_error blk tb start cnt :
  start_idx blk = Some start → count blk = Some cnt →
  Exists (λ i, ¬ valid_index (length (vertices tb)) i)
         (py_slice (idxes tb) start (start + cnt)) →
  build_mesh blk tb = Fail IndexError.
Proof.
  intros Hstart Hcnt Hbad. unfold build_mesh. rewrite Hstart, Hcnt.
  change (dedup_loop tb (∅, []) (py_slice (idxes tb) start (start + cnt)))
    with (dedup_loop tb (index_map [], []) (py_slice (idxes tb) start (start + cnt))).
  rewrite dedup_loop_index_error; [done | constructor | constructor | done].
Qed.

(** [chunk] cuts the slice into consecutive pieces and loses nothing. *)
Lemma chunk_fuel_join {A} (size : nat) : ∀ fuel (it : list A),
  0 < size → length it ≤ fuel → mjoin (chunk_fuel fuel size it) = it.
Proof.
  induction fuel as [|fuel IH]; intros it Hsize Hlen.
  { destruct it; [done | simpl in Hlen; lia]. }
  cbn [chunk_fuel]. destruct (take size it) as [|y c] eqn:Et.
  - destruct it, size; simpl in *; (done || lia).
  - cbn [mjoin list_join]. rewrite IH, <- Et; [apply take_drop | done |].
    rewrite length_drop. lia.
Qed.

(** C3. For a mesh-kind node whose slice of the index list refers to
    vertices of the table, [build_mesh] succeeds and hands the host a compact
    mesh: its vertices are the table's vertices at the distinct indices of
    the slice, in the order in which the slice first mentions them; every
    triangle is the corresponding group of three indices of the slice with
    each index replaced by its position in that compact list, written in
    reverse order; so only positions below the number of distinct indices
    occur. In particular, for the index slice 2, 2, 5, 2, 5, 7 into a table
    of eight vertices the mesh has the three vertices 2, 5 and 7 of the table
    and the triangles (1, 0, 0) and (2, 1, 0), the reversals of (0, 0, 1) and
    (0, 1, 2). *)
Theorem build_mesh_compacts :
  (∀ blk tb start cnt,
     start_idx blk = Some start → count blk = Some cnt →
     let slice := py_slice (idxes tb) start (start + cnt) in
     let uniq := first_seen slice in
     Forall (valid_index (length (vertices tb))) slice →
     ∃ ob msgs mesh,
       build_mesh blk tb = Done (ob, msgs) ∧ ob_data ob = Some mesh
       ∧ NoDup uniq
       ∧ (∀ i, i ∈ uniq ↔ i ∈ slice)
       ∧ (∀ n, first_seen (take n slice) `prefix_of` uniq)
       ∧ Forall2 (λ xyz i, ∃ v, py_index (vertices tb) i = Done v
                                ∧ xyz = (vt_x v, vt_y v, vt_z v))
                 (me_vertices mesh) uniq
       ∧ mjoin (chunk slice 3) = slice
       ∧ Forall2 (λ face tri,
            Forall2 (λ k i, uniq !! k = Some i) (reverse face) tri)
            (me_faces mesh) (chunk slice 3)
       ∧ ∀ face k, face ∈ me_faces mesh → k ∈ face →
           k < length uniq ∧ length uniq = length (me_vertices mesh))
  ∧ (∀ v0 v1 v2 v3 v4 v5 v6 v7 info anims,
       let tb := mkVTTable [v0; v1; v2; v3; v4; v5; v6; v7] [2; 2; 5; 2; 5; 7]%Z in
       let blk := mkDatablock info (Some 0%Z) (Some 6%Z) anims in
       ∃ ob msgs mesh,
         build_mesh blk tb = Done (ob, msgs) ∧ ob_data ob = Some mesh
         ∧ me_vertices mesh
           = [(vt_x v2, vt_y v2, vt_z v2); (vt_x v5, vt_y v5, vt_z v5);
              (vt_x v7, vt_y v7, vt_z v7)]
         ∧ me_faces mesh = [[1; 0; 0]; [2; 1; 0]]).
Proof.
  split.
  - intros blk tb start cnt Hstart Hcnt slice uniq Hvalid.
    destruct (build_mesh_core blk tb start cnt Hstart Hcnt Hvalid)
      as (vs & faces & normals & uvs & Hvs & Hfaces & _ & _ & _ & _ & Hrun).
    fold slice in Hvs, Hfaces. fold uniq in Hvs, Hfaces.
    assert (∃ ob msgs mesh,
      build_mesh blk tb = Done (ob, msgs) ∧ ob_data ob = Some mesh
      ∧ me_vertices mesh = coords_of <$> vs ∧ me_faces mesh = faces)
      as (ob & msgs & mesh & -> & Hmesh & Hmv & Hmf).
    { rewrite Hrun. destruct (mesh_validate _ _); by eexists _, _, _. }
    exists ob, msgs, mesh. rewrite Hmv, Hmf.
    split; [done|]. split; [done|].
    split; [apply NoDup_first_seen|].
    split; [apply elem_of_first_seen|].
    split.
    { intros n. unfold uniq. rewrite <- (take_drop n slice) at 2.
      rewrite first_seen_app. by eexists. }
    split.
    { apply Forall2_fmap_l. eapply Forall2_impl; [exact Hvs|].
      simpl. intros v i Hv. by exists v. }
    split.
    { apply chunk_fuel_join; [lia | done]. }
    split; [done|].
    intros face k Hface Hk. rewrite length_fmap, (Forall2_length _ _ _ Hvs).
    split; [|done].
    apply list_elem_of_lookup in Hface as [j Hj].
    destruct (Forall2_lookup_l _ _ _ _ _ Hfaces Hj) as (tri & _ & Hpos).
    assert (k ∈ reverse face) as Hk' by (by apply elem_of_reverse).
    apply list_elem_of_lookup in Hk' as [q Hq].
    destruct (Forall2_lookup_l _ _ _ _ _ Hpos Hq) as (i & _ & Hi).
    by eapply lookup_lt_Some.
  - intros v0 v1 v2 v3 v4 v5 v6 v7 info anims tb blk.
    assert (Hrun : build_mesh blk tb
      = (let faces := [[1; 0; 0]; [2; 1; 0]] in
         let coords := [coords_of v2; coords_of v5; coords_of v7] in
         if negb (mesh_validate coords faces) then
           ov ← vertex_overrides [v2; v5; v7] faces;
           Done (mkObject info (Some (mkMesh coords faces ov.1 ov.2))
                   (Some "Material") [], [])
         else
           Done (mkObject info (Some (mkMesh coords faces ∅ ∅))
                   (Some "Material") [], [invalid_mesh_message])))
      by (vm_compute; reflexivity).
    rewrite Hrun. cbv zeta.
    destruct (mesh_validate _ _); cbn [negb]; [by eexists _, _, _|].
    destruct (vertex_overrides_done [v2; v5; v7] [[1; 0; 0]; [2; 1; 0]])
      as (normals & uvs & -> & _); [|by eexists _, _, _].
    intros i Hi. simpl in Hi. rewrite !elem_of_cons, elem_of_nil in Hi.
    simpl. lia.
Qed.

(** C5, as the code has it. For a mesh-kind node whose slice refers to
    vertices of the table, [build_mesh] returns the materialized object, with
    its material, whatever the host's validation answers. When the host
    reports the mesh as invalid, one error message is logged and no normal
    and no texture coordinate is assigned, to no vertex at all. When the host
    reports the mesh as valid, nothing is logged and every vertex position
    used by a face, and no other, receives the normal and the texture
    coordinate of its vertex. *)
Theorem invalid_mesh_logged_not_patched blk tb start cnt :
  start_idx blk = Some start → count blk = Some cnt →
  let slice := py_slice (idxes tb) start (start + cnt) in
  Forall (valid_index (length (vertices tb))) slice →
  ∃ ob msgs mesh,
    build_mesh blk tb = Done (ob, msgs)
    ∧ ob_info ob = datablock_info blk
    ∧ ob_data ob = Some mesh
    ∧ ob_material ob = Some "Material"
    ∧ (mesh_validate (me_vertices mesh) (me_faces mesh) = true →
         msgs = [invalid_mesh_message]
         ∧ me_normals mesh = ∅ ∧ me_uvs mesh = ∅)
    ∧ (mesh_validate (me_vertices mesh) (me_faces mesh) = false →
         msgs = []
         ∧ dom (me_normals mesh) = list_to_set (mjoin (me_faces mesh))
         ∧ dom (me_uvs mesh) = list_to_set (mjoin (me_faces mesh))
         ∧ ∀ k, k ∈ mjoin (me_faces mesh) →
             ∃ i v, first_seen slice !! k = Some i
                    ∧ py_index (vertices tb) i = Done v
                    ∧ me_normals mesh !! k = Some (vt_nx v, vt_ny v, vt_nz v)
                    ∧ me_uvs mesh !! k = Some (vt_s v, vt_t v)).
Proof.
  intros Hstart Hcnt slice Hvalid.
  destruct (build_mesh_core blk tb start cnt Hstart Hcnt Hvalid)
    as (vs & faces & normals & uvs & Hvs & _ & Hdn & Hdu & Hn & Hu & ->).
  fold slice in Hvs.
  destruct (mesh_validate (coords_of <$> vs) faces) eqn:Ev;
    eexists _, _, _; (do 4 (split; [reflexivity|]));
    cbn [me_vertices me_faces me_normals me_uvs]; rewrite Ev.
  { split; [done | by intros [=]]. }
  split; [by intros [=] | intros _].
  repeat (split; [done|]).
  intros k Hk.
  assert (is_Some (normals !! k)) as [n Hnk].
  { apply elem_of_dom. rewrite Hdn. by apply elem_of_list_to_set. }
  assert (is_Some (uvs !! k)) as [st Huk].
  { apply elem_of_dom. rewrite Hdu. by apply elem_of_list_to_set. }
  destruct (Hn _ _ Hnk) as (v & Hv & ->).
  destruct (Hu _ _ Huk) as (v' & Hv' & ->).
  assert (v' = v) as -> by congruence.
  destruct (Forall2_lookup_l _ _ _ _ _ Hvs Hv) as (i & Hi & Hpy).
  by exists i, v.
Qed.

(** ** Finalization *)

Lemma blocks_shaped_append bs blk :
  node_shape blk → blocks_shaped bs → blocks_shaped (bs ++ [blk]).
Proof.
  intros Hblk (root & rest & -> & Hall). exists root, (rest ++ [blk]).
  split; [done|]. apply Forall_app. split; [done|].
  constructor; [done | constructor].
Qed.

Lemma build_cmd_keeps_shape directive args name_hint :
  preserves (keeps nodes_shaped) (build_cmd directive args name_hint).
Proof.
  apply preserves_build_cmd; try apply _; unfold keeps, nodes_shaped.
  - by intros [] f.
  - by intros [] ax.
  - by intros [] addr g _.
  - intros _ [] nm pn start cnt. simpl. apply blocks_shaped_append.
    split; simpl; [by eexists | intros _; split; by eexists].
  - by intros _ [].
  - intros _. split; by intros [].
  - intros _. apply preserves_begin_new_frame; [apply _ | |]; unfold keeps.
    + intros b pn _ _. simpl. apply blocks_shaped_append.
      split; simpl; [by eexists | done].
    + intros b pn c cs _ _. simpl. apply blocks_shaped_append.
      split; simpl; [by eexists | done].
Qed.

Lemma apply_animation_done a :
  (anim_type (xp_dataref a) = ANIM_TYPE_TRANSFORM →
   ¬ short_of a (length (values (xp_dataref a)))) →
  ∃ kfs, apply_animation a = Done kfs.
Proof.
  intros Hlong. unfold apply_animation. case_decide as Hkind; [|by eexists].
  rewrite (transform_keyframes_done a _ 0); [by eexists | by apply Hlong].
Qed.

Lemma apply_animations_done heap addrs : ∀ ob,
  Forall (λ addr, addr < length heap) addrs →
  Forall (λ a, anim_type (xp_dataref a) = ANIM_TYPE_TRANSFORM →
               ¬ short_of a (length (values (xp_dataref a)))) heap →
  ∃ ob', apply_animations heap addrs ob = (Done tt, ob').
Proof.
  induction addrs as [|addr rest IH]; intros ob Haddrs Hheap; [by eexists|].
  apply Forall_cons in Haddrs as [Haddr Hrest]. simpl.
  destruct (lookup_lt_is_Some_2 heap addr Haddr) as [a Ha]. rewrite Ha.
  destruct (apply_animation_done a) as [kfs ->]; [|by apply IH].
  rewrite Forall_forall in Hheap. apply Hheap. by eapply list_elem_of_lookup_2.
Qed.

Lemma finalize_block_done b blk sc :
  node_shape blk →
  (∀ start cnt, start_idx blk = Some start → count blk = Some cnt →
     Forall (valid_index (length (vertices (vt_table b))))
            (py_slice (idxes (vt_table b)) start (start + cnt))) →
  Forall (λ addr, addr < length (anim_heap b)) (animations_to_apply blk) →
  Forall (λ a, anim_type (xp_dataref a) = ANIM_TYPE_TRANSFORM →
               ¬ short_of a (length (values (xp_dataref a)))) (anim_heap b) →
  ∃ sc', finalize_block b blk sc = (Done tt, sc').
Proof.
  intros [[p Hp] Hmesh] Hslice Haddrs Hheap. unfold finalize_block, clear_root_parent.
  rewrite Hp.
  set (info := if decide (parent p = "INTER_ROOT")
               then mkDatablockInfo (datablock_type (datablock_info blk))
                      (name (datablock_info blk)) None
               else datablock_info blk).
  assert (Hkind : datablock_type info = datablock_type (datablock_info blk)).
  { unfold info. by case_decide. }
  assert (∃ made, (match datablock_type info with
                   | EMPTY => Done (mkObject info None None [], [])
                   | MESH =>
                       build_mesh (mkDatablock info (start_idx blk) (count blk)
                                     (animations_to_apply blk)) (vt_table b)
                   end) = Done made) as [[ob msgs] Hmade].
  { rewrite Hkind. destruct (datablock_type (datablock_info blk)) eqn:Ek;
      [by eexists|].
    destruct (Hmesh eq_refl) as [[start Hs] [cnt Hc]].
    destruct (build_mesh_core
                (mkDatablock info (start_idx blk) (count blk)
                   (animations_to_apply blk)) (vt_table b) start cnt Hs Hc)
      as (vs & faces & normals & uvs & _ & _ & _ & _ & _ & _ & ->);
      [by apply Hslice | by eexists]. }
  replace (if decide (parent p = "INTER_ROOT")
           then Done (mkDatablockInfo (datablock_type (datablock_info blk))
                        (name (datablock_info blk)) None)
           else Done (datablock_info blk)) with (Done info)
    by (unfold info; by case_decide).
  rewrite Hmade.
  destruct (apply_animations_done (anim_heap b) (animations_to_apply blk) ob
              Haddrs Hheap) as [ob' ->].
  by eexists.
Qed.

Lemma finalize_loop_done b blks : ∀ sc,
  (∀ blk sc0, blk ∈ blks → ∃ sc', finalize_block b blk sc0 = (Done tt, sc')) →
  ∃ sc', finalize_loop b blks sc = (Done tt, sc').
Proof.
  induction blks as [|blk rest IH]; intros sc Hdone; [by eexists|].
  simpl. destruct (Hdone blk sc) as [sc1 ->]; [by left|].
  apply IH. intros blk' sc0 Hin. apply Hdone. by right.
Qed.

(** C4, as the code has it. [finalize_intermediate_blocks] has one returned
    status only: when it returns, it returns the set holding "FINISHED", and
    the timeline position is back at 1; the alternative is an exception
    that escapes, never a returned failure status. It does return, with that
    same set, for every node list built by [build_cmd] whose mesh slices
    refer to vertices of the table and whose transform animations have no
    list that is too short, whatever the host's validation answers: what
    was logged about invalid meshes has no bearing on the returned set. *)
Theorem finalize_returns_finished :
  (∀ b,
     ((finalize_intermediate_blocks b).1 = Done {["FINISHED"]}
      ∧ frame_current (finalize_intermediate_blocks b).2 = Some 1)
     ∨ (∃ e, (finalize_intermediate_blocks b).1 = Fail e))
  ∧ (∀ stem stream,
       let b := (build_cmds stream (new_builder stem)).2 in
       finalizable b →
       (finalize_intermediate_blocks b).1 = Done {["FINISHED"]}
       ∧ frame_current (finalize_intermediate_blocks b).2 = Some 1).
Proof.
  split.
  - intros b. unfold finalize_intermediate_blocks.
    destruct (finalize_loop b (drop 1 (_blocks b)) (mkScene [] [] None))
      as [[[]|e] sc]; simpl; [by left | right; by exists e].
  - intros stem stream b [Hslices Hheap].
    assert (Hshape : nodes_shaped b).
    { apply (preserves_build_cmds (keeps nodes_shaped)).
      - intros c _. apply build_cmd_keeps_shape.
      - exists root_intermediate_datablock, []. by split. }
    destruct (build_cmds_wf stem stream) as [_ Hwf]. fold b in Hwf.
    destruct Hshape as (root & rest & Hbs & Hall).
    unfold finalize_intermediate_blocks. rewrite Hbs. simpl. rewrite drop_0.
    destruct (finalize_loop_done b rest (mkScene [] [] None)) as [sc ->]; [|done].
    intros blk sc0 Hblk.
    assert (Hin : blk ∈ _blocks b) by (rewrite Hbs; by right).
    rewrite Forall_forall in Hall, Hslices, Hwf.
    apply finalize_block_done; [by apply Hall | by apply Hslices | by apply Hwf | done].
Qed.

(** C8, as the code has it. For every show-kind or hide-kind animation
    [apply_animation] hands over exactly one keyframe, of sample index 1,
    carrying the two thresholds, the driver path and the kind. In
    particular, an [ANIM_show] with thresholds [v1], [v2] and a path, issued
    inside an [ANIM_begin] bracket and followed by finalization, yields one
    empty object with exactly that one keyframe; and likewise [ANIM_hide]. *)
Theorem show_hide_single_keyframe :
  (∀ a, anim_type (xp_dataref a) = "show" ∨ anim_type (xp_dataref a) = "hide" →
     apply_animation a
     = Done [mkKeyframeInfo 1 (path (xp_dataref a)) None
               (Some (show_hide_v1 (xp_dataref a)))
               (Some (show_hide_v2 (xp_dataref a)))
               (anim_type (xp_dataref a)) None None])
  ∧ (∀ stem v1 v2 pth,
       let run := build_cmds [begin_call; show_call v1 v2 pth] (new_builder stem) in
       run.1 = Done tt
       ∧ (finalize_intermediate_blocks run.2).1 = Done {["FINISHED"]}
       ∧ ∃ info,
           objects (finalize_intermediate_blocks run.2).2
           = [mkObject info None None
                [[mkKeyframeInfo 1 pth None (Some v1) (Some v2) "show" None None]]])
  ∧ (∀ stem v1 v2 pth,
       let run := build_cmds [begin_call; hide_call v1 v2 pth] (new_builder stem) in
       run.1 = Done tt
       ∧ (finalize_intermediate_blocks run.2).1 = Done {["FINISHED"]}
       ∧ ∃ info,
           objects (finalize_intermediate_blocks run.2).2
           = [mkObject info None None
                [[mkKeyframeInfo 1 pth None (Some v1) (Some v2) "hide" None None]]]).
Proof.
  split; [|split].
  - intros a Hkind. unfold apply_animation.
    rewrite decide_False; [done|].
    unfold ANIM_TYPE_TRANSFORM. destruct Hkind as [-> | ->]; discriminate.
  - intros stem v1 v2 pth run.
    split; [vm_compute; reflexivity|]. split; [vm_compute; reflexivity|].
    eexists. vm_compute. reflexivity.
  - intros stem v1 v2 pth run.
    split; [vm_compute; reflexivity|]. split; [vm_compute; reflexivity|].
    eexists. vm_compute. reflexivity.
Qed.

(** * Further properties of the builder *)

(** ** The branches one by one *)

Section PreservesByBranch.
Variable R : relation ImpCommandBuilder.
Context `{!PreOrder R}.

Ltac preserves_step' :=
  lazymatch goal with
  | |- preserves _ begin_new_frame => fail
  | |- preserves _ (pop_frames _) => fail
  | |- preserves _ (modify _) => fail
  | |- preserves _ (update_top_animation _) => fail
  | |- preserves _ (match ?x with _ => _ end) => destruct x
  | |- preserves _ (_ ≫= _) => apply preserves_bind; [assumption | |intros ?]
  | |- _ =>
      first
        [ apply preserves_ret; assumption | apply preserves_raise; assumption
        | apply preserves_get; assumption
        | apply preserves_top_animation_object; assumption
        | apply preserves_block_name; assumption ]
  end.

(** The TRIS branch reads the parent's name off the top of the context
    stack, as [begin_new_frame] does. *)
Lemma preserves_on_TRIS args name_hint :
  (∀ b pn start cnt,
     parent_name_of b = Done pn →
     R b (set_blocks (λ bs, bs ++
            [mkDatablock
               (mkDatablockInfo MESH
                  (if decide (name_hint = "") then _next_object_name b else name_hint)
                  (Some (mkParentInfo pn)))
               (Some start) (Some cnt) []]) b)) →
  preserves R (on_TRIS args name_hint).
Proof.
  intros Htris b. unfold on_TRIS.
  destruct args as [|[| start | |] [|[| cnt | |] rest]]; try reflexivity.
  unfold_M. unfold block_name.
  specialize (Htris b). unfold parent_name_of, _top_intermediate_datablock in Htris.
  destruct (_anim_intermediate_stack b) as [|e st]; simpl in *.
  - by apply Htris.
  - destruct (_blocks b !! intermediate_datablock e) as [pblk|]; simpl; [|reflexivity].
    by apply Htris.
Qed.

(** A relation is maintained by a call as soon as it is maintained by the
    mutations of the branch the directive selects. *)
Lemma preserves_build_cmd_by_branch directive args name_hint :
  (directive = "VT" → ∀ b v,
     R b (set_vt_table (λ tb, mkVTTable (vertices tb ++ [v]) (idxes tb)) b)) →
  (directive = "IDX" ∨ directive = "IDX10" → ∀ b ixs,
     R b (set_vt_table (λ tb, mkVTTable (vertices tb) (idxes tb ++ ixs)) b)) →
  (directive = "TRIS" → preserves R (on_TRIS args name_hint)) →
  (directive = "ANIM_begin" → ∀ b, R b (set_anim_count (λ cs, 0 :: cs) b)) →
  (directive = "ANIM_end" →
     (∀ b cs, R b (set_anim_count (λ _, cs) b))
     ∧ (∀ b g, R b (set_stack (λ st, drop (g st) st) b))) →
  (directive = "ANIM_rotate_begin" ∨ directive = "ANIM_rotate_end" → ∀ b ax,
     R b (set_last_axis ax b)) →
  (directive ∈ frame_directives → preserves R begin_new_frame) →
  (directive ∈ frame_directives
   ∨ directive ∈ ["ANIM_trans_key"; "ANIM_rotate_key"; "ANIM_keyframe_loop"] →
   ∀ f, preserves R (update_top_animation f)) →
  preserves R (build_cmd directive args name_hint).
Proof.
  intros Hvt Hidx Htris Hbegin Hend Haxis Hframe Hupd.
  assert (PreOrder R) as Hpre by done.
  assert (Hin : ∀ d, directive = d → d ∈ frame_directives →
                preserves R begin_new_frame).
  { intros d <-. exact Hframe. }
  assert (Hup : ∀ d, directive = d →
                d ∈ frame_directives
                ∨ d ∈ ["ANIM_trans_key"; "ANIM_rotate_key"; "ANIM_keyframe_loop"] →
                ∀ f, preserves R (update_top_animation f)).
  { intros d <-. exact Hupd. }
  assert (Hhs : directive ∈ ["ANIM_hide"; "ANIM_show"] → directive ∈ frame_directives).
  { unfold frame_directives. rewrite !elem_of_cons. tauto. }
  unfold build_cmd.
  repeat match goal with
  | |- context [decide (directive = ?s)] =>
      destruct (decide (directive = s))
  | |- context [decide (directive ∈ ?l)] =>
      destruct (decide (directive ∈ l))
  end.
  all: try (by apply Htris).
  all: unfold on_VT, on_IDX, on_IDX10, on_ANIM_begin, on_ANIM_end,
    on_ANIM_trans_begin, on_ANIM_trans_key, on_ANIM_hide_show,
    on_ANIM_rotate_begin, on_ANIM_rotate_key, on_ANIM_rotate_end,
    on_ANIM_keyframe_loop, on_ANIM_trans, on_ANIM_rotate.
  all: repeat preserves_step'.
  all: try (apply preserves_modify; intros;
            first [ by apply Hvt | apply Hidx; tauto | by apply Hbegin
                  | by apply Hend | apply Haxis; tauto ]).
  all: try (apply preserves_pop_frames; try done; by apply Hend).
  all: try (eapply Hin; [eassumption|];
            apply (bool_decide_unpack _); vm_compute; exact I).
  all: try (eapply Hup; [eassumption|];
            apply (bool_decide_unpack _); vm_compute; exact I).
  all: first [ apply Hframe; by apply Hhs | apply Hupd; left; by apply Hhs ].
Qed.

End PreservesByBranch.

(** ** The vertex and index table *)

#[local] Instance table_grows_preorder : PreOrder table_grows.
Proof.
  split; [by intros b|].
  intros b1 b2 b3 [? ?] [? ?]. split; by etrans.
Qed.

#[local] Instance nodes_grow_preorder : PreOrder nodes_grow.
Proof. unfold nodes_grow. split; [by intros b | intros b1 b2 b3 ? ?; by etrans]. Qed.

#[local] Instance same_table_preorder :
  PreOrder (λ b b' : ImpCommandBuilder, vt_table b' = vt_table b).
Proof. split; [by intros b | intros b1 b2 b3 ? ?; congruence]. Qed.

#[local] Instance same_nodes_preorder :
  PreOrder (λ b b' : ImpCommandBuilder, _blocks b' = _blocks b).
Proof. split; [by intros b | intros b1 b2 b3 ? ?; congruence]. Qed.

Lemma args_ints_PInt (ixs : list Z) : args_ints (PInt <$> ixs) = Done ixs.
Proof.
  unfold args_ints. induction ixs as [|i ixs IH]; [done|].
  cbn [fmap list_fmap mapM]. simpl. rewrite IH. done.
Qed.

(** X1. [IDX10] with its integers does to the builder exactly what one
    [IDX] call per integer, issued in the same order, does. *)
Theorem idx10_as_idx_sequence (ixs : list Z) name_hint b :
  build_cmd "IDX10" (PInt <$> ixs) name_hint b = build_cmds (idx_call <$> ixs) b.
Proof.
  change (build_cmd "IDX10" (PInt <$> ixs) name_hint b)
    with (on_IDX10 (PInt <$> ixs) b).
  unfold on_IDX10. rewrite args_ints_PInt.
  revert b. induction ixs as [|i ixs IH]; intros b.
  - destruct b as [rc [vs js] bs la st cs hp]. unfold modify, set_vt_table. simpl.
    by rewrite app_nil_r.
  - cbn [fmap list_fmap build_cmds idx_call call_directive call_args call_name_hint].
    change (build_cmd "IDX" [PInt i] "") with (on_IDX [PInt i]).
    unfold on_IDX. unfold mbind, M_bind. unfold modify at 2.
    rewrite <- IH. unfold modify, set_vt_table. simpl.
    by rewrite <- app_assoc.
Qed.

Lemma build_cmd_table_grows directive args name_hint :
  preserves table_grows (build_cmd directive args name_hint).
Proof.
  apply preserves_build_cmd_by_branch; try apply _.
  - intros _ [rc [vs js] bs la st cs hp] v. split; simpl; [by eexists | done].
  - intros _ [rc [vs js] bs la st cs hp] ixs. split; simpl; [done | by eexists].
  - intros _. apply preserves_on_TRIS; [apply _|]. by intros [].
  - by intros _ [].
  - intros _. split; by intros [].
  - by intros _ [].
  - intros _. apply preserves_begin_new_frame; [apply _ | |]; by intros [].
  - intros _ f. apply preserves_update_top_animation; [apply _|]. by intros [].
Qed.

(** X2. The vertex and index table is only ever appended to: whatever
    stream is processed, and however it ends, the vertices and the indices
    the table held before are still there, at the same positions, so a
    vertex reference that resolved keeps resolving to the same vertex. Only
    [VT], [IDX] and [IDX10] touch the table at all. *)
Theorem vt_table_only_grows :
  (∀ stream b, table_grows b (build_cmds stream b).2)
  ∧ (∀ directive args name_hint b,
       directive ∉ table_directives →
       vt_table (build_cmd directive args name_hint b).2 = vt_table b)
  ∧ (∀ stream b (i : Z) v,
       (0 ≤ i)%Z → py_index (vertices (vt_table b)) i = Done v →
       py_index (vertices (vt_table (build_cmds stream b).2)) i = Done v).
Proof.
  assert (Hgrow : ∀ stream b, table_grows b (build_cmds stream b).2).
  { intros stream. apply (preserves_build_cmds table_grows).
    intros c _. apply build_cmd_table_grows. }
  split; [exact Hgrow|]. split.
  - intros directive args name_hint b Hnot.
    unfold table_directives in Hnot. rewrite !not_elem_of_cons in Hnot.
    destruct Hnot as (Hvt & Hidx & Hidx10 & _).
    revert b.
    apply (preserves_build_cmd_by_branch (λ b b', vt_table b' = vt_table b));
      try apply _; try done.
    + by intros [? | ?].
    + intros _. apply preserves_on_TRIS; [apply _|]. by intros [].
    + intros _. apply preserves_begin_new_frame; [apply _ | |]; by intros [].
    + intros _ f. apply preserves_update_top_animation; [apply _|]. by intros [].
  - intros stream b i v Hi Hv.
    destruct (Hgrow stream b) as [[more Hmore] _]. rewrite Hmore.
    unfold py_index in *. cbv zeta in *.
    destruct (decide (i < 0)%Z); [lia|].
    destruct (decide (0 ≤ i < Z.of_nat (length (vertices (vt_table b))))%Z)
      as [Hin|]; [|done].
    rewrite length_app, decide_True by lia.
    destruct (vertices (vt_table b) !! Z.to_nat i) as [x|] eqn:Ex; [|done].
    by rewrite (lookup_app_l_Some _ _ _ _ Ex).
Qed.

(** ** The node list *)

Lemma build_cmd_nodes_grow directive args name_hint :
  preserves nodes_grow (build_cmd directive args name_hint).
Proof.
  apply preserves_build_cmd; try apply _; unfold nodes_grow.
  - by intros [] f.
  - by intros [] ax.
  - by intros [] addr g _.
  - intros _ [] nm pn start cnt. simpl. by eexists.
  - by intros _ [].
  - intros _. split; by intros [].
  - intros _. apply preserves_begin_new_frame; [apply _ | |];
      intros; simpl; by eexists.
Qed.

(** X3. The flat node list is only ever appended to: whatever stream is
    processed, and however it ends, the nodes that were there before are
    still there, in the same order and unchanged (name, kind, parent, slice
    and pending animations). Only [TRIS] and the directives that call
    [begin_new_frame] add nodes. *)
Theorem nodes_only_appended :
  (∀ stream b, _blocks b `prefix_of` _blocks (build_cmds stream b).2)
  ∧ (∀ directive args name_hint b,
       directive ≠ "TRIS" → directive ∉ frame_directives →
       _blocks (build_cmd directive args name_hint b).2 = _blocks b).
Proof.
  split.
  - intros stream. apply (preserves_build_cmds nodes_grow).
    intros c _. apply build_cmd_nodes_grow.
  - intros directive args name_hint b Htris Hframe. revert b.
    apply (preserves_build_cmd (λ b b', _blocks b' = _blocks b));
      first [apply _ | done].
Qed.

(** ** Node names *)

Lemma pretty_N_go_head (x : N) s :
  (0 < x)%N → ∃ c t, pretty_N_go x s = String c t ∧ c ≠ pretty_N_char 0.
Proof.
  revert s. induction (N.lt_wf_0 x) as [x _ IH]; intros s Hx.
  rewrite pretty_N_go_step by done.
  destruct (decide (x < 10)%N) as [Hlt|Hge].
  - rewrite N.div_small, pretty_N_go_0, N.mod_small by done.
    exists (pretty_N_char x), s. split; [done|].
    assert (x = 1 ∨ x = 2 ∨ x = 3 ∨ x = 4 ∨ x = 5 ∨ x = 6
            ∨ x = 7 ∨ x = 8 ∨ x = 9)%N as Hx9 by lia.
    repeat (destruct Hx9 as [-> | Hx9]; [by compute|]).
    subst. by compute.
  - apply IH; [by apply N.div_lt | apply N.div_str_pos; lia].
Qed.

Lemma pretty_nat_head (n : nat) :
  pretty n = "0" ∨ ∃ c t, pretty n = String c t ∧ c ≠ pretty_N_char 0.
Proof.
  destruct n as [|n]; [by left | right].
  unfold pretty, pretty_nat, pretty, pretty_N.
  rewrite decide_False by lia. apply pretty_N_go_head. lia.
Qed.

(** [f"{n:03}"] tells numbers apart. *)
Lemma pad3_inj : Inj (=) (=) pad3.
Proof.
  intros n m. unfold pad3.
  destruct (pretty_nat_head n) as [Hn | (c & t & Hn & Hc)],
           (pretty_nat_head m) as [Hm | (d & u & Hm & Hd)];
    rewrite Hn, Hm.
  - intros _. apply (inj pretty). congruence.
  - destruct u as [|u1 [|u2 u]]; cbv [String.length String.append];
      intros [=]; by subst.
  - destruct t as [|t1 [|t2 t]]; cbv [String.length String.append];
      intros [=]; by subst.
  - destruct t as [|t1 [|t2 t]], u as [|u1 [|u2 u]];
      cbv [String.length String.append];
      intros [=]; subst; try done; apply (inj pretty); congruence.
Qed.

Lemma string_app_chars (s t : string) :
  String.list_ascii_of_string (s +:+ t)
  = String.list_ascii_of_string s ++ String.list_ascii_of_string t.
Proof.
  induction s as [|c s IH]; [done|].
  change (String c s +:+ t) with (String c (s +:+ t)).
  cbn [String.list_ascii_of_string]. by rewrite IH.
Qed.

Lemma string_app_inv_tail (s1 s2 t : string) : s1 +:+ t = s2 +:+ t → s1 = s2.
Proof.
  intros Heq. apply (f_equal String.list_ascii_of_string) in Heq.
  rewrite !string_app_chars in Heq. apply app_inv_tail in Heq.
  rewrite <- (String.string_of_list_ascii_of_string s1),
          <- (String.string_of_list_ascii_of_string s2).
  by rewrite Heq.
Qed.

#[local] Instance empty_name_inj stem : Inj (=) (=) (empty_name stem).
Proof.
  intros k1 k2 Heq. unfold empty_name in Heq.
  apply (inj (String.append _)) in Heq.
  apply string_app_inv_tail in Heq. by apply pad3_inj.
Qed.

#[local] Instance mesh_name_inj stem : Inj (=) (=) (mesh_name stem).
Proof.
  intros k1 k2 Heq. unfold mesh_name in Heq.
  apply (inj (String.append _)) in Heq.
  apply string_app_inv_tail in Heq. by apply pad3_inj.
Qed.

Lemma names_of_kind_snoc k bs blk :
  names_of_kind k (bs ++ [blk])
  = names_of_kind k bs
    ++ (if decide (datablock_type (datablock_info blk) = k) then [node_name blk] else []).
Proof.
  unfold names_of_kind. rewrite filter_app, fmap_app. f_equal.
  rewrite filter_cons, filter_nil. by case_decide.
Qed.

Lemma count_kind_snoc k bs blk :
  count_kind k (bs ++ [blk])
  = count_kind k bs
    + (if decide (datablock_type (datablock_info blk) = k) then 1 else 0).
Proof.
  unfold count_kind. rewrite filter_app, length_app. f_equal.
  rewrite filter_cons, filter_nil. by case_decide.
Qed.

Lemma numbered_snoc_empty stem b pn anims :
  numbered stem b →
  names_of_kind EMPTY (_blocks b ++ [new_empty b pn anims])
  = "INTER_ROOT"
    :: (empty_name stem
          <$> seq 1 (count_kind EMPTY (_blocks b ++ [new_empty b pn anims]) - 1)).
Proof.
  intros [Hrc Hnames].
  rewrite names_of_kind_snoc, count_kind_snoc, Hnames. simpl.
  assert (Hpos : 0 < count_kind EMPTY (_blocks b)).
  { apply (f_equal length) in Hnames. unfold names_of_kind, count_kind in *.
    rewrite length_fmap in Hnames. rewrite Hnames. simpl. lia. }
  replace (count_kind EMPTY (_blocks b) + 1 - 1)
    with (S (count_kind EMPTY (_blocks b) - 1)) by lia.
  rewrite seq_S, fmap_app. simpl. do 3 f_equal.
  unfold node_name, new_empty, _next_empty_name, empty_name. simpl.
  rewrite Hrc. do 3 f_equal. lia.
Qed.

Lemma build_cmd_keeps_numbered stem directive args name_hint :
  preserves (keeps (numbered stem)) (build_cmd directive args name_hint).
Proof.
  apply preserves_build_cmd; try apply _; unfold keeps.
  - by intros [] f.
  - by intros [] ax.
  - by intros [] addr g _.
  - intros _ [] nm pn start cnt [Hrc Hnames]. split; [done|]. simpl in *.
    rewrite names_of_kind_snoc, count_kind_snoc. simpl.
    by rewrite app_nil_r, Nat.add_0_r.
  - by intros _ [].
  - intros _. split; by intros [].
  - intros _. apply preserves_begin_new_frame; [apply _ | |]; unfold keeps.
    + intros b pn _ _ Hinv. split; [apply Hinv|]. by apply numbered_snoc_empty.
    + intros b pn c cs _ _ Hinv. split; [apply Hinv|]. by apply numbered_snoc_empty.
Qed.

Lemma build_cmds_numbered stem stream :
  numbered stem (build_cmds stream (new_builder stem)).2.
Proof.
  apply (preserves_build_cmds (keeps (numbered stem))).
  - intros c _. apply build_cmd_keeps_numbered.
  - by split.
Qed.

Lemma empty_names_NoDup stem n :
  NoDup ("INTER_ROOT" :: (empty_name stem <$> seq 1 n)).
Proof.
  constructor.
  - intros (k & Hk & _)%list_elem_of_fmap. unfold empty_name in Hk.
    cbv [String.append] in Hk. discriminate.
  - apply (NoDup_fmap_2 _), NoDup_seq.
Qed.

(** X4. The empty-kind nodes are numbered in the order of their creation:
    after the root sentinel "INTER_ROOT" come "ImpEmpty.001_<tag>",
    "ImpEmpty.002_<tag>", ..., one per node, where <tag> is the hash tag of
    the collection's name; so no two empty-kind nodes share a name. This
    holds for every stream, also one that ends in an exception. *)
Theorem empty_nodes_numbered stem stream :
  let b := (build_cmds stream (new_builder stem)).2 in
  names_of_kind EMPTY (_blocks b)
  = "INTER_ROOT" :: (empty_name stem <$> seq 1 (count_kind EMPTY (_blocks b) - 1))
  ∧ NoDup (names_of_kind EMPTY (_blocks b)).
Proof.
  intros b. destruct (build_cmds_numbered stem stream) as [_ Hnames].
  fold b in Hnames. split; [done|]. rewrite Hnames. apply empty_names_NoDup.
Qed.

Lemma build_cmd_keeps_meshes_numbered stem directive args :
  preserves (keeps (meshes_numbered stem)) (build_cmd directive args "").
Proof.
  assert (Hsnoc : ∀ b pn anims, meshes_numbered stem b →
            meshes_numbered stem (pushed b pn anims (_anim_count b))).
  { intros b pn anims [Hrc Hnames]. split; [done|]. simpl.
    rewrite names_of_kind_snoc, count_kind_snoc. simpl.
    by rewrite app_nil_r, Nat.add_0_r. }
  apply preserves_build_cmd_by_branch; try apply _; unfold keeps.
  - by intros _ [].
  - by intros _ [].
  - intros _. apply preserves_on_TRIS; [apply _|].
    intros b pn start cnt _ [Hrc Hnames]. split; [by destruct b|].
    destruct b as [rc vt bs la st cs hp]. simpl in *.
    rewrite names_of_kind_snoc, count_kind_snoc, Hnames. simpl.
    rewrite Nat.add_1_r, seq_S, fmap_app. simpl. f_equal.
    unfold node_name, _next_object_name, mesh_name. simpl. by rewrite Hrc.
  - by intros _ [].
  - intros _. split; by intros [].
  - by intros _ [].
  - intros _. apply preserves_begin_new_frame; [apply _ | |]; unfold keeps.
    + intros b pn _ _ [Hrc Hnames]. split; [done|]. simpl.
      rewrite names_of_kind_snoc, count_kind_snoc. simpl.
      by rewrite app_nil_r, Nat.add_0_r.
    + intros b pn c cs _ _ [Hrc Hnames]. split; [done|]. simpl.
      rewrite names_of_kind_snoc, count_kind_snoc. simpl.
      by rewrite app_nil_r, Nat.add_0_r.
  - intros _ f. apply preserves_update_top_animation; [apply _|]. by intros [].
Qed.

Lemma NoDup_by_kind (bs : list IntermediateDatablock) :
  NoDup (names_of_kind EMPTY bs) → NoDup (names_of_kind MESH bs) →
  (∀ x, x ∈ names_of_kind EMPTY bs → x ∉ names_of_kind MESH bs) →
  NoDup (node_name <$> bs).
Proof.
  unfold names_of_kind.
  induction bs as [|blk bs IH]; intros He Hm Hdisj; [constructor|].
  assert (Hin : ∀ x, x ∈ node_name <$> bs →
            x ∈ node_name <$> filter (λ blk, datablock_type (datablock_info blk) = EMPTY) bs
            ∨ x ∈ node_name <$> filter (λ blk, datablock_type (datablock_info blk) = MESH) bs).
  { intros x (blk' & -> & Hblk')%list_elem_of_fmap.
    destruct (datablock_type (datablock_info blk')) eqn:Ek; [left | right];
      apply list_elem_of_fmap; exists blk'; (split; [done|]);
      by apply list_elem_of_filter. }
  pose proof (filter_cons (λ blk, datablock_type (datablock_info blk) = EMPTY) blk bs)
    as FE.
  pose proof (filter_cons (λ blk, datablock_type (datablock_info blk) = MESH) blk bs)
    as FM.
  rewrite FE in He, Hdisj. rewrite FM in Hm, Hdisj. clear FE FM.
  rewrite fmap_cons.
  destruct (datablock_type (datablock_info blk)) eqn:Ek.
  - rewrite decide_True in He, Hdisj by done.
    rewrite decide_False in Hm, Hdisj by done.
    rewrite fmap_cons in He, Hdisj. apply NoDup_cons in He as [Hnew He].
    constructor.
    + intros [Hx|Hx]%Hin; [done|].
      apply (Hdisj (node_name blk)); [by left | done].
    + apply IH; [done | done |]. intros x Hx. apply Hdisj. by right.
  - rewrite decide_False in He, Hdisj by done.
    rewrite decide_True in Hm, Hdisj by done.
    rewrite fmap_cons in Hm, Hdisj. apply NoDup_cons in Hm as [Hnew Hm].
    constructor.
    + intros [Hx|Hx]%Hin; [|done].
      apply (Hdisj (node_name blk)); [done | by left].
    + apply IH; [done | done |]. intros x Hx Hx'. apply (Hdisj x Hx). by right.
Qed.

(** X5. When no call carries a name hint, the mesh-kind nodes are named
    "ImpMesh.000_<tag>", "ImpMesh.001_<tag>", ... in the order of their
    creation, and all the nodes of the flat list, the root sentinel
    included, carry pairwise distinct names: the parent of a node, which is
    recorded by name, is never ambiguous. *)
Theorem node_names_distinct stem stream :
  Forall (λ c, call_name_hint c = "") stream →
  let b := (build_cmds stream (new_builder stem)).2 in
  names_of_kind MESH (_blocks b)
  = mesh_name stem <$> seq 0 (count_kind MESH (_blocks b))
  ∧ NoDup (node_name <$> _blocks b).
Proof.
  intros Hhints b.
  assert (Hm : meshes_numbered stem b).
  { apply (preserves_build_cmds (keeps (meshes_numbered stem))); [|by split].
    intros c Hc. rewrite Forall_forall in Hhints. rewrite (Hhints c Hc).
    apply build_cmd_keeps_meshes_numbered. }
  destruct Hm as [_ Hm].
  destruct (build_cmds_numbered stem stream) as [_ He]. fold b in He.
  split; [done|].
  apply NoDup_by_kind.
  - rewrite He. apply empty_names_NoDup.
  - rewrite Hm. apply (NoDup_fmap_2 _), NoDup_seq.
  - intros x. rewrite He, Hm.
    intros Hx (k & -> & _)%list_elem_of_fmap.
    apply elem_of_cons in Hx as [Hx | (k' & Hx & _)%list_elem_of_fmap];
      unfold mesh_name, empty_name in Hx; cbv [String.append] in Hx; discriminate.
Qed.

(** ** The hierarchy *)

Lemma rooted_snoc b pn blk' :
  rooted b → parent_name_of b = Done pn →
  parent_info (datablock_info blk') = Some (mkParentInfo pn) →
  (_blocks b ++ [blk']) !! 0 = Some root_intermediate_datablock
  ∧ contexts_on_empties (_blocks b ++ [blk']) (_anim_intermediate_stack b)
  ∧ ∀ i blk, (_blocks b ++ [blk']) !! i = Some blk → 0 < i →
             parent_resolves (_blocks b ++ [blk']) i blk.
Proof.
  intros (Hroot & Hst & Hres) Hpn Hparent.
  split; [by apply lookup_app_l_Some|]. split.
  { eapply Forall_impl; [exact Hst|]. simpl. intros e (pblk & Hp & Hk).
    exists pblk. split; [by apply lookup_app_l_Some | done]. }
  intros i blk Hi Hpos.
  destruct (decide (i < length (_blocks b))) as [Hlt|Hge].
  - rewrite lookup_app_l in Hi by done.
    destruct (Hres i blk Hi Hpos) as (p & j & pblk & ? & ? & Hj & ? & ?).
    exists p, j, pblk. repeat split; try done. by apply lookup_app_l_Some.
  - assert (i = length (_blocks b)) as ->.
    { apply lookup_lt_Some in Hi. rewrite length_app in Hi. simpl in Hi. lia. }
    rewrite lookup_app_r, Nat.sub_diag in Hi by done. injection Hi as <-.
    unfold parent_name_of, _top_intermediate_datablock in Hpn.
    unfold contexts_on_empties in Hst.
    destruct (_anim_intermediate_stack b) as [|e st]; simpl in Hpn.
    + injection Hpn as <-.
      exists (mkParentInfo "INTER_ROOT"), 0, root_intermediate_datablock.
      repeat split; try done. by apply lookup_app_l_Some.
    + apply Forall_cons in Hst as [(pblk & Hp & Hk) _].
      rewrite Hp in Hpn. injection Hpn as <-.
      exists (mkParentInfo (name (datablock_info pblk))),
        (intermediate_datablock e), pblk.
      repeat split; try done; [by eapply lookup_lt_Some | by apply lookup_app_l_Some].
Qed.

Lemma rooted_pushed b pn anims counts :
  rooted b → parent_name_of b = Done pn → rooted (pushed b pn anims counts).
Proof.
  intros Hb Hpn.
  destruct (rooted_snoc b pn (new_empty b pn anims) Hb Hpn eq_refl)
    as (Hroot & Hst & Hres).
  split; [done|]. split; [|done].
  constructor; [|done]. simpl.
  exists (new_empty b pn anims). split; [|done].
  by rewrite lookup_app_r, Nat.sub_diag.
Qed.

Lemma build_cmd_keeps_rooted directive args name_hint :
  preserves (keeps rooted) (build_cmd directive args name_hint).
Proof.
  apply preserves_build_cmd_by_branch; try apply _; unfold keeps.
  - by intros _ [].
  - by intros _ [].
  - intros _. apply preserves_on_TRIS; [apply _|].
    intros b pn start cnt Hpn Hb.
    destruct (rooted_snoc b pn
      (mkDatablock
         (mkDatablockInfo MESH
            (if decide (name_hint = "") then _next_object_name b else name_hint)
            (Some (mkParentInfo pn))) (Some start) (Some cnt) []) Hb Hpn eq_refl)
      as (Hroot & Hst & Hres).
    by destruct b.
  - by intros _ [].
  - intros _. split; [by intros [] |].
    intros [rc vt bs la st cs hp] g (Hroot & Hst & Hres).
    split; [done|]. split; [|done]. simpl in *.
    unfold contexts_on_empties in *.
    rewrite <- (take_drop (g st)) in Hst. by apply Forall_app in Hst as [_ ?].
  - by intros _ [].
  - intros _. apply preserves_begin_new_frame; [apply _ | |]; unfold keeps.
    + intros b pn Hpn _ Hb. by apply rooted_pushed.
    + intros b pn c cs Hpn _ Hb. by apply rooted_pushed.
  - intros _ f. apply preserves_update_top_animation; [apply _|]. by intros [].
Qed.

(** X6. The nodes form a forest under the root sentinel: whatever stream is
    processed, and however it ends, every node after the sentinel records
    as its parent the name of an empty-kind node that stands earlier in the
    list (the sentinel itself, or the empty of an enclosing frame), and
    every open context of the stack belongs to an empty-kind node. *)
Theorem parents_resolve stem stream :
  let b := (build_cmds stream (new_builder stem)).2 in
  (∀ i blk, _blocks b !! i = Some blk → 0 < i → parent_resolves (_blocks b) i blk)
  ∧ contexts_on_empties (_blocks b) (_anim_intermediate_stack b).
Proof.
  intros b.
  assert (Hb : rooted b).
  { apply (preserves_build_cmds (keeps rooted)).
    - intros c _. apply build_cmd_keeps_rooted.
    - split; [done|]. split; [constructor|].
      intros [|i] blk Hi Hpos; [lia | done]. }
  destruct Hb as (_ & Hst & Hres). done.
Qed.

(** ** The animations the builder makes *)

Lemma frame_bind_eq (post : M unit) b :
  (begin_new_frame ≫= λ _, post) b
  = match parent_name_of b with
    | Fail e => (Fail e, b)
    | Done pn =>
        match _anim_count b with
        | [] => (Fail IndexError, pushed b pn [] [])
        | c :: cs => post (framed b pn c cs new_animation)
        end
    end.
Proof.
  unfold mbind, M_bind. rewrite begin_new_frame_eq.
  destruct (parent_name_of b); [|done]. by destruct (_anim_count b).
Qed.

(** Two updates through [_top_animation] in a row are one update. *)
Lemma update_twice f g b :
  (update_top_animation f ≫= λ _, update_top_animation g) b
  = update_top_animation (g ∘ f) b.
Proof.
  unfold mbind, M_bind. rewrite !update_top_animation_eq.
  destruct (_anim_intermediate_stack b) as [|e st] eqn:Est; [done|].
  destruct (anim_heap b !! animation e) as [a|] eqn:Ea; [|done].
  rewrite update_top_animation_eq. destruct b as [rc vt bs la st' cs hp].
  simpl in *. subst st'.
  rewrite list_lookup_insert_eq by (by eapply lookup_lt_Some).
  unfold set_heap. simpl. by rewrite list_insert_insert_eq.
Qed.

Lemma update_keeps_store (P : IntermediateAnimation → Prop) f b :
  (∀ a, P a → P (f a)) →
  Forall P (anim_heap b) → Forall P (anim_heap (update_top_animation f b).2).
Proof.
  intros Hf Hall. rewrite update_top_animation_eq.
  destruct (_anim_intermediate_stack b) as [|e st]; [done|].
  destruct (anim_heap b !! animation e) as [a|] eqn:Ea; [|done].
  destruct b. simpl in *. apply Forall_insert; [done|].
  apply Hf. rewrite Forall_forall in Hall. apply Hall.
  by eapply list_elem_of_lookup_2.
Qed.

Lemma frame_keeps_store (P : IntermediateAnimation → Prop) (post : M unit) F b :
  (∀ b0 pn c cs, post (framed b0 pn c cs new_animation)
                 = (Done tt, framed b0 pn c cs F)) →
  P new_animation → P F →
  Forall P (anim_heap b) →
  Forall P (anim_heap ((begin_new_frame ≫= λ _, post) b).2).
Proof.
  intros Hpost Hnew HF Hall. rewrite frame_bind_eq.
  destruct (parent_name_of b) as [pn|]; [|done].
  destruct (_anim_count b) as [|c cs].
  - simpl. apply Forall_app. split; [done | by constructor].
  - rewrite Hpost. simpl. apply Forall_app. split; [done | by constructor].
Qed.

(** Every animation of the store is a fresh one, one of the five initial
    forms the frame directives give it, or the result of a key directive
    applied to an animation of the store: a property that holds of the
    former and is kept by the latter holds throughout the store. *)
Lemma built_animations_ind (P : IntermediateAnimation → Prop) :
  P new_animation →
  (∀ pth, P (mkAnimation [] [] (fresh_dataref pth))) →
  (∀ kind pth v1 v2, P (mkAnimation [] [] (mkDataref kind num_zero pth v1 v2 []))) →
  (∀ xyz1 xyz2 v1 v2 pth,
     P (mkAnimation [xyz1; xyz2] []
          (mkDataref ANIM_TYPE_TRANSFORM num_zero pth num_zero num_zero [v1; v2]))) →
  (∀ dxyz r1 r2 v1 v2 pth,
     P (mkAnimation [] [(dxyz, [r1; r2])]
          (mkDataref ANIM_TYPE_TRANSFORM num_zero pth num_zero num_zero [v1; v2]))) →
  (∀ a k, P a → P (trans_key a k)) →
  (∀ a axis k, P a → P (rotate_key axis a k)) →
  (∀ a lp, P a → P (update_dataref (with_loop lp) a)) →
  ∀ directive args name_hint b,
    Forall P (anim_heap b) →
    Forall P (anim_heap (build_cmd directive args name_hint b).2).
Proof.
  intros Hnew Hbegin Hshow Htrans Hrot Htk Hrk Hloop directive args name_hint b Hall.
  unfold build_cmd.
  repeat match goal with
  | |- context [decide (directive = ?s)] =>
      destruct (decide (directive = s))
  | |- context [decide (directive ∈ ?l)] =>
      destruct (decide (directive ∈ l))
  end.
  all: lazymatch goal with
  | |- context [on_TRIS] =>
      unfold on_TRIS; repeat case_match; try exact Hall;
      unfold_M; unfold block_name;
      (destruct (_anim_intermediate_stack b) as [|ent st]; simpl;
         [destruct b; exact Hall|]);
      (destruct (_blocks b !! intermediate_datablock ent); simpl;
         [destruct b; exact Hall | exact Hall])
  | |- context [on_ANIM_end] =>
      unfold on_ANIM_end;
      unfold mbind at 1, M_bind at 1, get at 1; cbn beta iota;
      destruct (_anim_count b) as [|k ks]; [exact Hall|];
      unfold mbind, M_bind, modify; rewrite pop_frames_eq;
      case_decide; destruct b; exact Hall
  | |- context [on_ANIM_trans_begin] =>
      unfold on_ANIM_trans_begin; repeat case_match; try exact Hall;
      eapply frame_keeps_store; [|exact Hnew|apply Hbegin|exact Hall];
      intros; by rewrite update_framed
  | |- context [on_ANIM_trans_key] =>
      unfold on_ANIM_trans_key; repeat case_match; try exact Hall;
      rewrite update_twice; apply update_keeps_store; [|done];
      intros a Ha; apply (Htk a (_, _) Ha)
  | |- context [on_ANIM_hide_show] =>
      unfold on_ANIM_hide_show; repeat case_match; try exact Hall;
      eapply frame_keeps_store; [|exact Hnew|apply Hshow|exact Hall];
      intros; unfold mbind, M_bind; by rewrite !update_framed
  | |- context [on_ANIM_rotate_begin] =>
      unfold on_ANIM_rotate_begin; repeat case_match; try exact Hall;
      unfold mbind at 1, M_bind at 1; unfold modify at 1;
      eapply frame_keeps_store; [|exact Hnew|apply Hbegin|by destruct b];
      intros; by rewrite update_framed
  | |- context [on_ANIM_rotate_key] =>
      unfold on_ANIM_rotate_key; repeat case_match; try exact Hall;
      unfold mbind at 1, M_bind at 1;
      unfold top_animation_object;
      destruct (_top_animation b) as [addr|]; [|exact Hall];
      destruct (anim_heap b !! addr) as [a0|]; [|exact Hall];
      unfold mbind at 1, M_bind at 1; unfold get at 1;
      destruct (_last_axis b) as [axis|]; [|exact Hall];
      rewrite update_twice; apply update_keeps_store; [|done];
      intros a Ha; apply (Hrk a axis (_, _) Ha)
  | |- context [on_ANIM_keyframe_loop] =>
      unfold on_ANIM_keyframe_loop; repeat case_match; try exact Hall;
      (apply update_keeps_store; [intros a Ha; by apply Hloop | done])
  | |- context [on_ANIM_trans] =>
      unfold on_ANIM_trans; repeat case_match; try exact Hall;
      eapply frame_keeps_store; [|exact Hnew|apply Htrans|exact Hall];
      intros; unfold mbind, M_bind; by rewrite !update_framed
  | |- context [on_ANIM_rotate] =>
      unfold on_ANIM_rotate; repeat case_match; try exact Hall;
      (eapply frame_keeps_store;
         [ intros; unfold mbind, M_bind; by rewrite !update_framed
         | exact Hnew
         | unfold update_dataref, update_rotations, with_path, with_values,
             new_animation, new_dataref; simpl;
           rewrite decide_True by done; apply Hrot
         | exact Hall ])
  | |- _ =>
      unfold on_VT, on_IDX, on_IDX10, on_ANIM_begin, on_ANIM_rotate_end;
      repeat case_match; try exact Hall; destruct b; exact Hall
  end.
Qed.

Lemma built_animations_stream (P : IntermediateAnimation → Prop) stream :
  (∀ directive args name_hint b,
     Forall P (anim_heap b) →
     Forall P (anim_heap (build_cmd directive args name_hint b).2)) →
  ∀ b, Forall P (anim_heap b) → Forall P (anim_heap (build_cmds stream b).2).
Proof.
  intros Hstep b.
  apply (preserves_build_cmds (keeps (λ b, Forall P (anim_heap b)))).
  intros c _ b0 Hb0. by apply Hstep.
Qed.

Lemma rotations_append_degrees axis d (rots : list (Vector * list num)) :
  sum_list_with (λ p, length p.2) (rotations_append axis d rots)
  = S (sum_list_with (λ p, length p.2) rots).
Proof.
  induction rots as [|[k ds] rest IH]; [done|]. simpl.
  case_decide; simpl; [rewrite length_app; simpl; lia | rewrite IH; lia].
Qed.

Lemma rotations_append_filled axis d (rots : list (Vector * list num)) :
  Forall (λ p, p.2 ≠ []) rots → Forall (λ p, p.2 ≠ []) (rotations_append axis d rots).
Proof.
  induction 1 as [|[k ds] rest Hk Hrest IH]; simpl; [by repeat constructor|].
  case_decide; constructor; simpl in *; try done. by destruct ds.
Qed.

Lemma build_cmd_keeps_keyed directive args name_hint b :
  Forall one_value_per_key (anim_heap b) →
  Forall one_value_per_key (anim_heap (build_cmd directive args name_hint b).2).
Proof.
  apply built_animations_ind; unfold one_value_per_key, degrees_recorded.
  - by split.
  - by split.
  - by split.
  - by split.
  - intros. split; [done | by repeat constructor].
  - intros a k [Hlen Hfill]. split; [|done]. simpl.
    rewrite !length_app, Hlen. simpl. lia.
  - intros a axis k [Hlen Hfill]. split; simpl.
    + rewrite length_app, rotations_append_degrees, Hlen. simpl. lia.
    + by apply rotations_append_filled.
  - by intros a lp [Hlen Hfill].
Qed.

(** X7. In every animation the builder holds, whatever stream was
    processed and however it ended, the driver values are exactly as many as
    the recorded locations and degree values taken together, and every axis
    of the rotation map holds at least one degree value. *)
Theorem one_driver_value_per_key stem stream :
  Forall (λ a,
      length (values (xp_dataref a))
      = length (locations a) + sum_list_with (λ p, length p.2) (rotations a)
      ∧ Forall (λ p, p.2 ≠ []) (rotations a))
    (anim_heap (build_cmds stream (new_builder stem)).2).
Proof.
  apply (built_animations_stream one_value_per_key); [|constructor].
  apply build_cmd_keeps_keyed.
Qed.

Lemma keyed_short_iff a :
  one_value_per_key a →
  short_of a (length (values (xp_dataref a))) ↔ mixed_keys a.
Proof.
  unfold one_value_per_key, degrees_recorded, short_of, mixed_keys.
  intros [-> Hfill]. split.
  - intros [[Hne Hlt] | Hex].
    + left. split; [done|]. intros Hr. rewrite Hr in Hlt. simpl in Hlt. lia.
    + apply Exists_exists in Hex as (p & Hp & Hlt).
      destruct (rotations a) as [|q [|q' rest]] eqn:Er; [by inversion Hp | |right; simpl; lia].
      apply list_elem_of_singleton in Hp as ->. simpl in Hlt.
      left. split; [|done]. intros Hl. rewrite Hl in Hlt. simpl in Hlt. lia.
  - intros [[Hne Hr] | Hlen].
    + left. split; [done|].
      destruct (rotations a) as [|q rest]; [done|].
      apply Forall_cons in Hfill as [Hq _]. simpl.
      destruct (q.2); [done | simpl; lia].
    + right. destruct (rotations a) as [|q [|q' rest]]; [simpl in Hlen; lia.. |].
      apply Forall_cons in Hfill as [_ [Hq' _]%Forall_cons].
      apply Exists_cons. left. simpl.
      destruct (q'.2); [done | simpl; lia].
Qed.

Lemma degrees_recorded_bound (rots : list (Vector * list num)) p :
  p ∈ rots → length p.2 ≤ sum_list_with (λ p, length p.2) rots.
Proof.
  induction rots as [|q rest IH]; [by inversion 1|].
  intros [->|Hp]%elem_of_cons; simpl; [lia|]. specialize (IH Hp). lia.
Qed.

(** C6, as the code has it. Nothing checks the lengths when a transform
    animation is built, and the equality the invariant asks for never holds
    for an animation the builder made with both lists populated: whatever
    stream was processed, the locations list and the degree list of every
    axis are then strictly shorter than the value sequence. Such an
    animation is not truncated to the shorter length: keyframe generation
    raises [IndexError]. *)
Theorem sample_count_unchecked stem stream a :
  a ∈ anim_heap (build_cmds stream (new_builder stem)).2 →
  anim_type (xp_dataref a) = ANIM_TYPE_TRANSFORM →
  locations a ≠ [] → rotations a ≠ [] →
  length (locations a) < length (values (xp_dataref a))
  ∧ Forall (λ p, length p.2 < length (values (xp_dataref a))) (rotations a)
  ∧ apply_animation a = Fail IndexError.
Proof.
  intros Ha Hkind Hloc Hrot.
  assert (Hkeyed : one_value_per_key a).
  { assert (Hall : Forall one_value_per_key
                       (anim_heap (build_cmds stream (new_builder stem)).2)).
    { apply (built_animations_stream one_value_per_key); [|constructor].
      apply build_cmd_keeps_keyed. }
    rewrite Forall_forall in Hall. by apply Hall. }
  destruct Hkeyed as [Hlen Hfill]. unfold degrees_recorded in Hlen.
  assert (Hlt : length (locations a) < length (values (xp_dataref a))).
  { rewrite Hlen. destruct (rotations a) as [|q rest]; [done|].
    apply Forall_cons in Hfill as [Hq _]. simpl.
    destruct (q.2); [done | simpl; lia]. }
  split; [exact Hlt|]. split.
  - apply Forall_forall. intros p Hp.
    pose proof (degrees_recorded_bound _ _ Hp).
    destruct (locations a); [done | simpl in *; lia].
  - unfold apply_animation. rewrite decide_True by done.
    rewrite (transform_keyframes_fail a _ 0 1); [done | | apply short_of_0].
    by left.
Qed.

(** X8. Keyframe generation for a transform-kind animation that the
    builder made succeeds exactly when its keys are of one family: locations
    only, or degree values on one axis only. As soon as an animation has
    received keys of both families, or degree values on two axes, every one
    of its lists is shorter than the value sequence and [apply_animation]
    raises [IndexError]; otherwise it returns one keyframe per driver
    value. *)
Theorem keyframes_need_one_family stem stream a :
  a ∈ anim_heap (build_cmds stream (new_builder stem)).2 →
  anim_type (xp_dataref a) = ANIM_TYPE_TRANSFORM →
  (apply_animation a = Fail IndexError ↔ mixed_keys a)
  ∧ (¬ mixed_keys a →
     ∃ kfs, apply_animation a = Done kfs
            ∧ length kfs = length (values (xp_dataref a))).
Proof.
  intros Ha Hkind.
  assert (Hkeyed : one_value_per_key a).
  { assert (Hall : Forall one_value_per_key
                       (anim_heap (build_cmds stream (new_builder stem)).2)).
    { apply (built_animations_stream one_value_per_key); [|constructor].
      apply build_cmd_keeps_keyed. }
    rewrite Forall_forall in Hall. by apply Hall. }
  pose proof (keyed_short_iff a Hkeyed) as Hiff.
  unfold apply_animation. rewrite decide_True by done.
  destruct (decide (short_of a (length (values (xp_dataref a))))) as [Hs|Hs].
  - rewrite (transform_keyframes_fail a _ 0 1); [|done | apply short_of_0].
    split; [by rewrite <- Hiff | by rewrite <- Hiff].
  - rewrite (transform_keyframes_done a _ 0) by done.
    split; [by rewrite <- Hiff|].
    intros _. eexists. split; [done|]. by rewrite length_imap.
Qed.

(** ** The frame directives in closed form *)

Lemma frame_call_eq (f : FrameCall) b :
  run (frame_call f) b
  = match parent_name_of b with
    | Fail e => (Fail e, set_last_axis (axis_after f b) b)
    | Done pn =>
        match _anim_count b with
        | [] => (Fail IndexError, set_last_axis (axis_after f b) (pushed b pn [] []))
        | c :: cs =>
            (Done tt,
             set_last_axis (axis_after f b) (framed b pn c cs (frame_animation f)))
        end
    end.
Proof.
  destruct f; unfold run, frame_call, call_directive, call_args, call_name_hint.
  - change (build_cmd "ANIM_trans_begin" [PStr pth] "")
      with (on_ANIM_trans_begin [PStr pth]).
    unfold on_ANIM_trans_begin. rewrite frame_bind_eq.
    destruct (parent_name_of b); [|by destruct b].
    destruct (_anim_count b); [by destruct b|]. rewrite update_framed. by destruct b.
  - change (build_cmd "ANIM_hide" [PFloat v1; PFloat v2; PStr pth] "")
      with (on_ANIM_hide_show "ANIM_hide" [PFloat v1; PFloat v2; PStr pth]).
    unfold on_ANIM_hide_show. rewrite frame_bind_eq.
    destruct (parent_name_of b); [|by destruct b].
    destruct (_anim_count b); [by destruct b|].
    unfold mbind, M_bind. rewrite !update_framed. by destruct b.
  - change (build_cmd "ANIM_show" [PFloat v1; PFloat v2; PStr pth] "")
      with (on_ANIM_hide_show "ANIM_show" [PFloat v1; PFloat v2; PStr pth]).
    unfold on_ANIM_hide_show. rewrite frame_bind_eq.
    destruct (parent_name_of b); [|by destruct b].
    destruct (_anim_count b); [by destruct b|].
    unfold mbind, M_bind. rewrite !update_framed. by destruct b.
  - change (build_cmd "ANIM_rotate_begin" [PVec axis; PStr pth] "")
      with (on_ANIM_rotate_begin [PVec axis; PStr pth]).
    unfold on_ANIM_rotate_begin.
    unfold mbind at 1, M_bind at 1. unfold modify at 1. rewrite frame_bind_eq.
    change (parent_name_of (set_last_axis (Some (vabs axis)) b))
      with (parent_name_of b).
    change (_anim_count (set_last_axis (Some (vabs axis)) b)) with (_anim_count b).
    destruct (parent_name_of b); [|done].
    destruct (_anim_count b); [done|]. by rewrite update_framed.
  - change (build_cmd "ANIM_trans"
              [PVec xyz1; PVec xyz2; PFloat v1; PFloat v2; PStr pth] "")
      with (on_ANIM_trans [PVec xyz1; PVec xyz2; PFloat v1; PFloat v2; PStr pth]).
    unfold on_ANIM_trans. rewrite frame_bind_eq.
    destruct (parent_name_of b); [|by destruct b].
    destruct (_anim_count b); [by destruct b|].
    unfold mbind, M_bind. rewrite !update_framed. by destruct b.
  - change (build_cmd "ANIM_rotate"
              [PVec dxyz; PFloat r1; PFloat r2; PFloat v1; PFloat v2; PStr pth] "")
      with (on_ANIM_rotate
              [PVec dxyz; PFloat r1; PFloat r2; PFloat v1; PFloat v2; PStr pth]).
    unfold on_ANIM_rotate. rewrite frame_bind_eq.
    destruct (parent_name_of b); [|by destruct b].
    destruct (_anim_count b); [by destruct b|].
    unfold mbind, M_bind. rewrite !update_framed.
    unfold frame_animation, update_dataref, update_rotations, with_path,
      with_values, new_animation, new_dataref. simpl.
    rewrite decide_True by done. by destruct b.
Qed.

(** X9. A directive that opens a frame ([ANIM_trans_begin], [ANIM_hide],
    [ANIM_show], [ANIM_rotate_begin], [ANIM_trans], [ANIM_rotate]), issued
    while no [ANIM_begin] bracket is open, raises [IndexError], and the
    failed call is not undone: the builder is left with one more empty-kind
    node that carries no animation, one more context on the stack and one
    more animation in the store ([ANIM_rotate_begin] has also replaced the
    remembered axis). *)
Theorem frame_call_outside_bracket (f : FrameCall) b :
  wf_builder b → _anim_count b = [] →
  ∃ pn,
    parent_name_of b = Done pn
    ∧ run (frame_call f) b
      = (Fail IndexError,
         mkBuilder (root_collection b) (vt_table b)
           (_blocks b ++ [new_empty b pn []]) (axis_after f b)
           (mkEntry (length (anim_heap b)) (length (_blocks b))
              :: _anim_intermediate_stack b)
           [] (anim_heap b ++ [new_animation])).
Proof.
  intros Hwf Hc. destruct (wf_parent_name b Hwf) as [pn Hpn].
  exists pn. split; [done|]. by rewrite frame_call_eq, Hpn, Hc.
Qed.

(** X10. Inside an open bracket each of the six frame directives succeeds,
    and its whole effect is this: one empty-kind node is appended, named by
    [_next_empty_name], with the node of the enclosing frame (or the root
    sentinel) as parent and the new animation as its one pending animation;
    a context for it is pushed; the innermost open count goes up by one; and
    the new animation has the content the directive gives it (the path and
    thresholds for show and hide, the two locations or the two degree values
    with their two driver values for the static forms, an empty transform
    track for the two [begin] forms). *)
Theorem frame_call_in_bracket (f : FrameCall) b c cs :
  wf_builder b → _anim_count b = c :: cs →
  ∃ pn,
    parent_name_of b = Done pn
    ∧ run (frame_call f) b
      = (Done tt,
         mkBuilder (root_collection b) (vt_table b)
           (_blocks b ++ [new_empty b pn [length (anim_heap b)]]) (axis_after f b)
           (mkEntry (length (anim_heap b)) (length (_blocks b))
              :: _anim_intermediate_stack b)
           (S c :: cs) (anim_heap b ++ [frame_animation f])).
Proof.
  intros Hwf Hc. destruct (wf_parent_name b Hwf) as [pn Hpn].
  exists pn. split; [done|]. by rewrite frame_call_eq, Hpn, Hc.
Qed.

(** ** The key directives *)

(** X11. A key directive ([ANIM_trans_key], [ANIM_rotate_key],
    [ANIM_keyframe_loop]) issued while no frame is open finds
    [_top_animation] to be [None]: it raises [AttributeError] and leaves the
    builder exactly as it was. *)
Theorem key_call_outside_frame (k : KeyCall) b :
  _anim_intermediate_stack b = [] →
  run (key_call k) b = (Fail AttributeError, b).
Proof.
  intros Hst.
  destruct k as [v loc | v deg | lp];
    unfold run, key_call, call_directive, call_args, call_name_hint.
  - change (build_cmd "ANIM_trans_key" [PFloat v; PVec loc] "")
      with (on_ANIM_trans_key [PFloat v; PVec loc]).
    unfold on_ANIM_trans_key. unfold mbind, M_bind.
    by rewrite update_top_animation_eq, Hst.
  - change (build_cmd "ANIM_rotate_key" [PFloat v; PFloat deg] "")
      with (on_ANIM_rotate_key [PFloat v; PFloat deg]).
    unfold on_ANIM_rotate_key. unfold mbind, M_bind.
    unfold top_animation_object, _top_animation. by rewrite Hst.
  - change (build_cmd "ANIM_keyframe_loop" [PFloat lp] "")
      with (on_ANIM_keyframe_loop [PFloat lp]).
    unfold on_ANIM_keyframe_loop. cbn beta iota.
    by rewrite update_top_animation_eq, Hst.
Qed.

(** X12. [ANIM_rotate_key] needs the axis that [ANIM_rotate_begin]
    remembered: when none is remembered, and in particular right after
    [ANIM_rotate_end], it raises [AttributeError] and records nothing. *)
Theorem rotate_key_needs_axis b value degrees :
  wf_builder b →
  (_last_axis b = None →
   run (key_call (CallRotateKey value degrees)) b = (Fail AttributeError, b))
  ∧ build_cmds [rotate_end_call; key_call (CallRotateKey value degrees)] b
    = (Fail AttributeError, set_last_axis None b).
Proof.
  intros [Hst _].
  assert (Hkey : ∀ b0, _anim_intermediate_stack b0 = _anim_intermediate_stack b →
            anim_heap b0 = anim_heap b → _last_axis b0 = None →
            on_ANIM_rotate_key [PFloat value; PFloat degrees] b0
            = (Fail AttributeError, b0)).
  { intros b0 Hst0 Hhp0 Hax. unfold on_ANIM_rotate_key. unfold mbind, M_bind.
    unfold top_animation_object, _top_animation. rewrite Hst0, Hhp0.
    destruct Hst as [|e st [He _] _]; simpl; [done|].
    destruct (lookup_lt_is_Some_2 _ _ He) as [a ->].
    unfold get. by rewrite Hax. }
  split.
  - intros Hax. by apply Hkey.
  - cbn [build_cmds rotate_end_call key_call call_directive call_args call_name_hint].
    change (build_cmd "ANIM_rotate_end" [] "") with on_ANIM_rotate_end.
    change (build_cmd "ANIM_rotate_key" [PFloat value; PFloat degrees] "")
      with (on_ANIM_rotate_key [PFloat value; PFloat degrees]).
    unfold mbind at 1 2, M_bind at 1 2. unfold on_ANIM_rotate_end, modify.
    rewrite Hkey; [done | by destruct b..].
Qed.

#[local] Instance top_animation_only_preorder : PreOrder top_animation_only.
Proof.
  split.
  - intros b. by repeat split.
  - intros b1 b2 b3 (? & ? & ? & ? & Hst & ? & ? & Hh) (? & ? & ? & ? & ? & ? & ? & Hh').
    repeat split; try congruence.
    intros addr Haddr. rewrite Hh'; [by apply Hh|].
    unfold _top_animation in *. by rewrite Hst.
Qed.

(** X13. The three key directives write to the animation on top of the
    context stack and to nothing else: whatever their arguments and however
    the call ends, the node list, the vertex and index table, the context
    stack, the open counts, the remembered axis and every other animation
    of the store are as before. *)
Theorem key_directive_writes_top_only directive args name_hint b :
  directive ∈ key_directives →
  top_animation_only b (build_cmd directive args name_hint b).2.
Proof.
  intros Hkey. revert b.
  unfold key_directives in Hkey. rewrite !elem_of_cons, elem_of_nil in Hkey.
  apply preserves_build_cmd_by_branch; try apply _.
  all: try (intros Hd; exfalso; unfold frame_directives in Hd;
            rewrite ?elem_of_cons, ?elem_of_nil in Hd;
            destruct Hkey as [->|[->|[->|[]]]];
            intuition discriminate).
  intros _ f b. rewrite update_top_animation_eq.
  destruct (_anim_intermediate_stack b) as [|e st] eqn:Est; [reflexivity|].
  destruct (anim_heap b !! animation e) as [a|] eqn:Ea; [|reflexivity].
  destruct b as [rc vt bs la st' cs hp].
  unfold top_animation_only, _top_animation. simpl in *. subst st'.
  rewrite length_insert. repeat split; try done.
  intros addr Haddr. apply list_lookup_insert_ne. simpl in Haddr. congruence.
Qed.

(** ** Keys inside a frame *)

Lemma trans_key_framed value location b pn c cs a :
  run (trans_key_call value location) (framed b pn c cs a)
  = (Done tt, framed b pn c cs (trans_key a (value, location))).
Proof.
  unfold run, trans_key_call, call_directive, call_args, call_name_hint.
  change (build_cmd "ANIM_trans_key" [PFloat value; PVec location] "")
    with (on_ANIM_trans_key [PFloat value; PVec location]).
  unfold on_ANIM_trans_key. unfold mbind, M_bind. by rewrite !update_framed.
Qed.

Lemma trans_keys_framed keys : ∀ b pn c cs a,
  build_cmds (trans_key_calls keys) (framed b pn c cs a)
  = (Done tt, framed b pn c cs (foldl trans_key a keys)).
Proof.
  induction keys as [|k keys IH]; intros b pn c cs a; [done|].
  cbn [trans_key_calls fmap list_fmap build_cmds].
  fold (run (trans_key_call k.1 k.2)).
  unfold mbind at 1, M_bind at 1. rewrite trans_key_framed.
  destruct k. apply IH.
Qed.

Lemma build_cmds_app s1 s2 b :
  build_cmds (s1 ++ s2) b
  = match build_cmds s1 b with
    | (Done _, b1) => build_cmds s2 b1
    | (Fail e, b1) => (Fail e, b1)
    end.
Proof.
  revert b. induction s1 as [|c s1 IH]; intros b; [done|].
  simpl. unfold mbind, M_bind.
  destruct (build_cmd _ _ _ b) as [[[]|e] b1]; [apply IH | done].
Qed.

Lemma build_cmds_single c b : build_cmds [c] b = run c b.
Proof.
  unfold run. cbn [build_cmds]. unfold mbind, M_bind.
  by destruct (build_cmd _ _ _ b) as [[[]|e] b1].
Qed.

(** X14. The static [ANIM_trans] is a shorthand: whatever the builder, it
    has exactly the outcome of [ANIM_trans_begin] with the path, one
    [ANIM_trans_key] per value and location, and [ANIM_trans_end]. *)
Theorem anim_trans_is_shorthand xyz1 xyz2 v1 v2 pth b :
  run (frame_call (CallTrans xyz1 xyz2 v1 v2 pth)) b
  = build_cmds [frame_call (CallTransBegin pth); trans_key_call v1 xyz1;
                trans_key_call v2 xyz2; trans_end_call] b.
Proof.
  cbn [build_cmds]. fold (run (frame_call (CallTransBegin pth))).
  fold (run (trans_key_call v1 xyz1)). fold (run (trans_key_call v2 xyz2)).
  unfold mbind at 1, M_bind at 1. rewrite !frame_call_eq.
  destruct (parent_name_of b) as [pn|]; [|done].
  destruct (_anim_count b) as [|c cs]; [done|].
  change (set_last_axis (axis_after (CallTransBegin pth) b)
            (framed b pn c cs (frame_animation (CallTransBegin pth))))
    with (framed b pn c cs (frame_animation (CallTransBegin pth))) at 1.
  unfold mbind at 1, M_bind at 1. rewrite trans_key_framed.
  unfold mbind at 1, M_bind at 1. rewrite trans_key_framed.
  by destruct b.
Qed.

(** X15. For an axis without negative components the static [ANIM_rotate]
    is a shorthand in the same way, except for the axis the builder
    remembers: it raises or returns as [ANIM_rotate_begin], two
    [ANIM_rotate_key] calls and [ANIM_rotate_end] do, and leaves the same
    builder but for [_last_axis], which the static form does not touch and
    the long form ends by clearing (or, when [begin_new_frame] raises, by
    leaving set). *)
Theorem anim_rotate_is_shorthand dxyz r1 r2 v1 v2 pth b :
  vabs dxyz = dxyz →
  let short := run (frame_call (CallRotate dxyz r1 r2 v1 v2 pth)) b in
  let long := build_cmds [frame_call (CallRotateBegin dxyz pth);
                          key_call (CallRotateKey v1 r1);
                          key_call (CallRotateKey v2 r2); rotate_end_call] b in
  short.1 = long.1
  ∧ set_last_axis None short.2 = set_last_axis None long.2
  ∧ _last_axis short.2 = _last_axis b
  ∧ (long.1 = Done tt → _last_axis long.2 = None).
Proof.
  intros Habs short long. unfold short, long. clear short long.
  change [frame_call (CallRotateBegin dxyz pth); key_call (CallRotateKey v1 r1);
          key_call (CallRotateKey v2 r2); rotate_end_call]
    with ([frame_call (CallRotateBegin dxyz pth)]
          ++ rotate_key_calls [(v1, r1); (v2, r2)] ++ [rotate_end_call]).
  rewrite build_cmds_app, build_cmds_single, !frame_call_eq.
  destruct (parent_name_of b) as [pn|];
    [|simpl; repeat split; try done; by destruct b].
  destruct (_anim_count b) as [|c cs];
    [simpl; repeat split; try done; by destruct b|].
  cbn [mret M_ret].
  rewrite build_cmds_app.
  change (set_last_axis (axis_after (CallRotateBegin dxyz pth) b)
            (framed b pn c cs (frame_animation (CallRotateBegin dxyz pth))))
    with (framed (set_last_axis (Some (vabs dxyz)) b) pn c cs
            (frame_animation (CallRotateBegin dxyz pth))).
  rewrite (rotate_keys_framed _ _ _ _ _ _ (vabs dxyz)) by done.
  cbn [build_cmds]. change (build_cmd (call_directive rotate_end_call)
    (call_args rotate_end_call) (call_name_hint rotate_end_call))
    with on_ANIM_rotate_end.
  unfold mbind, M_bind, on_ANIM_rotate_end, modify. cbn [foldl].
  unfold rotate_key, update_dataref, update_rotations, with_values,
    frame_animation, fresh_dataref. simpl.
  rewrite Habs, decide_True by done.
  repeat split; try done; by destruct b.
Qed.

(** ** Open counts and the context stack *)

Lemma build_cmd_keeps_counted directive args name_hint b b' :
  contexts_counted b →
  build_cmd directive args name_hint b = (Done tt, b') →
  contexts_counted b'.
Proof.
  unfold contexts_counted. intros Hb Hrun.
  destruct (decide (directive ∈ frame_directives)) as [Hf|Hf].
  { apply opener_opened in Hrun as (c & cs & e & Hc & Hc' & Hs' & _); [|done].
    rewrite Hc', Hs'. rewrite Hc in Hb. simpl in *. lia. }
  destruct (decide (directive = "ANIM_begin")) as [->|Hb'].
  { rewrite anim_begin_run in Hrun. injection Hrun as <-. by destruct b. }
  destruct (decide (directive = "ANIM_end")) as [->|He].
  { rewrite anim_end_run in Hrun.
    destruct (_anim_count b) as [|n cs] eqn:Ec; [done|].
    case_decide as Hle; [|done]. injection Hrun as <-.
    destruct b as [rc vt bs la st cs' hp]. simpl in *. subst cs'.
    rewrite length_drop. simpl in Hb. lia. }
  pose proof (plain_same_frames directive args name_hint Hb' He Hf b)
    as (Hc & Hs & _).
  rewrite Hrun in Hc, Hs. simpl in Hc, Hs. by rewrite Hc, Hs.
Qed.

(** X16. As long as no call has raised, the contexts on the stack are as
    many as the open counts add up to. Hence [ANIM_end] then fails only for
    want of an open bracket, never for want of contexts to pop, and outside
    every bracket the context stack is empty. *)
Theorem open_contexts_are_counted stem stream b :
  build_cmds stream (new_builder stem) = (Done tt, b) →
  length (_anim_intermediate_stack b) = sum_list (_anim_count b)
  ∧ (∀ args name_hint,
       (build_cmd "ANIM_end" args name_hint b).1 = Done tt ↔ _anim_count b ≠ [])
  ∧ (_anim_count b = [] → _anim_intermediate_stack b = []).
Proof.
  intros Hrun.
  assert (Hb : contexts_counted b).
  { assert (Hgen : ∀ b0, contexts_counted b0 →
              build_cmds stream b0 = (Done tt, b) → contexts_counted b).
    { clear Hrun. induction stream as [|c rest IH]; intros b0 Hb0 Hrun.
      - by injection Hrun as <-.
      - apply build_cmds_cons_done in Hrun as (b1 & Hstep & Hrest).
        eapply IH; [|exact Hrest]. by eapply build_cmd_keeps_counted. }
    by apply (Hgen (new_builder stem)). }
  unfold contexts_counted in Hb. split; [done|]. split.
  - intros args name_hint. rewrite anim_end_run.
    destruct (_anim_count b) as [|n cs]; [done|].
    rewrite decide_True by (simpl in Hb; lia). done.
  - intros Hc. rewrite Hc in Hb. by apply nil_length_inv.
Qed.

(** ** Whole tracks *)

Lemma trans_keys_content keys : ∀ a,
  foldl trans_key a keys
  = mkAnimation (locations a ++ keys.*2) (rotations a)
      (with_values (λ vs, vs ++ keys.*1) (xp_dataref a)).
Proof.
  induction keys as [|k keys IH]; intros a.
  - destruct a as [ls rs []]. unfold with_values. simpl. by rewrite !app_nil_r.
  - cbn [foldl]. rewrite IH. unfold trans_key, with_values. simpl.
    by rewrite <- !app_assoc.
Qed.

(** X17. A translation track from beginning to end: inside an open
    bracket, [ANIM_trans_begin] with a path, any number of [ANIM_trans_key]
    calls and [ANIM_trans_end] succeed and leave on top of the stack a
    transform animation holding the keys' locations and values in the order
    of the calls, and keyframe generation turns it into one keyframe per
    key, numbered from 1, pairing each value with its location. *)
Theorem trans_track_keyframes b c cs pth (keys : list (num * Vector)) :
  wf_builder b → _anim_count b = c :: cs →
  let track := mkAnimation keys.*2 [] (with_values (λ _, keys.*1) (fresh_dataref pth)) in
  ∃ b',
    build_cmds (frame_call (CallTransBegin pth) :: trans_key_calls keys
                ++ [trans_end_call]) b = (Done tt, b')
    ∧ top_animation_object b' = (Done track, b')
    ∧ _anim_count b' = S c :: cs
    ∧ apply_animation track = Done (imap (trans_keyframe pth) keys).
Proof.
  intros Hwf Hc track. destruct (wf_parent_name b Hwf) as [pn Hpn].
  exists (framed b pn c cs track). split; [|split; [|split]].
  - change (frame_call (CallTransBegin pth) :: trans_key_calls keys ++ [trans_end_call])
      with ([frame_call (CallTransBegin pth)] ++ trans_key_calls keys ++ [trans_end_call]).
    rewrite build_cmds_app, build_cmds_single, frame_call_eq, Hpn, Hc.
    change (set_last_axis (axis_after (CallTransBegin pth) b)
              (framed b pn c cs (frame_animation (CallTransBegin pth))))
      with (framed b pn c cs (frame_animation (CallTransBegin pth))).
    rewrite build_cmds_app, trans_keys_framed, trans_keys_content.
    by destruct b.
  - apply top_framed.
  - done.
  - unfold apply_animation. rewrite decide_True by done.
    rewrite (transform_keyframes_done track _ 0).
    + simpl. rewrite imap_fmap. f_equal. apply imap_ext. intros i k Hk.
      unfold transform_keyframe, trans_keyframe, location_at, rotation_at. simpl.
      destruct keys as [|k0 keys']; [done|].
      change (locations track) with ((k0 :: keys').*2).
      by rewrite list_lookup_fmap, Hk.
    + apply not_short_of; simpl; [right; by rewrite !length_fmap | constructor].
Qed.

Lemma rotate_keys_content axis keys : ∀ a ds,
  rotations a = [(axis, ds)] →
  foldl (rotate_key axis) a keys
  = mkAnimation (locations a) [(axis, ds ++ keys.*2)]
      (with_values (λ vs, vs ++ keys.*1) (xp_dataref a)).
Proof.
  induction keys as [|k keys IH]; intros a ds Ha.
  - destruct a as [ls rs []]. unfold with_values. simpl in *.
    by rewrite !app_nil_r, Ha.
  - cbn [foldl]. rewrite (IH _ (ds ++ [k.2])).
    + unfold rotate_key, with_values. simpl. by rewrite <- !app_assoc.
    + unfold rotate_key. simpl. rewrite Ha. simpl. by rewrite decide_True.
Qed.

(** X18. A rotation track from beginning to end: inside an open bracket,
    [ANIM_rotate_begin] with an axis and a path, one or more
    [ANIM_rotate_key] calls and [ANIM_rotate_end] succeed, forget the axis
    again, and leave on top of the stack a transform animation whose one
    bucket, keyed by the absolute-valued axis, holds the keys' degree values
    in the order of the calls; keyframe generation turns it into one
    keyframe per key, numbered from 1, whose rotation is that axis scaled by
    the key's degree value. *)
Theorem rotate_track_keyframes b c cs axis pth (k : num * num) keys :
  wf_builder b → _anim_count b = c :: cs →
  let track := mkAnimation [] [(vabs axis, (k :: keys).*2)]
                 (with_values (λ _, (k :: keys).*1) (fresh_dataref pth)) in
  ∃ b',
    build_cmds (frame_call (CallRotateBegin axis pth) :: rotate_key_calls (k :: keys)
                ++ [rotate_end_call]) b = (Done tt, b')
    ∧ top_animation_object b' = (Done track, b')
    ∧ _last_axis b' = None
    ∧ apply_animation track
      = Done (imap (rotate_keyframe pth (vabs axis)) (k :: keys)).
Proof.
  intros Hwf Hc track. destruct (wf_parent_name b Hwf) as [pn Hpn].
  exists (framed (set_last_axis None b) pn c cs track). split; [|split; [|split]].
  - change (frame_call (CallRotateBegin axis pth) :: rotate_key_calls (k :: keys)
            ++ [rotate_end_call])
      with ([frame_call (CallRotateBegin axis pth)] ++ rotate_key_calls (k :: keys)
            ++ [rotate_end_call]).
    rewrite build_cmds_app, build_cmds_single, frame_call_eq, Hpn, Hc.
    change (set_last_axis (axis_after (CallRotateBegin axis pth) b)
              (framed b pn c cs (frame_animation (CallRotateBegin axis pth))))
      with (framed (set_last_axis (Some (vabs axis)) b) pn c cs
              (frame_animation (CallRotateBegin axis pth))).
    rewrite build_cmds_app.
    rewrite (rotate_keys_framed _ _ _ _ _ _ (vabs axis)) by done.
    rewrite build_cmds_single. unfold run, rotate_end_call. simpl.
    change (build_cmd "ANIM_rotate_end" [] "") with on_ANIM_rotate_end.
    unfold on_ANIM_rotate_end, modify.
    rewrite (rotate_keys_content (vabs axis) keys _ [k.2]) by done.
    by destruct b.
  - apply top_framed.
  - done.
  - unfold apply_animation. rewrite decide_True by done.
    rewrite (transform_keyframes_done track _ 0).
    + change (values (xp_dataref track)) with ((k :: keys).*1).
      rewrite imap_fmap. f_equal. apply imap_ext. intros i k' Hk.
      unfold transform_keyframe, rotate_keyframe, location_at, rotation_at,
        rotation_sum.
      change (rotations track) with [(vabs axis, (k :: keys).*2)].
      cbn [foldl fst snd]. change (0 + i) with i.
      by rewrite list_lookup_fmap, Hk.
    + apply not_short_of; [by left|].
      change (rotations track) with [(vabs axis, (k :: keys).*2)].
      change (values (xp_dataref track)) with ((k :: keys).*1).
      apply Forall_singleton. cbn [snd]. by rewrite !length_fmap.
Qed.

(** ** The loop flag *)

Lemma transform_keyframes_loop a lp vals : ∀ i j,
  transform_keyframes (update_dataref (with_loop lp) a) i j vals
  = transform_keyframes a i j vals.
Proof.
  induction vals as [|v vals IH]; intros i j; [done|].
  cbn [transform_keyframes]. by rewrite IH.
Qed.

Lemma apply_animation_loop a lp :
  apply_animation (update_dataref (with_loop lp) a) = apply_animation a.
Proof.
  unfold apply_animation. rewrite transform_keyframes_loop. done.
Qed.

Lemma apply_animations_insert heap addr a a' : ∀ addrs ob,
  heap !! addr = Some a → apply_animation a' = apply_animation a →
  apply_animations (<[addr := a']> heap) addrs ob = apply_animations heap addrs ob.
Proof.
  intros addrs ob Ha Heq. revert ob.
  induction addrs as [|x rest IH]; intros ob; [done|]. simpl.
  destruct (decide (x = addr)) as [->|Hne].
  - rewrite list_lookup_insert_eq by (by eapply lookup_lt_Some).
    rewrite Ha, Heq. destruct (apply_animation a); [apply IH | done].
  - rewrite list_lookup_insert_ne by done.
    destruct (heap !! x) as [ax|]; [|done].
    destruct (apply_animation ax); [apply IH | done].
Qed.

(** X19. The loop value that [ANIM_keyframe_loop] records never reaches the
    host: keyframe generation does not read it, so finalizing the builder
    after the call creates exactly the scene, and returns or raises exactly
    as, finalizing the builder before the call would. *)
Theorem keyframe_loop_is_dropped :
  (∀ a lp, apply_animation (update_dataref (with_loop lp) a) = apply_animation a)
  ∧ (∀ lp b,
       finalize_intermediate_blocks (run (key_call (CallKeyframeLoop lp)) b).2
       = finalize_intermediate_blocks b).
Proof.
  split; [apply apply_animation_loop|].
  intros lp b. unfold run, key_call. simpl.
  change (build_cmd "ANIM_keyframe_loop" [PFloat lp] "")
    with (on_ANIM_keyframe_loop [PFloat lp]).
  unfold on_ANIM_keyframe_loop. cbn beta iota. rewrite update_top_animation_eq.
  destruct (_anim_intermediate_stack b) as [|e st]; [done|].
  destruct (anim_heap b !! animation e) as [a|] eqn:Ea; [|done].
  cbn [snd]. unfold finalize_intermediate_blocks.
  assert (Hloop : ∀ blks sc,
    finalize_loop (set_heap (λ h, <[animation e := update_dataref (with_loop lp) a]> h) b)
      blks sc = finalize_loop b blks sc).
  { induction blks as [|blk blks IH]; intros sc; [done|].
    cbn [finalize_loop].
    assert (finalize_block
              (set_heap (λ h, <[animation e := update_dataref (with_loop lp) a]> h) b)
              blk sc = finalize_block b blk sc) as ->.
    { unfold finalize_block. destruct b as [rc vt bs la st' cs hp]. simpl in *.
      destruct (clear_root_parent (datablock_info blk)) as [info|]; [|done].
      destruct (match datablock_type info with
                | EMPTY => _ | MESH => _ end) as [[ob msgs]|]; [|done].
      by rewrite (apply_animations_insert hp _ a) by (done || apply apply_animation_loop). }
    destruct (finalize_block b blk sc) as [[|] sc']; [apply IH | done]. }
  rewrite Hloop. by destruct b.
Qed.

(** ** Cutting the slice into faces *)

Lemma chunk_fuel_lookup {A} (size : nat) : ∀ fuel (it : list A) i,
  0 < size → length it ≤ fuel →
  chunk_fuel fuel size it !! i
  = if decide (i * size < length it) then Some (take size (drop (i * size) it))
    else None.
Proof.
  induction fuel as [|fuel IH]; intros it i Hsize Hlen.
  { destruct it; [|simpl in Hlen; lia]. cbn [chunk_fuel]. rewrite lookup_nil.
    case_decide as Hi; [simpl in Hi; lia | done]. }
  cbn [chunk_fuel]. destruct it as [|x it].
  { rewrite take_nil, lookup_nil.
    case_decide as Hi; [simpl in Hi; lia | done]. }
  destruct size as [|sz]; [lia|]. cbn [take].
  destruct i as [|i].
  - rewrite decide_True by (simpl; lia). done.
  - cbn [lookup list_lookup]. change (drop (S sz) (x :: it)) with (drop sz it).
    rewrite IH by (rewrite ?length_drop; simpl in *; lia).
    rewrite length_drop. simpl length.
    replace (S i * S sz) with (S (sz + i * S sz)) by lia.
    cbn [drop]. rewrite drop_drop.
    destruct (decide (i * S sz < length it - sz)),
             (decide (S (sz + i * S sz) < S (length it))); (done || lia).
Qed.

(** X20. The helper [chunk] of [build_mesh] cuts a sequence into
    consecutive pieces of the given size, the last one possibly shorter:
    piece [i] exists exactly when [i * size] is a position of the sequence,
    and is what the sequence holds from there on, up to [size] items; put
    end to end the pieces give the sequence back. With size 0 there are no
    pieces at all. *)
Theorem chunk_partitions {A} :
  (∀ (it : list A) size,
     0 < size →
     mjoin (chunk it size) = it
     ∧ ∀ i, chunk it size !! i
            = if decide (i * size < length it)
              then Some (take size (drop (i * size) it)) else None)
  ∧ (∀ it : list A, chunk it 0 = []).
Proof.
  split.
  - intros it size Hsize. split.
    + by apply chunk_fuel_join.
    + intros i. by apply chunk_fuel_lookup.
  - intros it. unfold chunk. by destruct it.
Qed.

(** X21. [build_mesh] makes one face per started group of three indices of
    the slice and does not ask the slice length to be a multiple of three:
    face [j] exists exactly when [3 * j] is a position of the slice, and has
    as many corners as the slice holds from there on, three at most, so a
    trailing group of one or two indices becomes a face of one or two
    corners. *)
Theorem faces_follow_the_slice blk tb start cnt :
  start_idx blk = Some start → count blk = Some cnt →
  let slice := py_slice (idxes tb) start (start + cnt) in
  Forall (valid_index (length (vertices tb))) slice →
  ∃ ob msgs mesh,
    build_mesh blk tb = Done (ob, msgs) ∧ ob_data ob = Some mesh
    ∧ (∀ j, is_Some (me_faces mesh !! j) ↔ 3 * j < length slice)
    ∧ (∀ j face, me_faces mesh !! j = Some face →
         length face = 3 `min` (length slice - 3 * j)).
Proof.
  intros Hstart Hcnt slice Hvalid.
  destruct (build_mesh_core blk tb start cnt Hstart Hcnt Hvalid)
    as (vs & faces & normals & uvs & _ & Hfaces & _ & _ & _ & _ & Hrun).
  fold slice in Hfaces.
  assert (∃ ob msgs mesh,
    build_mesh blk tb = Done (ob, msgs) ∧ ob_data ob = Some mesh
    ∧ me_faces mesh = faces) as (ob & msgs & mesh & -> & Hmesh & Hmf).
  { rewrite Hrun. destruct (mesh_validate _ _); by eexists _, _, _. }
  exists ob, msgs, mesh. rewrite Hmf. split; [done|]. split; [done|].
  assert (Hch : ∀ j, chunk slice 3 !! j
                     = if decide (j * 3 < length slice)
                       then Some (take 3 (drop (j * 3) slice)) else None).
  { intros j. apply chunk_fuel_lookup; [lia | done]. }
  split.
  - intros j. rewrite lookup_lt_is_Some, (Forall2_length _ _ _ Hfaces).
    rewrite <- (lookup_lt_is_Some (chunk slice 3)), Hch.
    case_decide as Hj; split.
    + intros _. lia.
    + intros _. by eexists.
    + by intros [? ?].
    + intros ?. lia.
  - intros j face Hj.
    destruct (Forall2_lookup_l _ _ _ _ _ Hfaces Hj) as (ch & Hchj & Hpos).
    apply Forall2_length in Hpos. rewrite length_reverse in Hpos.
    rewrite Hch in Hchj. case_decide; [|done]. injection Hchj as <-.
    rewrite Hpos, length_take, length_drop. lia.
Qed.

(** ** What [build_mesh] checks *)

(** X22. The one thing [build_mesh] checks is that the indices of the slice
    are offsets into the vertex list: it returns exactly when they all are,
    and raises [IndexError] exactly when one is not. Asked for the mesh of a
    node without a slice it raises [TypeError]. *)
Theorem build_mesh_checks_indices_only blk tb :
  (∀ start cnt,
     start_idx blk = Some start → count blk = Some cnt →
     let slice := py_slice (idxes tb) start (start + cnt) in
     ((∃ r, build_mesh blk tb = Done r)
      ↔ Forall (valid_index (length (vertices tb))) slice)
     ∧ (build_mesh blk tb = Fail IndexError
        ↔ Exists (λ i, ¬ valid_index (length (vertices tb)) i) slice))
  ∧ (start_idx blk = None ∨ count blk = None → build_mesh blk tb = Fail TypeError).
Proof.
  split.
  - intros start cnt Hstart Hcnt slice.
    destruct (decide (Forall (valid_index (length (vertices tb))) slice)) as [Hall|Hnot].
    + destruct (build_mesh_core blk tb start cnt Hstart Hcnt Hall)
        as (vs & faces & normals & uvs & _ & _ & _ & _ & _ & _ & ->).
      split; [split; [done | by eexists] |].
      split; [done|]. intros Hex. exfalso.
      apply Exists_exists in Hex as (i & Hi & Hbad).
      rewrite Forall_forall in Hall. by apply Hbad, Hall.
    + assert (Hex : Exists (λ i, ¬ valid_index (length (vertices tb)) i) slice).
      { by apply not_Forall_Exists in Hnot; [|apply _]. }
      rewrite (build_mesh_index_error blk tb start cnt Hstart Hcnt Hex).
      split; [split; [by intros [? ?] | done] | done].
  - unfold build_mesh. intros [-> | ->]; [done|]. by destruct (start_idx blk).
Qed.

Lemma take_min_length {A} (l : list A) n : take (n `min` length l) l = take n l.
Proof.
  destruct (decide (n ≤ length l)).
  - by rewrite Nat.min_l.
  - rewrite Nat.min_r by lia. by rewrite !take_ge by lia.
Qed.

Lemma build_mesh_nil blk tb start cnt :
  start_idx blk = Some start → count blk = Some cnt →
  py_slice (idxes tb) start (start + cnt) = [] →
  ∃ msgs,
    build_mesh blk tb
    = Done (mkObject (datablock_info blk) (Some (mkMesh [] [] ∅ ∅))
              (Some "Material") [], msgs).
Proof.
  intros Hstart Hcnt Hnil. unfold build_mesh. rewrite Hstart, Hcnt, Hnil.
  cbn [dedup_loop mbind result_bind chunk chunk_fuel length mapM fmap list_fmap
       fst snd mret result_ret].
  destruct (mesh_validate [] []); cbn [negb]; [by eexists|].
  unfold vertex_overrides. cbn [mjoin list_join list_to_set foldr].
  rewrite elements_empty. cbn. by eexists.
Qed.

(** X23. A [TRIS] slice is cut out of the index list the way Python slices:
    what lies beyond the end of the list is silently left out. For a start
    and a count that are not negative the slice is the at most [count]
    indices found from position [start] on; and a slice that starts at or
    beyond the end of the list, or whose count is zero or moves the end
    back without passing position 0, makes [build_mesh] return a mesh
    without vertices and without faces instead of raising. *)
Theorem tris_slice_is_clamped blk tb start cnt :
  start_idx blk = Some start → count blk = Some cnt →
  ((0 ≤ start)%Z → (0 ≤ cnt)%Z →
   py_slice (idxes tb) start (start + cnt)
   = take (Z.to_nat cnt) (drop (Z.to_nat start) (idxes tb)))
  ∧ ((Z.of_nat (length (idxes tb)) ≤ start)%Z ∨ (cnt ≤ 0 ≤ start + cnt)%Z →
     ∃ msgs,
       build_mesh blk tb
       = Done (mkObject (datablock_info blk) (Some (mkMesh [] [] ∅ ∅))
                 (Some "Material") [], msgs)).
Proof.
  intros Hstart Hcnt.
  assert (Hslice : (0 ≤ start)%Z → (0 ≤ start + cnt)%Z →
    py_slice (idxes tb) start (start + cnt)
    = take (Z.to_nat cnt) (drop (Z.to_nat start) (idxes tb))).
  { intros Hs Hsc. unfold py_slice, py_clamp. cbv zeta.
    set (n := Z.of_nat (length (idxes tb))).
    rewrite (decide_False (P := (start < 0)%Z)) by lia.
    rewrite (decide_False (P := (start + cnt < 0)%Z)) by lia.
    destruct (decide (n ≤ start)%Z) as [Hbig|Hsmall].
    - rewrite (Z.min_r start) by lia. unfold n. rewrite Nat2Z.id.
      rewrite !drop_ge by lia. by rewrite !take_nil.
    - rewrite (Z.min_l start) by lia.
      replace (Z.to_nat (Z.min (start + cnt) n - start)) with
        (Z.to_nat cnt `min` length (drop (Z.to_nat start) (idxes tb))).
      + apply take_min_length.
      + rewrite length_drop. lia. }
  split; [intros Hs Hc; apply Hslice; lia|].
  intros Hout. apply (build_mesh_nil blk tb start cnt Hstart Hcnt).
  destruct Hout as [Hbig | [Hc Hsc]].
  - unfold py_slice, py_clamp. cbv zeta.
    rewrite (decide_False (P := (start < 0)%Z)) by lia.
    rewrite (Z.min_r start) by lia. rewrite Nat2Z.id, drop_all. apply take_nil.
  - rewrite Hslice by lia. replace (Z.to_nat cnt) with 0 by lia. done.
Qed.

(** X24. The compact vertex list holds no vertex that no face uses: the
    positions that occur in the faces are exactly the positions of the
    vertex list. So when the host has no objection to the mesh, every
    vertex of the mesh receives its normal and its texture coordinate. *)
Theorem compact_vertices_all_used blk tb start cnt :
  start_idx blk = Some start → count blk = Some cnt →
  let slice := py_slice (idxes tb) start (start + cnt) in
  Forall (valid_index (length (vertices tb))) slice →
  ∃ ob msgs mesh,
    build_mesh blk tb = Done (ob, msgs) ∧ ob_data ob = Some mesh
    ∧ (∀ k, k ∈ mjoin (me_faces mesh) ↔ k < length (me_vertices mesh))
    ∧ (mesh_validate (me_vertices mesh) (me_faces mesh) = false →
       ∀ k, k < length (me_vertices mesh) →
            is_Some (me_normals mesh !! k) ∧ is_Some (me_uvs mesh !! k)).
Proof.
  intros Hstart Hcnt slice Hvalid.
  destruct (build_mesh_core blk tb start cnt Hstart Hcnt Hvalid)
    as (vs & faces & normals & uvs & Hvs & Hfaces & Hdn & Hdu & _ & _ & Hrun).
  fold slice in Hvs, Hfaces.
  assert (Hused : ∀ k, k ∈ mjoin faces ↔ k < length (coords_of <$> vs)).
  { intros k. rewrite length_fmap, (Forall2_length _ _ _ Hvs). split.
    - intros (face & Hk & Hface)%list_elem_of_join.
      apply list_elem_of_lookup in Hface as [j Hj].
      destruct (Forall2_lookup_l _ _ _ _ _ Hfaces Hj) as (ch & _ & Hpos).
      assert (k ∈ reverse face) as Hk' by (by apply elem_of_reverse).
      apply list_elem_of_lookup in Hk' as [q Hq].
      destruct (Forall2_lookup_l _ _ _ _ _ Hpos Hq) as (i & _ & Hi).
      by eapply lookup_lt_Some.
    - intros Hk. destruct (lookup_lt_is_Some_2 _ _ Hk) as [i Hi].
      assert (i ∈ mjoin (chunk slice 3)) as Hin.
      { unfold chunk. rewrite chunk_fuel_join by (lia || done).
        apply elem_of_first_seen. by eapply list_elem_of_lookup_2. }
      apply list_elem_of_join in Hin as (ch & Hich & Hch).
      apply list_elem_of_lookup in Hch as [j Hj].
      destruct (Forall2_lookup_r _ _ _ _ _ Hfaces Hj) as (face & Hface & Hpos).
      apply list_elem_of_lookup in Hich as [q Hq].
      destruct (Forall2_lookup_r _ _ _ _ _ Hpos Hq) as (k' & Hk' & Hi').
      assert (k' = k) as ->.
      { eapply NoDup_lookup; [apply (NoDup_first_seen slice) | done..]. }
      apply list_elem_of_join. exists face. split.
      + apply elem_of_reverse. by eapply list_elem_of_lookup_2.
      + by eapply list_elem_of_lookup_2. }
  destruct (mesh_validate (coords_of <$> vs) faces) eqn:Ev;
    eexists _, _, _; (split; [exact Hrun|]); (split; [reflexivity|]);
    cbn [me_vertices me_faces me_normals me_uvs]; rewrite Ev;
    (split; [exact Hused|]); [done|].
  intros _ k Hk. rewrite <- !elem_of_dom, Hdn, Hdu, !elem_of_list_to_set.
  split; by apply Hused.
Qed.

(** ** What finalization makes *)

Lemma pair_from_fst {A B} (p : A * B) x : p.1 = x → p = (x, p.2).
Proof. destruct p. simpl. by intros ->. Qed.

Lemma apply_animations_spec heap addrs : ∀ ob ob',
  apply_animations heap addrs ob = (Done tt, ob') →
  ob_info ob' = ob_info ob ∧ ob_data ob' = ob_data ob
  ∧ ob_material ob' = ob_material ob
  ∧ ∃ kfss,
      ob_keyframes ob' = ob_keyframes ob ++ kfss
      ∧ Forall2 (λ addr kfs, ∃ a, heap !! addr = Some a ∧ apply_animation a = Done kfs)
                addrs kfss.
Proof.
  induction addrs as [|addr rest IH]; intros ob ob' Hrun.
  { injection Hrun as <-. repeat split. exists []. by rewrite app_nil_r. }
  simpl in Hrun. destruct (heap !! addr) as [a|] eqn:Ea; [|done].
  destruct (apply_animation a) as [kfs|] eqn:Ekfs; [|done].
  apply IH in Hrun as (-> & -> & -> & kfss & -> & Hall).
  repeat split. exists (kfs :: kfss). simpl. rewrite <- app_assoc. split; [done|].
  constructor; [by exists a | done].
Qed.

Lemma build_mesh_object blk tb ob msgs :
  build_mesh blk tb = Done (ob, msgs) →
  ob_info ob = datablock_info blk ∧ is_Some (ob_data ob)
  ∧ ob_material ob = Some "Material" ∧ ob_keyframes ob = [].
Proof.
  unfold build_mesh.
  destruct (start_idx blk) as [start|]; [|done].
  destruct (count blk) as [cnt|]; [|done].
  destruct (dedup_loop _ _ _) as [acc|]; [|done]. cbn [mbind result_bind].
  destruct (mapM _ _) as [faces|]; [|done]. cbn [mbind result_bind].
  destruct (negb _).
  - destruct (vertex_overrides _ _) as [ov|]; [|done]. cbn [mbind result_bind].
    intros [= <- <-]. by repeat split.
  - intros [= <- <-]. by repeat split.
Qed.

Lemma finalize_block_spec b blk sc sc' :
  finalize_block b blk sc = (Done tt, sc') →
  ∃ ob, objects sc' = objects sc ++ [ob]
        ∧ frame_current sc' = frame_current sc
        ∧ made_from (anim_heap b) blk ob.
Proof.
  unfold finalize_block, made_from.
  destruct (clear_root_parent (datablock_info blk)) as [info|] eqn:Einfo; [|done].
  assert (Hkind : datablock_type info = datablock_type (datablock_info blk)).
  { unfold clear_root_parent in Einfo.
    destruct (parent_info (datablock_info blk)); [|done].
    case_decide; by injection Einfo as <-. }
  destruct (datablock_type info) eqn:Ek.
  - destruct (apply_animations _ _ _) as [[[]|] ob'] eqn:Eapp; [|done].
    intros [= <-]. exists ob'. simpl.
    apply apply_animations_spec in Eapp as (-> & -> & -> & kfss & -> & Hall).
    rewrite <- Hkind. by repeat split.
  - destruct (build_mesh _ _) as [[ob msgs]|] eqn:Emesh; [|done].
    apply build_mesh_object in Emesh as (Hinfo & Hdata & Hmat & Hkfs).
    destruct (apply_animations _ _ _) as [[[]|] ob'] eqn:Eapp; [|done].
    intros [= <-]. exists ob'. simpl.
    apply apply_animations_spec in Eapp as (-> & -> & -> & kfss & -> & Hall).
    rewrite <- Hkind, Hinfo, Hkfs. by repeat split.
Qed.

Lemma finalize_loop_spec b blks : ∀ sc sc',
  finalize_loop b blks sc = (Done tt, sc') →
  ∃ obs, objects sc' = objects sc ++ obs
         ∧ frame_current sc' = frame_current sc
         ∧ Forall2 (made_from (anim_heap b)) blks obs.
Proof.
  induction blks as [|blk rest IH]; intros sc sc' Hrun.
  { injection Hrun as <-. exists []. by rewrite app_nil_r. }
  simpl in Hrun.
  destruct (finalize_block b blk sc) as [[[]|] sc1] eqn:Eblk; [|done].
  apply finalize_block_spec in Eblk as (ob & Hobs & Hfc & Hmade).
  apply IH in Hrun as (obs & -> & -> & Hall).
  exists (ob :: obs). rewrite Hobs, <- app_assoc. by repeat split; [|constructor].
Qed.

(** X25. When [finalize_intermediate_blocks] returns, the host holds one
    object per node after the root sentinel, in the order of the node list,
    and none for the sentinel: each object carries its node's name and kind,
    and its parent unless that is "INTER_ROOT", which is cleared; an
    empty-kind node gives an object without data and material, a mesh-kind
    node an object with a mesh and the material "Material"; and the object
    has received, in order, the keyframes of each pending animation of its
    node. The timeline is back at frame 1. *)
Theorem finalize_one_object_per_node b st sc :
  finalize_intermediate_blocks b = (Done st, sc) →
  Forall2 (made_from (anim_heap b)) (drop 1 (_blocks b)) (objects sc)
  ∧ frame_current sc = Some 1
  ∧ ∀ ob, ob ∈ objects sc → parent_info (ob_info ob) ≠ Some (mkParentInfo "INTER_ROOT").
Proof.
  unfold finalize_intermediate_blocks.
  destruct (finalize_loop b (drop 1 (_blocks b)) (mkScene [] [] None))
    as [[[]|] sc1] eqn:Eloop; [|done].
  intros [= _ <-]. simpl.
  apply finalize_loop_spec in Eloop as (obs & -> & _ & Hall). simpl.
  split; [done|]. split; [done|].
  intros ob (i & Hi)%list_elem_of_lookup.
  destruct (Forall2_lookup_r _ _ _ _ _ Hall Hi) as (blk & _ & Hinfo & _).
  unfold clear_root_parent in Hinfo.
  destruct (parent_info (datablock_info blk)) as [p|] eqn:Ep; [|done].
  case_decide as Hroot; injection Hinfo as <-; simpl; [done|].
  rewrite Ep. intros [= ->]. done.
Qed.

(** X26. Only empties are animated: after any directive stream, an object
    that finalization makes of a mesh-kind node receives no keyframes at
    all, and an object made of an empty-kind node receives the keyframes of
    at most one animation. *)
Theorem meshes_are_never_keyframed stem stream st sc :
  finalize_intermediate_blocks (build_cmds stream (new_builder stem)).2 = (Done st, sc) →
  ∀ ob, ob ∈ objects sc →
    length (ob_keyframes ob) ≤ 1
    ∧ (datablock_type (ob_info ob) = MESH → ob_keyframes ob = []).
Proof.
  set (b := (build_cmds stream (new_builder stem)).2).
  intros Hrun ob (i & Hi)%list_elem_of_lookup.
  assert (Hb : single_animation b).
  { apply (preserves_build_cmds (keeps single_animation));
      [|apply single_animation_new].
    intros c _. apply build_cmd_keeps_single. }
  destruct Hb as [_ Hall].
  unfold finalize_intermediate_blocks in Hrun.
  destruct (finalize_loop b (drop 1 (_blocks b)) (mkScene [] [] None))
    as [[[]|] sc1] eqn:Eloop; [|done].
  injection Hrun as _ <-. simpl in Hi.
  apply finalize_loop_spec in Eloop as (obs & Hobs & _ & Hmade).
  rewrite Hobs in Hi. simpl in Hi.
  destruct (Forall2_lookup_r _ _ _ _ _ Hmade Hi) as (blk & Hblk & Hinfo & Hkfs & _).
  assert (Hok : node_ok blk).
  { rewrite Forall_forall in Hall. apply Hall.
    eapply subseteq_drop, list_elem_of_lookup_2, Hblk. }
  destruct Hok as [Hlen Hmesh]. apply Forall2_length in Hkfs.
  split; [lia|]. intros Hkind.
  assert (datablock_type (datablock_info blk) = MESH) as Hk.
  { unfold clear_root_parent in Hinfo.
    destruct (parent_info (datablock_info blk)); [|done].
    case_decide; injection Hinfo as Hinfo; by rewrite <- Hinfo in Hkind. }
  rewrite (Hmesh Hk) in Hkfs. by destruct (ob_keyframes ob).
Qed.

(** ** When finalization returns *)

Lemma apply_animation_keyed a :
  one_value_per_key a →
  (anim_type (xp_dataref a) = ANIM_TYPE_TRANSFORM ∧ mixed_keys a →
   apply_animation a = Fail IndexError)
  ∧ (¬ (anim_type (xp_dataref a) = ANIM_TYPE_TRANSFORM ∧ mixed_keys a) →
     ∃ kfs, apply_animation a = Done kfs).
Proof.
  intros Hkeyed. pose proof (keyed_short_iff a Hkeyed) as Hiff.
  unfold apply_animation. case_decide as Hkind; [|split; [tauto | by eexists]].
  split.
  - intros [_ Hmixed].
    rewrite (transform_keyframes_fail a _ 0 1); [done | | apply short_of_0].
    by apply Hiff.
  - intros Hnot. rewrite (transform_keyframes_done a _ 0); [by eexists|].
    simpl. rewrite Hiff. tauto.
Qed.

Lemma apply_animations_cases heap addrs : ∀ ob,
  Forall (λ addr, addr < length heap) addrs →
  Forall one_value_per_key heap →
  let ok := ∀ addr a, addr ∈ addrs → heap !! addr = Some a →
              anim_type (xp_dataref a) = ANIM_TYPE_TRANSFORM → ¬ mixed_keys a in
  (ok ∧ ∃ ob', apply_animations heap addrs ob = (Done tt, ob'))
  ∨ (¬ ok ∧ ∃ ob', apply_animations heap addrs ob = (Fail IndexError, ob')).
Proof.
  induction addrs as [|addr rest IH]; intros ob Hwf Hkeyed ok.
  { left. split; [|by eexists]. by intros addr a ?%elem_of_nil. }
  apply Forall_cons in Hwf as [Haddr Hrest].
  destruct (lookup_lt_is_Some_2 heap addr Haddr) as [a Ha].
  assert (Ha' : one_value_per_key a).
  { rewrite Forall_forall in Hkeyed. apply Hkeyed. by eapply list_elem_of_lookup_2. }
  destruct (apply_animation_keyed a Ha') as [Hfail Hdone].
  cbn [apply_animations]. rewrite Ha.
  destruct (decide (anim_type (xp_dataref a) = ANIM_TYPE_TRANSFORM ∧ mixed_keys a))
    as [Hbad|Hgood].
  - right. rewrite (Hfail Hbad). split; [|by eexists].
    intros Hok. destruct Hbad as [Hkind Hmixed].
    by apply (Hok addr a); [left|..].
  - destruct (Hdone Hgood) as [kfs ->].
    destruct (IH (add_keyframes kfs ob) Hrest Hkeyed) as [[Hok Hrun]|[Hnok Hrun]].
    + left. split; [|done]. intros addr' a' Hin Ha'' Hkind Hmixed.
      apply elem_of_cons in Hin as [->|Hin]; [|by eapply Hok].
      rewrite Ha in Ha''. injection Ha'' as <-. tauto.
    + right. split; [|done]. intros Hok. apply Hnok.
      intros addr' a' Hin. apply Hok. by right.
Qed.

Lemma finalize_block_cases b blk sc :
  node_shape blk →
  Forall (λ addr, addr < length (anim_heap b)) (animations_to_apply blk) →
  Forall one_value_per_key (anim_heap b) →
  (node_finalizable b blk ∧ ∃ sc', finalize_block b blk sc = (Done tt, sc'))
  ∨ (¬ node_finalizable b blk
     ∧ ∃ sc', finalize_block b blk sc = (Fail IndexError, sc')).
Proof.
  intros [[p Hp] Hmesh] Hwf Hkeyed. unfold finalize_block, clear_root_parent.
  rewrite Hp.
  set (info := if decide (parent p = "INTER_ROOT")
               then mkDatablockInfo (datablock_type (datablock_info blk))
                      (name (datablock_info blk)) None
               else datablock_info blk).
  assert (Hkind : datablock_type info = datablock_type (datablock_info blk)).
  { unfold info. by case_decide. }
  replace (if decide (parent p = "INTER_ROOT")
           then Done (mkDatablockInfo (datablock_type (datablock_info blk))
                        (name (datablock_info blk)) None)
           else Done (datablock_info blk)) with (Done info)
    by (unfold info; by case_decide).
  rewrite Hkind. unfold node_finalizable.
  destruct (datablock_type (datablock_info blk)) eqn:Ek.
  - destruct (apply_animations_cases (anim_heap b) (animations_to_apply blk)
                (mkObject info None None []) Hwf Hkeyed)
      as [[Hok [ob' ->]]|[Hnok [ob' ->]]].
    + left. split; [|by eexists]. split; [done | exact Hok].
    + right. split; [|by eexists]. intros [_ Hok]. by apply Hnok.
  - destruct (Hmesh eq_refl) as [[start Hs] [cnt Hc]].
    set (blk' := mkDatablock info (start_idx blk) (count blk) (animations_to_apply blk)).
    destruct (decide (Forall (valid_index (length (vertices (vt_table b))))
                        (py_slice (idxes (vt_table b)) start (start + cnt))))
      as [Hvalid|Hinvalid].
    + destruct (build_mesh_core blk' (vt_table b) start cnt Hs Hc Hvalid)
        as (vs & faces & normals & uvs & _ & _ & _ & _ & _ & _ & ->).
      assert (Hslice : datablock_type (datablock_info blk) = MESH →
                ∀ start' cnt', start_idx blk = Some start' → count blk = Some cnt' →
                Forall (valid_index (length (vertices (vt_table b))))
                       (py_slice (idxes (vt_table b)) start' (start' + cnt'))).
      { intros _ start' cnt' Hs' Hc'. simpl in Hs, Hc. congruence. }
      destruct (mesh_validate _ _);
        match goal with
        | |- context [apply_animations ?h ?l ?o] =>
            destruct (apply_animations_cases h l o Hwf Hkeyed)
              as [[Hok [ob' ->]]|[Hnok [ob' ->]]]
        end.
      * left. split; [|by eexists]. split; [intros _; by apply Hslice | exact Hok].
      * right. split; [|by eexists]. intros [_ Hok]. by apply Hnok.
      * left. split; [|by eexists]. split; [intros _; by apply Hslice | exact Hok].
      * right. split; [|by eexists]. intros [_ Hok]. by apply Hnok.
    + right. split.
      * intros [Hslice _]. by apply Hinvalid, Hslice.
      * rewrite (build_mesh_index_error blk' (vt_table b) start cnt Hs Hc);
          [by eexists|].
        by apply not_Forall_Exists in Hinvalid; [|apply _].
Qed.

Lemma finalize_loop_cases b blks : ∀ sc,
  Forall node_shape blks →
  Forall (λ blk, Forall (λ addr, addr < length (anim_heap b))
                        (animations_to_apply blk)) blks →
  Forall one_value_per_key (anim_heap b) →
  (Forall (node_finalizable b) blks
   ∧ ∃ sc', finalize_loop b blks sc = (Done tt, sc'))
  ∨ (¬ Forall (node_finalizable b) blks
     ∧ ∃ sc', finalize_loop b blks sc = (Fail IndexError, sc')).
Proof.
  induction blks as [|blk rest IH]; intros sc Hshape Hwf Hkeyed.
  { left. split; [constructor | by eexists]. }
  apply Forall_cons in Hshape as [Hblk Hshape].
  apply Forall_cons in Hwf as [Hwfblk Hwf].
  cbn [finalize_loop].
  destruct (finalize_block_cases b blk sc Hblk Hwfblk Hkeyed)
    as [[Hok [sc1 ->]]|[Hnok [sc1 ->]]].
  - destruct (IH sc1 Hshape Hwf Hkeyed) as [[Hall Hrun]|[Hnall Hrun]].
    + left. split; [by constructor | done].
    + right. split; [|done]. by intros [_ ?]%Forall_cons.
  - right. split; [|by eexists]. by intros [? _]%Forall_cons.
Qed.

(** X27. Finalizing the node list of any directive stream has two possible
    outcomes only: it returns the set holding "FINISHED", or it raises
    [IndexError]. It returns exactly when the slice of every mesh-kind node
    holds only offsets into the vertex list and no pending transform
    animation has received keys of both families or degree values on two
    axes. *)
Theorem finalize_outcomes stem stream :
  let b := (build_cmds stream (new_builder stem)).2 in
  let r := (finalize_intermediate_blocks b).1 in
  (r = Done {["FINISHED"]} ∨ r = Fail IndexError)
  ∧ (r = Done {["FINISHED"]} ↔ slices_valid b ∧ tracks_unmixed b).
Proof.
  intros b r.
  assert (Hshape : nodes_shaped b).
  { apply (preserves_build_cmds (keeps nodes_shaped)).
    - intros c _. apply build_cmd_keeps_shape.
    - exists root_intermediate_datablock, []. by split. }
  assert (Hsingle : single_animation b).
  { apply (preserves_build_cmds (keeps single_animation));
      [|apply single_animation_new].
    intros c _. apply build_cmd_keeps_single. }
  destruct (build_cmds_wf stem stream) as [_ Hwf]. fold b in Hwf.
  assert (Hkeyed : Forall one_value_per_key (anim_heap b)).
  { apply (built_animations_stream one_value_per_key); [|constructor].
    apply build_cmd_keeps_keyed. }
  destruct Hshape as (root & rest & Hbs & Hrest).
  destruct Hsingle as [Hroot _]. rewrite Hbs in Hroot. injection Hroot as ->.
  assert (Hiff : slices_valid b ∧ tracks_unmixed b ↔ Forall (node_finalizable b) rest).
  { unfold slices_valid, tracks_unmixed, node_finalizable. rewrite Hbs, Forall_forall.
    split.
    - intros [Hs Ht] blk Hblk. split.
      + intros Hk start cnt. apply Hs; [by right | done].
      + intros addr a. apply Ht. by right.
    - intros Hall. split.
      + intros blk start cnt [->|Hblk]%elem_of_cons Hk; [done|].
        by apply (Hall blk Hblk).
      + intros blk addr a [->|Hblk]%elem_of_cons Haddr.
        * by apply elem_of_nil in Haddr.
        * by apply (Hall blk Hblk). }
  rewrite Hiff. unfold r, finalize_intermediate_blocks. rewrite Hbs. simpl.
  rewrite drop_0.
  destruct (finalize_loop_cases b rest (mkScene [] [] None))
    as [[Hall [sc ->]]|[Hnall [sc ->]]]; simpl.
  - done.
  - rewrite Hbs in Hwf. by apply Forall_cons in Hwf as [_ ?].
  - done.
  - split; [by left | done].
  - split; [by right | split; [done | tauto]].
Qed.

End Properties.

(** * Concrete runs *)

(** Closed facts are settled by running the model. *)
Ltac by_computation :=
  cbv zeta;
  repeat match goal with |- _ ∧ _ => split end;
  vm_compute; reflexivity.

Section Runs.
#[local] Existing Instance ZScalar.
#[local] Existing Instance strict_host.

(** *** The Python primitives on small inputs *)

Example py_slice_inside : py_slice [10; 11; 12; 13; 14]%Z 1 3 = [11; 12]%Z.
Proof. reflexivity. Qed.

Example py_slice_past_the_end : py_slice [10; 11; 12]%Z 2 (2 + 6) = [12]%Z.
Proof. reflexivity. Qed.

Example py_slice_negative_start : py_slice [10; 11; 12; 13]%Z (-2) (-2 + 1) = [12]%Z.
Proof. reflexivity. Qed.

Example py_index_negative : py_index [10; 11; 12]%Z (-1) = Done 12%Z.
Proof. reflexivity. Qed.

Example py_index_out_of_range : py_index [10; 11; 12]%Z 3 = Fail IndexError.
Proof. reflexivity. Qed.

Example chunk_by_three :
  chunk [1; 2; 3; 4; 5; 6; 7] 3 = [[1; 2; 3]; [4; 5; 6]; [7]].
Proof. reflexivity. Qed.

Example pad3_small : pad3 7 = "007" ∧ pad3 42 = "042" ∧ pad3 1234 = "1234".
Proof. by_computation. Qed.

Example first_seen_order : first_seen [2; 2; 5; 2; 5; 7]%Z = [2; 5; 7]%Z.
Proof. reflexivity. Qed.

(** *** Brackets *)

(** C1 fails as stated: between the outer [ANIM_begin] and its [ANIM_end]
    three calls invoke [begin_new_frame] (three animations are allocated),
    yet the value this [ANIM_end] pops is 2. *)
Lemma bracket_balance_counterexample :
  build_cmds (plain_call "ANIM_begin" [] :: nested_body) (new_builder "obj")
  = (Done tt, after_nested_body)
  ∧ nesting 0 nested_body = Some 0
  ∧ frames_opened nested_body = 3
  ∧ length (anim_heap after_nested_body) = 3
  ∧ _anim_count after_nested_body = [2]
  ∧ (build_cmd "ANIM_end" [] "" after_nested_body).1 = Done tt
  ∧ _anim_count (build_cmd "ANIM_end" [] "" after_nested_body).2 = [].
Proof. by_computation. Qed.

Lemma bracket_balance_witness :
  nesting 0 nested_body = Some 0
  ∧ build_cmds (mkCall "ANIM_begin" [] "" :: nested_body) (new_builder "obj")
    = (Done tt, after_nested_body)
  ∧ ∃ b2,
      build_cmd "ANIM_end" [] "" after_nested_body = (Done tt, b2)
      ∧ _anim_count after_nested_body
        = frames_owned 0 nested_body :: _anim_count (new_builder "obj")
      ∧ _anim_count b2 = _anim_count (new_builder "obj")
      ∧ length (_anim_intermediate_stack after_nested_body)
        = frames_owned 0 nested_body
          + length (_anim_intermediate_stack (new_builder "obj"))
      ∧ _anim_intermediate_stack b2 = _anim_intermediate_stack (new_builder "obj")
      ∧ length (_anim_intermediate_stack b2)
        = length (_anim_intermediate_stack (new_builder "obj")).
Proof.
  split; [vm_compute; reflexivity|]. split; [vm_compute; reflexivity|].
  apply (bracket_balance (new_builder "obj") after_nested_body nested_body
           [] "" [] ""); vm_compute; reflexivity.
Defined.

(** *** Transform keyframes *)

Example trans_stream_builds :
  (build_cmds trans_stream (new_builder "obj")).1 = Done tt
  ∧ anim_heap (build_cmds trans_stream (new_builder "obj")).2 = [trans_animation].
Proof. by_computation. Qed.

Example trans_stream_keyframes :
  map (λ ob, map (map idx) (ob_keyframes ob))
      (objects (finalize_intermediate_blocks
                  (build_cmds trans_stream (new_builder "obj")).2).2)
  = [[[1; 2; 3]]].
Proof. vm_compute. reflexivity. Qed.

Lemma transform_keyframes_per_sample_witness :
  anim_type (xp_dataref trans_animation) = ANIM_TYPE_TRANSFORM
  ∧ length (values (xp_dataref trans_animation)) = 3
  ∧ ∃ kfs,
      apply_animation trans_animation = Done kfs
      ∧ length kfs = 3
      ∧ idx <$> kfs = seq 1 3.
Proof.
  split; [reflexivity|]. split; [reflexivity|].
  destruct (proj1 transform_keyframes_per_sample trans_animation 3)
    as (kfs & Hrun & Hlen & Hidx & _).
  - reflexivity.
  - reflexivity.
  - right. simpl. lia.
  - constructor.
  - exists kfs. split; [exact Hrun|]. split; [exact Hlen | exact Hidx].
Defined.

(** C2 fails as stated. A rotation track with a translation key between
    its rotation keys is accepted by [build_cmd] and leaves a transform-kind
    animation whose dataref holds three driver values; keyframe generation
    hands over no keyframe for it but raises [IndexError], and so does the
    finalization of the builder. *)
Lemma transform_keyframes_counterexample :
  let b := (build_cmds stray_key_stream (new_builder "obj")).2 in
  (build_cmds stray_key_stream (new_builder "obj")).1 = Done tt
  ∧ anim_heap b = [stray_key_animation]
  ∧ anim_type (xp_dataref stray_key_animation) = ANIM_TYPE_TRANSFORM
  ∧ length (values (xp_dataref stray_key_animation)) = 3
  ∧ apply_animation stray_key_animation = Fail IndexError
  ∧ (finalize_intermediate_blocks b).1 = Fail IndexError.
Proof. by_computation. Qed.

(** *** Sample counts *)

(** C6 fails as stated. The builder accepts, without any error, a stream
    that leaves a transform animation with both lists populated and of
    lengths that differ from the number of driver values: one location and
    one degree value against two driver values. *)
Lemma sample_count_counterexample :
  (build_cmds mixed_stream (new_builder "obj")).1 = Done tt
  ∧ anim_heap (build_cmds mixed_stream (new_builder "obj")).2 = [mixed_animation]
  ∧ anim_type (xp_dataref mixed_animation) = ANIM_TYPE_TRANSFORM
  ∧ length (locations mixed_animation) = 1
  ∧ rotations mixed_animation = [(vec 0 1 0, [90%Z])]
  ∧ length (values (xp_dataref mixed_animation)) = 2.
Proof. by_computation. Qed.

Lemma sample_count_unchecked_witness :
  mixed_animation ∈ anim_heap (build_cmds mixed_stream (new_builder "obj")).2
  ∧ anim_type (xp_dataref mixed_animation) = ANIM_TYPE_TRANSFORM
  ∧ locations mixed_animation ≠ []
  ∧ rotations mixed_animation ≠ []
  ∧ length (locations mixed_animation) < length (values (xp_dataref mixed_animation))
  ∧ apply_animation mixed_animation = Fail IndexError.
Proof.
  assert (Hin : mixed_animation
                ∈ anim_heap (build_cmds mixed_stream (new_builder "obj")).2).
  { apply (list_elem_of_lookup_2 _ 0). vm_compute. reflexivity. }
  assert (Hloc : locations mixed_animation ≠ []) by discriminate.
  assert (Hrot : rotations mixed_animation ≠ []) by discriminate.
  split; [exact Hin|]. split; [reflexivity|].
  split; [exact Hloc|]. split; [exact Hrot|].
  destruct (sample_count_unchecked "obj" mixed_stream mixed_animation
              Hin eq_refl Hloc Hrot) as (Hlt & _ & Hrun).
  split; [exact Hlt | exact Hrun].
Defined.

(** *** Meshes *)

Example mesh_stream_builds :
  (build_cmds mesh_stream (new_builder "obj")).1 = Done tt
  ∧ vt_table (build_cmds mesh_stream (new_builder "obj")).2 = sample_table.
Proof. by_computation. Qed.

Lemma build_mesh_compacts_witness :
  start_idx sample_mesh_node = Some 0%Z
  ∧ count sample_mesh_node = Some 6%Z
  ∧ ∃ ob msgs mesh,
      build_mesh sample_mesh_node sample_table = Done (ob, msgs)
      ∧ ob_data ob = Some mesh
      ∧ length (me_vertices mesh) = 3
      ∧ ∀ face k, face ∈ me_faces mesh → k ∈ face → k < 3.
Proof.
  split; [reflexivity|]. split; [reflexivity|].
  destruct (proj1 build_mesh_compacts sample_mesh_node sample_table 0%Z 6%Z)
    as (ob & msgs & mesh & Hrun & Hdata & _ & _ & _ & Hvs & _ & _ & Hbound).
  - reflexivity.
  - reflexivity.
  - vm_compute. repeat constructor; discriminate.
  - exists ob, msgs, mesh. split; [exact Hrun|]. split; [exact Hdata|].
    split.
    + apply Forall2_length in Hvs. exact Hvs.
    + intros face k Hface Hk. exact (proj1 (Hbound face k Hface Hk)).
Defined.

(** C5 fails as stated. The first triangle of the slice, (2, 2, 5), is
    degenerate and the strict host reports the mesh as invalid; the second,
    (2, 5, 7), is sound. The error is logged and the object is built, but no
    vertex receives a normal or a texture coordinate, those of the sound
    triangle included. *)
Lemma invalid_mesh_counterexample :
  ∃ ob mesh,
    build_mesh sample_mesh_node sample_table = Done (ob, [invalid_mesh_message])
    ∧ ob_data ob = Some mesh
    ∧ me_faces mesh = [[1; 0; 0]; [2; 1; 0]]
    ∧ mesh_validate (me_vertices mesh) (me_faces mesh) = true
    ∧ me_normals mesh = ∅
    ∧ me_uvs mesh = ∅.
Proof. eexists _, _. by_computation. Qed.

Lemma invalid_mesh_logged_not_patched_witness :
  start_idx sample_mesh_node = Some 0%Z
  ∧ count sample_mesh_node = Some 6%Z
  ∧ ∃ ob msgs mesh,
      build_mesh sample_mesh_node sample_table = Done (ob, msgs)
      ∧ ob_material ob = Some "Material"
      ∧ ob_data ob = Some mesh.
Proof.
  split; [reflexivity|]. split; [reflexivity|].
  destruct (invalid_mesh_logged_not_patched sample_mesh_node sample_table 0%Z 6%Z)
    as (ob & msgs & mesh & Hrun & _ & Hdata & Hmat & _).
  - reflexivity.
  - reflexivity.
  - vm_compute. repeat constructor; discriminate.
  - exists ob, msgs, mesh. split; [exact Hrun|]. split; [exact Hmat | exact Hdata].
Defined.

(** C4 fails as stated. The same node list is finalized once with the host
    that reports the mesh as invalid, so that an error is logged, and once
    with the host that finds no fault; the returned status is the same set,
    with nothing in it that tells the two finishes apart. *)
Lemma finalize_status_counterexample :
  let b := (build_cmds mesh_stream (new_builder "obj")).2 in
  let warned := @finalize_intermediate_blocks ZScalar strict_host b in
  let clean := @finalize_intermediate_blocks ZScalar lenient_host b in
  log warned.2 = [invalid_mesh_message]
  ∧ log clean.2 = []
  ∧ warned.1 = Done {["FINISHED"]}
  ∧ clean.1 = Done {["FINISHED"]}
  ∧ warned.1 = clean.1.
Proof. by_computation. Qed.

Lemma finalize_returns_finished_witness :
  finalizable (build_cmds mesh_stream (new_builder "obj")).2
  ∧ (finalize_intermediate_blocks (build_cmds mesh_stream (new_builder "obj")).2).1
    = Done {["FINISHED"]}.
Proof.
  assert (Hfin : finalizable (build_cmds mesh_stream (new_builder "obj")).2).
  { unfold finalizable.
    set (b := (build_cmds mesh_stream (new_builder "obj")).2).
    vm_compute in b. subst b. cbn [_blocks vt_table anim_heap vertices idxes].
    split; [|constructor].
    repeat constructor; simpl; intros start cnt Hs Hc; [discriminate|].
    injection Hs as <-. injection Hc as <-.
    vm_compute. repeat constructor; discriminate. }
  split; [exact Hfin|].
  exact (proj1 (proj2 finalize_returns_finished "obj" mesh_stream Hfin)).
Defined.

(** *** Show and hide *)

(** C8 fails as stated. On a fresh builder, [ANIM_show(0, 1, "sim/x")]
    raises [IndexError]: no bracket is open, so [begin_new_frame] finds no
    open count to increase. It has by then appended its empty node, without
    animation, and finalizing what is left yields that empty with no keyframe
    at all. *)
Lemma show_without_bracket_counterexample :
  let run := build_cmds [show_call 0%Z 1%Z "sim/x"] (new_builder "obj") in
  run.1 = Fail IndexError
  ∧ (finalize_intermediate_blocks run.2).1 = Done {["FINISHED"]}
  ∧ map ob_keyframes (objects (finalize_intermediate_blocks run.2).2) = [[]].
Proof. by_computation. Qed.

Lemma show_hide_single_keyframe_witness :
  (anim_type (xp_dataref show_animation) = "show"
   ∨ anim_type (xp_dataref show_animation) = "hide")
  ∧ apply_animation show_animation
    = Done [mkKeyframeInfo 1 "sim/x" None (Some 0%Z) (Some 1%Z) "show" None None].
Proof.
  split; [by left|].
  apply (proj1 show_hide_single_keyframe show_animation). by left.
Defined.

(** *** Rotation axes, unsupported directives, pending animations *)

Lemma wf_open_bracket : wf_builder open_bracket.
Proof. apply build_cmds_wf. Qed.

Lemma rotation_axis_buckets_witness :
  wf_builder open_bracket
  ∧ _anim_count open_bracket ≠ []
  ∧ (∃ b0,
       build_cmd "ANIM_rotate_begin" [PVec (vec 0 (-1) 0); PStr "sim/r"] ""
         open_bracket = (Done tt, b0)
       ∧ _last_axis b0 = Some (vec 0 1 0))
  ∧ (∃ b' a,
       build_cmd "ANIM_rotate"
         [PVec (vec 0 (-1) 0); PFloat 0%Z; PFloat 90%Z; PFloat 0%Z; PFloat 1%Z;
          PStr "sim/r"] "" open_bracket = (Done tt, b')
       ∧ top_animation_object b' = (Done a, b')
       ∧ rotations a = [(vec 0 (-1) 0, [0; 90]%Z)]).
Proof.
  split; [exact wf_open_bracket|]. split; [discriminate|].
  destruct (rotation_axis_buckets open_bracket wf_open_bracket) as [Hbegin Hstatic].
  - discriminate.
  - split.
    + destruct (Hbegin (vec 0 (-1) 0) "sim/r" "") as (b0 & Hrun & Hax & _).
      exists b0. split; [exact Hrun | exact Hax].
    + exact (Hstatic (vec 0 (-1) 0) 0%Z 90%Z 0%Z 1%Z "sim/r" "").
Defined.

Lemma build_cmd_unsupported_witness :
  ("ATTR_LOD" ∉ known_directives)
  ∧ build_cmd "ATTR_LOD" [PFloat 0%Z; PFloat 1000%Z] "" (new_builder "obj")
    = (Fail (AssertionError "ATTR_LOD is not supported yet"), new_builder "obj").
Proof.
  assert (Hnot : "ATTR_LOD" ∉ known_directives).
  { unfold known_directives. rewrite !not_elem_of_cons.
    repeat (split; [discriminate|]). apply not_elem_of_nil. }
  split; [exact Hnot|].
  exact (build_cmd_unsupported "ATTR_LOD" [PFloat 0%Z; PFloat 1000%Z] ""
           (new_builder "obj") Hnot).
Defined.

Lemma one_pending_animation_per_node_witness :
  wf_builder open_bracket
  ∧ _anim_count open_bracket ≠ []
  ∧ (begin_new_frame open_bracket).1 = Done tt.
Proof.
  split; [exact wf_open_bracket|]. split; [discriminate|].
  destruct one_pending_animation_per_node as (_ & _ & Hreturns).
  apply (Hreturns open_bracket); [exact wf_open_bracket | discriminate].
Defined.

(** * Concrete runs of the further properties *)

(** *** Tables, nodes and names *)

Example hierarchy_builds :
  (build_cmds hierarchy_stream (new_builder "obj")).1 = Done tt
  ∧ node_name <$> _blocks hierarchy
    = ["INTER_ROOT"; "ImpMesh.000_beef"; "ImpEmpty.001_beef"; "ImpMesh.001_beef";
       "ImpEmpty.002_beef"; "ImpMesh.002_beef"]
  ∧ (λ blk, parent <$> parent_info (datablock_info blk)) <$> _blocks hierarchy
    = [None; Some "INTER_ROOT"; Some "INTER_ROOT"; Some "ImpEmpty.001_beef";
       Some "ImpEmpty.001_beef"; Some "ImpEmpty.002_beef"].
Proof. by_computation. Qed.

Lemma vt_table_only_grows_witness :
  ("TRIS" ∉ table_directives)
  ∧ vt_table (build_cmd "TRIS" [PInt 0%Z; PInt 6%Z] ""
                (build_cmds mesh_stream (new_builder "obj")).2).2
    = vt_table (build_cmds mesh_stream (new_builder "obj")).2.
Proof.
  assert (Hnot : "TRIS" ∉ table_directives).
  { unfold table_directives. rewrite !not_elem_of_cons.
    repeat (split; [discriminate|]). apply not_elem_of_nil. }
  split; [exact Hnot|].
  exact (proj1 (proj2 vt_table_only_grows) "TRIS" [PInt 0%Z; PInt 6%Z] ""
           (build_cmds mesh_stream (new_builder "obj")).2 Hnot).
Defined.

Lemma nodes_only_appended_witness :
  "ANIM_end" ≠ "TRIS" ∧ ("ANIM_end" ∉ frame_directives)
  ∧ _blocks (build_cmd "ANIM_end" [] "" open_frame).2 = _blocks open_frame.
Proof.
  assert (Hnot : "ANIM_end" ∉ frame_directives).
  { unfold frame_directives. rewrite !not_elem_of_cons.
    repeat (split; [discriminate|]). apply not_elem_of_nil. }
  split; [discriminate|]. split; [exact Hnot|].
  apply (proj2 nodes_only_appended "ANIM_end" [] "" open_frame); [discriminate|].
  exact Hnot.
Defined.

Lemma node_names_distinct_witness :
  Forall (λ c, call_name_hint c = "") hierarchy_stream
  ∧ NoDup (node_name <$> _blocks hierarchy).
Proof.
  assert (Hhints : Forall (λ c, call_name_hint c = "") hierarchy_stream).
  { repeat constructor. }
  split; [exact Hhints|].
  exact (proj2 (node_names_distinct "obj" hierarchy_stream Hhints)).
Defined.

(** *** Animations *)

Lemma keyframes_need_one_family_witness :
  mixed_animation ∈ anim_heap (build_cmds mixed_stream (new_builder "obj")).2
  ∧ anim_type (xp_dataref mixed_animation) = ANIM_TYPE_TRANSFORM
  ∧ mixed_keys mixed_animation
  ∧ apply_animation mixed_animation = Fail IndexError.
Proof.
  assert (Hin : mixed_animation
                ∈ anim_heap (build_cmds mixed_stream (new_builder "obj")).2).
  { apply (list_elem_of_lookup_2 _ 0). vm_compute. reflexivity. }
  assert (Hmixed : mixed_keys mixed_animation).
  { left. split; discriminate. }
  split; [exact Hin|]. split; [reflexivity|]. split; [exact Hmixed|].
  exact (proj2 (proj1 (keyframes_need_one_family "obj" mixed_stream mixed_animation
                         Hin eq_refl)) Hmixed).
Defined.

Lemma frame_call_outside_bracket_witness :
  wf_builder (new_builder "obj")
  ∧ _anim_count (new_builder "obj") = []
  ∧ (run (frame_call (CallShow 0%Z 1%Z "sim/x")) (new_builder "obj")).1
    = Fail IndexError
  ∧ length (_blocks (run (frame_call (CallShow 0%Z 1%Z "sim/x"))
                       (new_builder "obj")).2) = 2.
Proof.
  split; [apply wf_new_builder|]. split; [reflexivity|].
  destruct (@frame_call_outside_bracket ZScalar strict_host
              (@CallShow ZScalar 0%Z 1%Z "sim/x") (new_builder "obj")
              (wf_new_builder "obj") eq_refl) as (pn & _ & ->).
  split; reflexivity.
Defined.

Lemma frame_call_in_bracket_witness :
  wf_builder open_bracket
  ∧ _anim_count open_bracket = [0]
  ∧ (run (frame_call (CallTrans (vec 0 0 0) (vec 0 0 1) 0%Z 1%Z "sim/t"))
       open_bracket).1 = Done tt
  ∧ anim_heap (run (frame_call (CallTrans (vec 0 0 0) (vec 0 0 1) 0%Z 1%Z "sim/t"))
                 open_bracket).2
    = [mkAnimation [vec 0 0 0; vec 0 0 1] []
         (mkDataref "transform" 0%Z "sim/t" 0%Z 0%Z [0; 1]%Z)].
Proof.
  split; [exact wf_open_bracket|]. split; [reflexivity|].
  destruct (@frame_call_in_bracket ZScalar strict_host
              (@CallTrans ZScalar (vec 0 0 0) (vec 0 0 1) 0%Z 1%Z "sim/t")
              open_bracket 0 []
              wf_open_bracket eq_refl) as (pn & _ & ->).
  split; reflexivity.
Defined.

Lemma key_call_outside_frame_witness :
  _anim_intermediate_stack open_bracket = []
  ∧ run (key_call (CallTransKey 0%Z (vec 0 0 1))) open_bracket
    = (Fail AttributeError, open_bracket).
Proof.
  split; [reflexivity|].
  exact (@key_call_outside_frame ZScalar strict_host
           (@CallTransKey ZScalar 0%Z (vec 0 0 1)) open_bracket eq_refl).
Defined.

Lemma wf_open_frame : wf_builder open_frame.
Proof. apply build_cmds_wf. Qed.

Lemma rotate_key_needs_axis_witness :
  wf_builder open_frame
  ∧ _last_axis open_frame = None
  ∧ _anim_intermediate_stack open_frame ≠ []
  ∧ run (key_call (CallRotateKey 0%Z 90%Z)) open_frame
    = (Fail AttributeError, open_frame).
Proof.
  split; [exact wf_open_frame|]. split; [reflexivity|]. split; [discriminate|].
  exact (proj1 (@rotate_key_needs_axis ZScalar strict_host open_frame 0%Z 90%Z
                  wf_open_frame) eq_refl).
Defined.

Lemma key_directive_writes_top_only_witness :
  ("ANIM_trans_key" ∈ key_directives)
  ∧ top_animation_only open_frame
      (build_cmd "ANIM_trans_key" [PFloat 0%Z; PVec (vec 0 0 1)] "" open_frame).2.
Proof.
  assert (Hkey : "ANIM_trans_key" ∈ key_directives) by (by left).
  split; [exact Hkey|].
  exact (key_directive_writes_top_only "ANIM_trans_key"
           [PFloat 0%Z; PVec (vec 0 0 1)] "" open_frame Hkey).
Defined.

Lemma anim_rotate_is_shorthand_witness :
  vabs (vec 0 1 0) = vec 0 1 0
  ∧ (run (frame_call (CallRotate (vec 0 1 0) 0%Z 90%Z 0%Z 1%Z "sim/r"))
       open_bracket).1
    = (build_cmds [frame_call (CallRotateBegin (vec 0 1 0) "sim/r");
                   key_call (CallRotateKey 0%Z 0%Z);
                   key_call (CallRotateKey 1%Z 90%Z); rotate_end_call]
         open_bracket).1.
Proof.
  split; [reflexivity|].
  exact (proj1 (@anim_rotate_is_shorthand ZScalar strict_host
                  (vec 0 1 0) 0%Z 90%Z 0%Z 1%Z "sim/r" open_bracket eq_refl)).
Defined.

Lemma open_contexts_are_counted_witness :
  build_cmds [begin_call; trans_begin_call "sim/y"] (new_builder "obj")
  = (Done tt, open_frame)
  ∧ length (_anim_intermediate_stack open_frame) = sum_list (_anim_count open_frame).
Proof.
  assert (Hrun : build_cmds [begin_call; trans_begin_call "sim/y"] (new_builder "obj")
                 = (Done tt, open_frame)) by (vm_compute; reflexivity).
  split; [exact Hrun|].
  exact (proj1 (open_contexts_are_counted "obj" _ open_frame Hrun)).
Defined.

Lemma trans_track_keyframes_witness :
  wf_builder open_bracket
  ∧ _anim_count open_bracket = [0]
  ∧ apply_animation
      (mkAnimation [vec 0 0 0; vec 0 0 4] []
         (mkDataref "transform" 0%Z "sim/a" 0%Z 0%Z [0; 1]%Z))
    = Done [mkKeyframeInfo 1 "sim/a" (Some 0%Z) None None "transform"
              (Some (vec 0 0 0)) None;
            mkKeyframeInfo 2 "sim/a" (Some 1%Z) None None "transform"
              (Some (vec 0 0 4)) None].
Proof.
  split; [exact wf_open_bracket|]. split; [reflexivity|].
  destruct (@trans_track_keyframes ZScalar strict_host open_bracket 0 [] "sim/a"
              [(0%Z, vec 0 0 0); (1%Z, vec 0 0 4)] wf_open_bracket eq_refl)
    as (b' & _ & _ & _ & Hkfs).
  exact Hkfs.
Defined.

Lemma rotate_track_keyframes_witness :
  wf_builder open_bracket
  ∧ _anim_count open_bracket = [0]
  ∧ apply_animation
      (mkAnimation [] [(vec 0 1 0, [0; 90]%Z)]
         (mkDataref "transform" 0%Z "sim/r" 0%Z 0%Z [0; 1]%Z))
    = Done [mkKeyframeInfo 1 "sim/r" (Some 0%Z) None None "transform" None
              (Some (vec 0 0 0));
            mkKeyframeInfo 2 "sim/r" (Some 1%Z) None None "transform" None
              (Some (vec 0 90 0))].
Proof.
  split; [exact wf_open_bracket|]. split; [reflexivity|].
  destruct (@rotate_track_keyframes ZScalar strict_host open_bracket 0 []
              (vec 0 (-1) 0) "sim/r" (0%Z, 0%Z) [(1%Z, 90%Z)] wf_open_bracket eq_refl)
    as (b' & _ & _ & _ & Hkfs).
  exact Hkfs.
Defined.

(** *** Meshes *)

Lemma chunk_partitions_witness :
  0 < 3
  ∧ mjoin (chunk [2; 2; 5; 2; 5]%Z 3) = [2; 2; 5; 2; 5]%Z
  ∧ chunk [2; 2; 5; 2; 5]%Z 3 !! 1 = Some [2; 5]%Z
  ∧ chunk [2; 2; 5; 2; 5]%Z 3 !! 2 = None.
Proof.
  split; [lia|].
  destruct (proj1 chunk_partitions [2; 2; 5; 2; 5]%Z 3) as [Hjoin Hlookup]; [lia|].
  split; [exact Hjoin|]. split; [exact (Hlookup 1) | exact (Hlookup 2)].
Defined.

Lemma faces_follow_the_slice_witness :
  start_idx ragged_mesh_node = Some 0%Z
  ∧ count ragged_mesh_node = Some 5%Z
  ∧ Forall (valid_index (length (vertices sample_table)))
           (py_slice (idxes sample_table) 0 (0 + 5))
  ∧ ∃ ob msgs mesh,
      build_mesh ragged_mesh_node sample_table = Done (ob, msgs)
      ∧ ob_data ob = Some mesh
      ∧ ∀ face, me_faces mesh !! 1 = Some face → length face = 2.
Proof.
  assert (Hvalid : Forall (valid_index (length (vertices sample_table)))
                          (py_slice (idxes sample_table) 0 (0 + 5))).
  { vm_compute. repeat constructor; discriminate. }
  split; [reflexivity|]. split; [reflexivity|]. split; [exact Hvalid|].
  destruct (faces_follow_the_slice ragged_mesh_node sample_table 0%Z 5%Z
              eq_refl eq_refl Hvalid) as (ob & msgs & mesh & Hrun & Hdata & _ & Hlen).
  exists ob, msgs, mesh. split; [exact Hrun|]. split; [exact Hdata|].
  intros face Hface. exact (Hlen 1 face Hface).
Defined.

Lemma build_mesh_checks_indices_only_witness :
  start_idx three_mesh_node = Some 0%Z
  ∧ count three_mesh_node = Some 3%Z
  ∧ Exists (λ i, ¬ valid_index (length (vertices short_table)) i)
           (py_slice (idxes short_table) 0 (0 + 3))
  ∧ build_mesh three_mesh_node short_table = Fail IndexError.
Proof.
  assert (Hbad : Exists (λ i, ¬ valid_index (length (vertices short_table)) i)
                        (py_slice (idxes short_table) 0 (0 + 3))).
  { vm_compute. do 2 right. left. intros [_ Hlt]. discriminate Hlt. }
  split; [reflexivity|]. split; [reflexivity|]. split; [exact Hbad|].
  exact (proj2 (proj2 (proj1 (build_mesh_checks_indices_only three_mesh_node short_table)
                         0%Z 3%Z eq_refl eq_refl)) Hbad).
Defined.

Lemma tris_slice_is_clamped_witness :
  start_idx far_mesh_node = Some 9%Z
  ∧ count far_mesh_node = Some 3%Z
  ∧ (Z.of_nat (length (idxes sample_table)) ≤ 9)%Z
  ∧ ∃ msgs,
      build_mesh far_mesh_node sample_table
      = Done (mkObject (datablock_info far_mesh_node) (Some (mkMesh [] [] ∅ ∅))
                (Some "Material") [], msgs).
Proof.
  split; [reflexivity|]. split; [reflexivity|].
  assert (Hfar : (Z.of_nat (length (idxes sample_table)) ≤ 9)%Z) by (simpl; lia).
  split; [exact Hfar|].
  apply (proj2 (tris_slice_is_clamped far_mesh_node sample_table 9%Z 3%Z
                  eq_refl eq_refl)).
  left. exact Hfar.
Defined.

Lemma compact_vertices_all_used_witness :
  start_idx sample_mesh_node = Some 0%Z
  ∧ count sample_mesh_node = Some 6%Z
  ∧ Forall (valid_index (length (vertices sample_table)))
           (py_slice (idxes sample_table) 0 (0 + 6))
  ∧ ∃ ob msgs mesh,
      build_mesh sample_mesh_node sample_table = Done (ob, msgs)
      ∧ ob_data ob = Some mesh
      ∧ ∀ k, k ∈ mjoin (me_faces mesh) ↔ k < length (me_vertices mesh).
Proof.
  assert (Hvalid : Forall (valid_index (length (vertices sample_table)))
                          (py_slice (idxes sample_table) 0 (0 + 6))).
  { vm_compute. repeat constructor; discriminate. }
  split; [reflexivity|]. split; [reflexivity|]. split; [exact Hvalid|].
  destruct (compact_vertices_all_used sample_mesh_node sample_table 0%Z 6%Z
              eq_refl eq_refl Hvalid) as (ob & msgs & mesh & Hrun & Hdata & Hused & _).
  exists ob, msgs, mesh. split; [exact Hrun|]. split; [exact Hdata | exact Hused].
Defined.

(** *** Finalization *)

Example hierarchy_finalizes :
  let r := finalize_intermediate_blocks hierarchy in
  r.1 = Done {["FINISHED"]}
  ∧ (λ ob, (name (ob_info ob), parent <$> parent_info (ob_info ob),
            length (ob_keyframes ob))) <$> objects r.2
    = [("ImpMesh.000_beef", None, 0); ("ImpEmpty.001_beef", None, 1);
       ("ImpMesh.001_beef", Some "ImpEmpty.001_beef", 0);
       ("ImpEmpty.002_beef", Some "ImpEmpty.001_beef", 1);
       ("ImpMesh.002_beef", Some "ImpEmpty.002_beef", 0)].
Proof. by_computation. Qed.

Lemma finalize_one_object_per_node_witness :
  (finalize_intermediate_blocks hierarchy).1 = Done {["FINISHED"]}
  ∧ length (objects (finalize_intermediate_blocks hierarchy).2)
    = length (_blocks hierarchy) - 1
  ∧ frame_current (finalize_intermediate_blocks hierarchy).2 = Some 1.
Proof.
  assert (Hst : (finalize_intermediate_blocks hierarchy).1 = Done {["FINISHED"]})
    by (vm_compute; reflexivity).
  split; [exact Hst|].
  destruct (@finalize_one_object_per_node ZScalar strict_host hierarchy
              {["FINISHED"]} (finalize_intermediate_blocks hierarchy).2
              (pair_from_fst _ _ Hst)) as (Hall & Hfc & _).
  split; [|exact Hfc].
  apply Forall2_length in Hall. rewrite length_drop in Hall.
  symmetry. exact Hall.
Defined.

Lemma meshes_are_never_keyframed_witness :
  (finalize_intermediate_blocks hierarchy).1 = Done {["FINISHED"]}
  ∧ ∀ ob, ob ∈ objects (finalize_intermediate_blocks hierarchy).2 →
      datablock_type (ob_info ob) = MESH → ob_keyframes ob = [].
Proof.
  unfold hierarchy.
  assert (Hst : (finalize_intermediate_blocks
                   (build_cmds hierarchy_stream (new_builder "obj")).2).1
                = Done {["FINISHED"]})
    by (vm_compute; reflexivity).
  split; [exact Hst|].
  intros ob Hob.
  exact (proj2 (@meshes_are_never_keyframed ZScalar strict_host "obj"
                  hierarchy_stream {["FINISHED"]} _
                  (pair_from_fst _ _ Hst) ob Hob)).
Defined.

End Runs.
